(** * Page-snap scroll navigation and theme toggle: a shallow embedding

    The repository holds two variants of one browser controller:
    - [script.js]: theme toggle with persistence, page-by-page scrolling,
      and a timed stabilisation after a theme switch;
    - a second, unnamed variant: page-by-page scrolling with settle
      detection and a full re-initialisation when the theme class changes.

    The script variables become a record that is passed explicitly; the
    browser is split into what the script reads at each event (an [Env]:
    the sections of the document, their bounding rectangles, the focused
    element, the overlay) and what it writes (pending timers, the log of
    commands sent to the browser, local storage, the body class list).
    Pixel coordinates and wheel deltas are modelled as integers.

    Time is not modelled. A call of [setTimeout] or
    [requestAnimationFrame] stores a task together with the delay it was
    given; the browser may run any pending task at any moment (the event
    [EvFire]), which covers every order in which timers can really
    fire. Timer ids and frame ids are drawn from one counter, so that an
    id names one task. *)

From Stdlib Require Import ZArith Lia Ascii String.
From stdpp Require Import base option list gmap strings.

Local Open Scope Z_scope.

(** ** Data read from the browser *)

(** A DOM element reference. The section array holds references, and the
    rectangle of a section is read from the live document at each use. *)
Definition Elem := nat.

Record ActiveElement := mkActive {
  tagName : option string;        (* [undefined] for a non-element *)
  isContentEditable : bool;
  canBlur : bool                  (* typeof el.blur === "function" *)
}.

Record Env := mkEnv {
  querySections : list Elem;       (* document.querySelectorAll("section[id]") *)
  rectTop : Elem -> Z;             (* el.getBoundingClientRect().top *)
  scrollY : Z;                     (* window.scrollY *)
  activeElement : option ActiveElement;
  viewerDisplay : option string    (* #viewer, if present: its inline display *)
}.

(** The target of a wheel event. [closest] is called optionally
    ([target.closest?.(sel)]): a target without that method yields
    [undefined] for both lookups. *)
Inductive Target :=
| NotAnElement
| Node (projectInfo : option (Z * Z))  (* closest .project-info: scrollHeight, clientHeight *)
       (textarea : bool).              (* a closest textarea exists *)

Record WheelEvent := mkWheel { deltaY : Z; target : option Target }.
Record KeyEvent := mkKey { key : string; repeat : bool }.

(** Commands the script sends to the browser, in the order issued. *)
Inductive Effect :=
| PreventDefault
| ScrollTo (top : Z) (behavior : string)
| ScrollIntoView (sec : Elem)
| Blur.

Inductive TimerKind :=
| Timeout (ms : Z)
| AnimationFrame.

(** ** Constants shared by the two variants *)

Definition HEADER_OFFSET : Z := 80.
Definition WHEEL_ACCUM_THRESHOLD : Z := 60.
Definition WHEEL_RESET_MS : Z := 140.

(** ** Pure helpers (textually identical in both files) *)

Definition getSections (env : Env) : list Elem := querySections env.

Definition clamp (n min max : Z) : Z := Z.max min (Z.min max n).

Definition lower_ascii (c : ascii) : ascii :=
  let n := nat_of_ascii c in
  if ((65 <=? n)%nat && (n <=? 90)%nat)%bool then ascii_of_nat (n + 32) else c.

Fixpoint toLowerCase (s : string) : string :=
  match s with
  | EmptyString => EmptyString
  | String c r => String (lower_ascii c) (toLowerCase r)
  end.

Definition isOverlayOpen (env : Env) : bool :=
  match viewerDisplay env with
  | Some d => String.eqb d "flex"
  | None => false
  end.

Definition isTyping (env : Env) : bool :=
  match activeElement env with
  | None => false
  | Some el =>
      let tag := toLowerCase (default EmptyString (tagName el)) in
      (String.eqb tag "input" || String.eqb tag "textarea" || isContentEditable el)%bool
  end.

Definition isInsideScrollable (t : option Target) : bool :=
  match t with
  | None => false
  | Some NotAnElement => false
  | Some (Node projectInfo ta) =>
      match projectInfo with
      | Some (scrollHeight, clientHeight) =>
          if clientHeight <? scrollHeight then true else ta
      | None => ta
      end
  end.

(** [bestDist] starts at [Infinity], modelled by [None]. *)
Definition lt_best (dist : Z) (bestDist : option Z) : bool :=
  match bestDist with
  | None => true
  | Some b => dist <? b
  end.

Definition distToHeader (env : Env) (sec : Elem) : Z :=
  Z.abs (rectTop env sec - HEADER_OFFSET).

(** The body of [sections.forEach((sec, idx) => ...)], with the two
    captured variables threaded through. *)
Fixpoint nearestLoop (env : Env) (secs : list Elem) (idx : Z)
    (bestIdx : Z) (bestDist : option Z) : Z :=
  match secs with
  | [] => bestIdx
  | sec :: rest =>
      let dist := distToHeader env sec in
      if lt_best dist bestDist
      then nearestLoop env rest (idx + 1) idx (Some dist)
      else nearestLoop env rest (idx + 1) bestIdx bestDist
  end.

Definition nearestSectionIndex (env : Env) (secs : list Elem) : Z :=
  nearestLoop env secs 0 0 None.

Definition includes (k : string) (l : list string) : bool :=
  existsb (String.eqb k) l.

Definition nextKeys : list string := ["ArrowDown"; "PageDown"; " "]%string.
Definition prevKeys : list string := ["ArrowUp"; "PageUp"]%string.
Definition navKeys : list string := nextKeys ++ prevKeys ++ ["Home"; "End"]%string.

(** ** The controller state shared by the two variants

    [C] is the type of callbacks a variant schedules, [X] the variables
    and browser state only that variant has. *)

Record State (C X : Type) := mkState {
  sections : list Elem;
  currentIndex : Z;
  locked : bool;
  lockTimer : option nat;
  wheelAccum : Z;
  wheelResetTimer : option nat;
  listenersAttached : bool;
  tasks : gmap nat (TimerKind * C);   (* pending timers and animation frames *)
  nextId : nat;                       (* next timer id; ids are positive *)
  log : list Effect;                  (* commands issued so far *)
  ext : X
}.

Arguments mkState {C X}.
Arguments sections {C X}.
Arguments currentIndex {C X}.
Arguments locked {C X}.
Arguments lockTimer {C X}.
Arguments wheelAccum {C X}.
Arguments wheelResetTimer {C X}.
Arguments listenersAttached {C X}.
Arguments tasks {C X}.
Arguments nextId {C X}.
Arguments log {C X}.
Arguments ext {C X}.

Section Setters.
Context {C X : Type}.
Implicit Type st : State C X.

Definition set_sections v st : State C X :=
    mkState v (currentIndex st) (locked st) (lockTimer st) (wheelAccum st)
      (wheelResetTimer st) (listenersAttached st) (tasks st) (nextId st) (log st) (ext st).
Definition set_currentIndex v st : State C X :=
    mkState (sections st) v (locked st) (lockTimer st) (wheelAccum st)
      (wheelResetTimer st) (listenersAttached st) (tasks st) (nextId st) (log st) (ext st).
Definition set_locked v st : State C X :=
    mkState (sections st) (currentIndex st) v (lockTimer st) (wheelAccum st)
      (wheelResetTimer st) (listenersAttached st) (tasks st) (nextId st) (log st) (ext st).
Definition set_lockTimer v st : State C X :=
    mkState (sections st) (currentIndex st) (locked st) v (wheelAccum st)
      (wheelResetTimer st) (listenersAttached st) (tasks st) (nextId st) (log st) (ext st).
Definition set_wheelAccum v st : State C X :=
    mkState (sections st) (currentIndex st) (locked st) (lockTimer st) v
      (wheelResetTimer st) (listenersAttached st) (tasks st) (nextId st) (log st) (ext st).
Definition set_wheelResetTimer v st : State C X :=
    mkState (sections st) (currentIndex st) (locked st) (lockTimer st) (wheelAccum st)
      v (listenersAttached st) (tasks st) (nextId st) (log st) (ext st).
Definition set_listenersAttached v st : State C X :=
    mkState (sections st) (currentIndex st) (locked st) (lockTimer st) (wheelAccum st)
      (wheelResetTimer st) v (tasks st) (nextId st) (log st) (ext st).
Definition set_tasks v st : State C X :=
    mkState (sections st) (currentIndex st) (locked st) (lockTimer st) (wheelAccum st)
      (wheelResetTimer st) (listenersAttached st) v (nextId st) (log st) (ext st).
Definition set_nextId v st : State C X :=
    mkState (sections st) (currentIndex st) (locked st) (lockTimer st) (wheelAccum st)
      (wheelResetTimer st) (listenersAttached st) (tasks st) v (log st) (ext st).
Definition set_log v st : State C X :=
    mkState (sections st) (currentIndex st) (locked st) (lockTimer st) (wheelAccum st)
      (wheelResetTimer st) (listenersAttached st) (tasks st) (nextId st) v (ext st).
Definition set_ext v st : State C X :=
    mkState (sections st) (currentIndex st) (locked st) (lockTimer st) (wheelAccum st)
      (wheelResetTimer st) (listenersAttached st) (tasks st) (nextId st) (log st) v.
End Setters.

(** ** Timers, locking and the input handlers

    These functions are the same text in both files. What differs is the
    lock duration, the callbacks, and the jump operation the handlers
    call, which are the parameters of this section. *)

Section Controller.
Context {C X : Type}.
Variable cbLockExpire : C.     (* () => { locked = false; } *)
Variable cbWheelReset : C.     (* () => { wheelAccum = 0; } *)
Variable MAX_LOCK_MS : Z.
Implicit Type st : State C X.

Definition setTimeout (cb : C) (ms : Z) st : nat * State C X :=
    let id := nextId st in
    (id, set_nextId (S id) (set_tasks (<[id := (Timeout ms, cb)]> (tasks st)) st)).

Definition requestAnimationFrame (cb : C) st : nat * State C X :=
    let id := nextId st in
    (id, set_nextId (S id) (set_tasks (<[id := (AnimationFrame, cb)]> (tasks st)) st)).

Definition clearTimeout (id : nat) st : State C X :=
    set_tasks (delete id (tasks st)) st.

  (** [if (t) clearTimeout(t);] *)
Definition clearIfSet (t : option nat) st : State C X :=
    match t with
    | Some id => clearTimeout id st
    | None => st
    end.

Definition emit (e : Effect) st : State C X := set_log (log st ++ [e]) st.

Definition lockInput st : State C X :=
    let st := set_locked true st in
    let st := clearIfSet (lockTimer st) st in
    let '(id, st) := setTimeout cbLockExpire MAX_LOCK_MS st in
    set_lockTimer (Some id) st.

Definition unlockInput st : State C X :=
    let st := set_locked false st in
    let st := clearIfSet (lockTimer st) st in
    set_lockTimer None st.

  (** The part of [clearTimers] / [clearAllTimers] both files share. *)
Definition clearTimers st : State C X :=
    let st := clearIfSet (lockTimer st) st in
    let st := set_lockTimer None st in
    let st := clearIfSet (wheelResetTimer st) st in
    set_wheelResetTimer None st.

Definition syncState (env : Env) st : State C X :=
    let st := set_sections (getSections env) st in
    match sections st with
    | [] => st
    | _ :: _ => set_currentIndex (nearestSectionIndex env (sections st)) st
    end.

Definition attachListeners st : State C X :=
    if listenersAttached st then st else set_listenersAttached true st.

Definition detachListeners st : State C X :=
    if listenersAttached st then set_listenersAttached false st else st.

  (** The callbacks of the two timers armed here. *)
Definition runLockExpire st : State C X := set_locked false st.
Definition runWheelReset st : State C X := set_wheelAccum 0 st.

  (** [jump env idx st] is [jumpToIndex(idx, "smooth")] in [script.js] and
      [scrollToIndex(idx)] in the other variant. [None] stands for an
      uncaught exception. *)
Variable jump : Env -> Z -> State C X -> option (State C X).

Definition next (env : Env) st := jump env (currentIndex st + 1) st.
Definition prev (env : Env) st := jump env (currentIndex st - 1) st.

Definition onWheel (env : Env) (e : WheelEvent) st : option (State C X) :=
    if isOverlayOpen env then Some st
    else if isTyping env then Some st
    else if isInsideScrollable (target e) then Some st
    else if locked st then Some (emit PreventDefault st)
    else
      let st := set_wheelAccum (wheelAccum st + deltaY e) st in
      let st := clearIfSet (wheelResetTimer st) st in
      let '(id, st) := setTimeout cbWheelReset WHEEL_RESET_MS st in
      let st := set_wheelResetTimer (Some id) st in
      if Z.abs (wheelAccum st) <? WHEEL_ACCUM_THRESHOLD then Some st
      else
        let st := emit PreventDefault st in
        let dir := if 0 <? wheelAccum st then 1 else -1 in
        let st := set_wheelAccum 0 st in
        if dir =? 1 then next env st else prev env st.

Definition onKeyDown (env : Env) (e : KeyEvent) st : option (State C X) :=
    if isOverlayOpen env then Some st
    else if isTyping env then Some st
    else
      let k := key e in
      if negb (includes k navKeys) then Some st
      else
        let st := emit PreventDefault st in
        if locked st then Some st
        else if repeat e then Some st
        else if includes k nextKeys then next env st
        else if includes k prevKeys then prev env st
        else if String.eqb k "Home" then jump env 0 st
        else if String.eqb k "End" then jump env (Z.of_nat (length (sections st)) - 1) st
        else Some st.
End Controller.

(** A handler applied to a sequence of events, each with the document as
    it is when the event arrives. *)
Fixpoint handleAll {E S : Type} (h : Env -> E -> S -> option S)
    (tr : list (Env * E)) (st : S) : option S :=
  match tr with
  | [] => Some st
  | (env, e) :: rest => st' ← h env e st; handleAll h rest st'
  end.

(** Whether the running sum, started at [acc], stays under the wheel
    threshold after each of the deltas [ds]. *)
Fixpoint staysBelow (acc : Z) (ds : list Z) : bool :=
  match ds with
  | [] => true
  | d :: rest => (Z.abs (acc + d) <? WHEEL_ACCUM_THRESHOLD) && staysBelow (acc + d) rest
  end.

Definition sumZ (ds : list Z) : Z := foldr Z.add 0 ds.

(** No overlay, nothing being typed, and the event is not inside a
    scrollable element: the three early returns of [onWheel] are passed. *)
Definition passesGuards (p : Env * WheelEvent) : bool :=
  negb (isOverlayOpen p.1) && negb (isTyping p.1) && negb (isInsideScrollable (target p.2)).

(** The scroll commands among the logged effects: one per navigation. *)
Definition isScroll (e : Effect) : bool :=
  match e with
  | ScrollTo _ _ | ScrollIntoView _ => true
  | PreventDefault | Blur => false
  end.

Definition navigations (l : list Effect) : list Effect := List.filter isScroll l.

(** A checkbox element with the handlers registered for its [change]
    event, in registration order. *)
Record Checkbox (H : Type) := mkCheckbox {
  checked : bool;
  onChange : list H
}.
Arguments mkCheckbox {H}.
Arguments checked {H}.
Arguments onChange {H}.

(** [classList.toggle(token, force)] *)
Definition classToggle (token : string) (force : bool) (classes : gset string) : gset string :=
  if force then classes ∪ {[token]} else classes ∖ {[token]}.

(** * [script.js] *)

Module Script.

Definition THEME_KEY : string := "themeMode".
Definition MAX_LOCK_MS : Z := 900.

Inductive Callback :=
| CbLockExpire                         (* lockInput: locked = false *)
| CbWheelReset                         (* onWheel: wheelAccum = 0 *)
| CbJumpDone                           (* jumpToIndex: syncState(); unlockInput() *)
| CbStabilize                          (* stabilizeAfterThemeSwitch, after 50 ms *)
| CbStabFrame1 (prevBehavior : string) (* outer requestAnimationFrame *)
| CbStabFrame2 (prevBehavior : string) (* inner requestAnimationFrame *)
| CbStabEnd (prevBehavior : string)    (* the 220 ms timeout *)
| CbHashSync.                          (* hashchange: setTimeout(syncState, 250) *)

Inductive ChangeHandler :=
| ApplyFromSwitch.                     (* () => applyTheme(sw.checked ? "light" : "dark") *)

Record Ext := mkExt {
  themeStabilizeTimer : option nat;
  storage : gmap string string;        (* localStorage *)
  bodyClasses : gset string;           (* document.body.classList *)
  themeSwitch : option (Checkbox ChangeHandler);  (* #themeSwitch, if present *)
  scrollBehavior : string;             (* document.documentElement.style.scrollBehavior *)
  resizeListener : bool;               (* window "resize" -> syncState *)
  hashListener : bool                  (* window "hashchange" -> delayed syncState *)
}.

Definition St := State Callback Ext.

Definition set_themeStabilizeTimer v (x : Ext) : Ext :=
  mkExt v (storage x) (bodyClasses x) (themeSwitch x) (scrollBehavior x)
    (resizeListener x) (hashListener x).
Definition set_storage v (x : Ext) : Ext :=
  mkExt (themeStabilizeTimer x) v (bodyClasses x) (themeSwitch x) (scrollBehavior x)
    (resizeListener x) (hashListener x).
Definition set_bodyClasses v (x : Ext) : Ext :=
  mkExt (themeStabilizeTimer x) (storage x) v (themeSwitch x) (scrollBehavior x)
    (resizeListener x) (hashListener x).
Definition set_themeSwitch v (x : Ext) : Ext :=
  mkExt (themeStabilizeTimer x) (storage x) (bodyClasses x) v (scrollBehavior x)
    (resizeListener x) (hashListener x).
Definition set_scrollBehavior v (x : Ext) : Ext :=
  mkExt (themeStabilizeTimer x) (storage x) (bodyClasses x) (themeSwitch x) v
    (resizeListener x) (hashListener x).
Definition set_resizeListener v (x : Ext) : Ext :=
  mkExt (themeStabilizeTimer x) (storage x) (bodyClasses x) (themeSwitch x) (scrollBehavior x)
    v (hashListener x).
Definition set_hashListener v (x : Ext) : Ext :=
  mkExt (themeStabilizeTimer x) (storage x) (bodyClasses x) (themeSwitch x) (scrollBehavior x)
    (resizeListener x) v.

Definition upd (f : Ext -> Ext) (st : St) : St := set_ext (f (ext st)) st.

Definition lockInput : St -> St := lockInput CbLockExpire MAX_LOCK_MS.

Definition jumpToIndex (env : Env) (idx : Z) (behavior : string) (st : St) : option St :=
  match sections st with
  | [] => Some st
  | _ :: _ =>
      let st := set_currentIndex (nearestSectionIndex env (sections st)) st in
      let st := set_currentIndex (clamp idx 0 (Z.of_nat (length (sections st)) - 1)) st in
      sec ← sections st !! Z.to_nat (currentIndex st);
      let targetTop := scrollY env + rectTop env sec - HEADER_OFFSET in
      let st := lockInput st in
      let st := emit (ScrollTo targetTop behavior) st in
      Some (snd (setTimeout CbJumpDone (if String.eqb behavior "smooth" then 380 else 140) st))
  end.

Definition jump (env : Env) (idx : Z) (st : St) : option St :=
  jumpToIndex env idx "smooth" st.

Definition next : Env -> St -> option St := next jump.
Definition prev : Env -> St -> option St := prev jump.
Definition onWheel : Env -> WheelEvent -> St -> option St := onWheel CbWheelReset jump.
Definition onKeyDown : Env -> KeyEvent -> St -> option St := onKeyDown jump.

Definition stabilizeAfterThemeSwitch (st : St) : St :=
  let st := clearIfSet (themeStabilizeTimer (ext st)) st in
  let '(id, st) := setTimeout CbStabilize 50 st in
  upd (set_themeStabilizeTimer (Some id)) st.

Definition applyTheme (mode : string) (st : St) : St :=
  let light := String.eqb mode "light" in
  let st := upd (fun x => set_bodyClasses (classToggle "light" light (bodyClasses x)) x) st in
  let st := upd (fun x => set_storage (<[THEME_KEY := mode]> (storage x)) x) st in
  let st :=
    match themeSwitch (ext st) with
    | Some sw => upd (set_themeSwitch (Some (mkCheckbox light (onChange sw)))) st
    | None => st
    end in
  stabilizeAfterThemeSwitch st.

Definition initTheme (st : St) : St :=
  let saved := storage (ext st) !! THEME_KEY in
  let st := applyTheme (if bool_decide (saved = Some "light"%string) then "light" else "dark") st in
  match themeSwitch (ext st) with
  | None => st
  | Some sw =>
      upd (set_themeSwitch (Some (mkCheckbox (checked sw) (onChange sw ++ [ApplyFromSwitch])))) st
  end.

(** The listener [initTheme] installs on the checkbox. *)
Definition runChangeHandler (h : ChangeHandler) (st : St) : St :=
  match h, themeSwitch (ext st) with
  | ApplyFromSwitch, Some sw => applyTheme (if checked sw then "light" else "dark") st
  | ApplyFromSwitch, None => st
  end.

Definition runCallback (env : Env) (cb : Callback) (st : St) : option St :=
  match cb with
  | CbLockExpire => Some (runLockExpire st)
  | CbWheelReset => Some (runWheelReset st)
  | CbJumpDone => Some (unlockInput (syncState env st))
  | CbStabilize =>
      let st := clearTimers st in
      let st := set_wheelAccum 0 st in
      let st := unlockInput st in
      let st :=
        match activeElement env with
        | Some el => if canBlur el then emit Blur st else st
        | None => st
        end in
      let prevBehavior := scrollBehavior (ext st) in
      let st := upd (set_scrollBehavior "auto") st in
      Some (snd (requestAnimationFrame (CbStabFrame1 prevBehavior) st))
  | CbStabFrame1 prevBehavior =>
      Some (snd (requestAnimationFrame (CbStabFrame2 prevBehavior) st))
  | CbStabFrame2 prevBehavior =>
      let st := syncState env st in
      st ← jumpToIndex env (nearestSectionIndex env (sections st)) "auto" st;
      Some (snd (setTimeout (CbStabEnd prevBehavior) 220 st))
  | CbStabEnd prevBehavior =>
      let st := upd (set_scrollBehavior
                       (if String.eqb prevBehavior "" then ""%string else prevBehavior)) st in
      Some (unlockInput (syncState env st))
  | CbHashSync => Some (syncState env st)
  end.

Definition initScroll (env : Env) (st : St) : St :=
  let st := syncState env st in
  let st := attachListeners st in
  let st := upd (set_resizeListener true) st in
  upd (set_hashListener true) st.

Definition destroy (st : St) : St :=
  let st := detachListeners st in
  let st := clearTimers st in
  let st := upd (set_resizeListener false) st in
  let st := clearIfSet (themeStabilizeTimer (ext st)) st in
  upd (set_themeStabilizeTimer None) st.

(** The [DOMContentLoaded] handler. *)
Definition init (env : Env) (st : St) : St := initTheme (initScroll env st).

(** The script's variables as declared, on a page with the given local
    storage, body classes, theme checkbox and scroll behaviour. *)
Definition initial (stor : gmap string string) (classes : gset string)
    (sw : option bool) (sb : string) : St :=
  mkState [] 0 false None 0 None false ∅ 1%nat []
    (mkExt None stor classes ((fun c => mkCheckbox c []) <$> sw) sb false false).

Inductive Event :=
| EvWheel (e : WheelEvent)
| EvKeyDown (e : KeyEvent)
| EvResize
| EvHashChange
| EvSwitchChange          (* the user toggles #themeSwitch *)
| EvFire (id : nat)       (* the browser runs a pending timer or frame callback *)
| EvDestroy.              (* window.__portfolioController.destroy() *)

Definition step (env : Env) (ev : Event) (st : St) : option St :=
  match ev with
  | EvWheel e => if listenersAttached st then onWheel env e st else Some st
  | EvKeyDown e => if listenersAttached st then onKeyDown env e st else Some st
  | EvResize => if resizeListener (ext st) then Some (syncState env st) else Some st
  | EvHashChange =>
      if hashListener (ext st) then Some (snd (setTimeout CbHashSync 250 st)) else Some st
  | EvSwitchChange =>
      match themeSwitch (ext st) with
      | Some sw =>
          let st := upd (set_themeSwitch (Some (mkCheckbox (negb (checked sw)) (onChange sw)))) st in
          Some (foldl (fun s h => runChangeHandler h s) st (onChange sw))
      | None => Some st
      end
  | EvFire id =>
      match tasks st !! id with
      | Some (_, cb) => runCallback env cb (clearTimeout id st)
      | None => Some st
      end
  | EvDestroy => Some (destroy st)
  end.

(** A run: each event comes with what the document looks like when it is
    handled. *)
Fixpoint run (tr : list (Env * Event)) (st : St) : option St :=
  match tr with
  | [] => Some st
  | (env, ev) :: rest => st' ← step env ev st; run rest st'
  end.

End Script.

(** * The second variant (settle detection, re-initialisation on theme change) *)

Module Variant.

Definition SETTLE_CHECK_MS : Z := 80.
Definition SETTLE_REQUIRED_STEPS : Z := 4.
Definition MAX_LOCK_MS : Z := 1300.

Inductive Callback :=
| CbLockExpire                 (* lockInput: locked = false *)
| CbWheelReset                 (* onWheel: wheelAccum = 0 *)
| CbSettleCheck (sid : nat)    (* the [check] closure of one waitForSettle call *)
| CbHashSync                   (* hashchange: setTimeout(() => syncState(), 350) *)
| CbReInitFrame1               (* hardReInit: outer requestAnimationFrame *)
| CbReInitFrame2.              (* hardReInit: inner requestAnimationFrame *)

Inductive ChangeHandler :=
| HardReInit.

(** The variables captured by the closures of one [waitForSettle] call. *)
Record Settle := mkSettle {
  lastY : Z;
  stableSteps : Z;
  cancelled : bool
}.

Record MutationRecord := mkMutation {
  mtype : string;
  attributeName : option string
}.

Record Ext := mkExt {
  settleStopper : option nat;      (* the call whose [cancelled] the stopper sets *)
  settles : gmap nat Settle;       (* closure variables, one entry per call *)
  nextSettle : nat;
  themeSwitch : option (Checkbox ChangeHandler);
  observer : bool;                 (* MutationObserver on body's class attribute *)
  resizeListener : bool;
  hashListener : bool
}.

Definition St := State Callback Ext.

Definition set_settleStopper v (x : Ext) : Ext :=
  mkExt v (settles x) (nextSettle x) (themeSwitch x) (observer x)
    (resizeListener x) (hashListener x).
Definition set_settles v (x : Ext) : Ext :=
  mkExt (settleStopper x) v (nextSettle x) (themeSwitch x) (observer x)
    (resizeListener x) (hashListener x).
Definition set_nextSettle v (x : Ext) : Ext :=
  mkExt (settleStopper x) (settles x) v (themeSwitch x) (observer x)
    (resizeListener x) (hashListener x).
Definition set_themeSwitch v (x : Ext) : Ext :=
  mkExt (settleStopper x) (settles x) (nextSettle x) v (observer x)
    (resizeListener x) (hashListener x).
Definition set_observer v (x : Ext) : Ext :=
  mkExt (settleStopper x) (settles x) (nextSettle x) (themeSwitch x) v
    (resizeListener x) (hashListener x).
Definition set_resizeListener v (x : Ext) : Ext :=
  mkExt (settleStopper x) (settles x) (nextSettle x) (themeSwitch x) (observer x)
    v (hashListener x).
Definition set_hashListener v (x : Ext) : Ext :=
  mkExt (settleStopper x) (settles x) (nextSettle x) (themeSwitch x) (observer x)
    (resizeListener x) v.

Definition upd (f : Ext -> Ext) (st : St) : St := set_ext (f (ext st)) st.

Definition lockInput : St -> St := lockInput CbLockExpire MAX_LOCK_MS.

(** [settleStopper()] sets the [cancelled] variable of the call that
    created the stopper. *)
Definition callStopper (sid : nat) (st : St) : St :=
  upd (fun x => set_settles
                  (alter (fun s => mkSettle (lastY s) (stableSteps s) true) sid (settles x)) x) st.

Definition clearAllTimers (st : St) : St :=
  let st := clearTimers st in
  match settleStopper (ext st) with
  | Some sid => upd (set_settleStopper None) (callStopper sid st)
  | None => st
  end.

Definition waitForSettle (env : Env) (st : St) : St :=
  let sid := nextSettle (ext st) in
  let st := upd (fun x => set_nextSettle (S sid)
                            (set_settles (<[sid := mkSettle (scrollY env) 0 false]> (settles x)) x)) st in
  let st := upd (set_settleStopper (Some sid)) st in
  snd (setTimeout (CbSettleCheck sid) SETTLE_CHECK_MS st).

(** One run of the [check] closure of call [sid]. *)
Definition check (env : Env) (sid : nat) (st : St) : St :=
  match settles (ext st) !! sid with
  | None => st
  | Some s =>
      if cancelled s then st
      else
        let y := scrollY env in
        let steps := if Z.abs (y - lastY s) <? 1 then stableSteps s + 1 else 0 in
        let st := upd (fun x => set_settles (<[sid := mkSettle y steps false]> (settles x)) x) st in
        if SETTLE_REQUIRED_STEPS <=? steps then
          let st := set_currentIndex (nearestSectionIndex env (sections st)) st in
          let st := unlockInput st in
          upd (set_settleStopper None) st
        else snd (setTimeout (CbSettleCheck sid) SETTLE_CHECK_MS st)
  end.

Definition scrollToIndex (env : Env) (idx : Z) (st : St) : option St :=
  match sections st with
  | [] => Some st
  | _ :: _ =>
      let st := set_currentIndex (nearestSectionIndex env (sections st)) st in
      let st := set_currentIndex (clamp idx 0 (Z.of_nat (length (sections st)) - 1)) st in
      let st := lockInput st in
      sec ← sections st !! Z.to_nat (currentIndex st);
      let st := emit (ScrollIntoView sec) st in
      Some (waitForSettle env st)
  end.

Definition next : Env -> St -> option St := next scrollToIndex.
Definition prev : Env -> St -> option St := prev scrollToIndex.
Definition onWheel : Env -> WheelEvent -> St -> option St := onWheel CbWheelReset scrollToIndex.
Definition onKeyDown : Env -> KeyEvent -> St -> option St := onKeyDown scrollToIndex.

Definition hardReInit (st : St) : St :=
  let st := detachListeners st in
  let st := clearAllTimers st in
  let st := set_locked false st in
  let st := set_wheelAccum 0 st in
  snd (requestAnimationFrame CbReInitFrame1 st).

Definition runCallback (env : Env) (cb : Callback) (st : St) : St :=
  match cb with
  | CbLockExpire => runLockExpire st
  | CbWheelReset => runWheelReset st
  | CbSettleCheck sid => check env sid st
  | CbHashSync => syncState env st
  | CbReInitFrame1 => snd (requestAnimationFrame CbReInitFrame2 st)
  | CbReInitFrame2 => attachListeners (syncState env st)
  end.

(** The observer callback: the first record of a class-attribute change
    triggers one re-initialisation. *)
Fixpoint onMutations (ms : list MutationRecord) (st : St) : St :=
  match ms with
  | [] => st
  | m :: rest =>
      if (String.eqb (mtype m) "attributes"
          && bool_decide (attributeName m = Some "class"%string))%bool
      then hardReInit st
      else onMutations rest st
  end.

(** The [DOMContentLoaded] handler. *)
Definition init (env : Env) (st : St) : St :=
  let st := syncState env st in
  let st := attachListeners st in
  let st := upd (set_hashListener true) st in
  let st := upd (set_resizeListener true) st in
  let st := upd (set_observer true) st in
  match themeSwitch (ext st) with
  | Some sw =>
      upd (set_themeSwitch (Some (mkCheckbox (checked sw) (onChange sw ++ [HardReInit])))) st
  | None => st
  end.

Definition initial (sw : option bool) : St :=
  mkState [] 0 false None 0 None false ∅ 1%nat []
    (mkExt None ∅ 0%nat ((fun c => mkCheckbox c []) <$> sw) false false false).

Inductive Event :=
| EvWheel (e : WheelEvent)
| EvKeyDown (e : KeyEvent)
| EvResize
| EvHashChange
| EvMutations (ms : list MutationRecord)  (* body attribute changes reported to the observer *)
| EvSwitchChange                          (* the user toggles #themeSwitch *)
| EvFire (id : nat).                      (* a pending timer or frame callback runs *)

Definition step (env : Env) (ev : Event) (st : St) : option St :=
  match ev with
  | EvWheel e => if listenersAttached st then onWheel env e st else Some st
  | EvKeyDown e => if listenersAttached st then onKeyDown env e st else Some st
  | EvResize => if resizeListener (ext st) then Some (syncState env st) else Some st
  | EvHashChange =>
      if hashListener (ext st) then Some (snd (setTimeout CbHashSync 350 st)) else Some st
  | EvMutations ms => if observer (ext st) then Some (onMutations ms st) else Some st
  | EvSwitchChange =>
      match themeSwitch (ext st) with
      | Some sw =>
          let st := upd (set_themeSwitch (Some (mkCheckbox (negb (checked sw)) (onChange sw)))) st in
          Some (foldl (fun s h => match h with HardReInit => hardReInit s end) st (onChange sw))
      | None => Some st
      end
  | EvFire id =>
      match tasks st !! id with
      | Some (_, cb) => Some (runCallback env cb (clearTimeout id st))
      | None => Some st
      end
  end.

Fixpoint run (tr : list (Env * Event)) (st : St) : option St :=
  match tr with
  | [] => Some st
  | (env, ev) :: rest => st' ← step env ev st; run rest st'
  end.

End Variant.

(** * Sample documents used to run the definitions *)

Module Demo.

(** Three sections, 600 pixels apart, the page scrolled so that the
    second one sits 10 pixels below the header offset. *)
Definition env3 : Env :=
  mkEnv [10%nat; 11%nat; 12%nat] (fun e => 600 * Z.of_nat e - 6510) 600 None None.

(** The same document with a text input focused. *)
Definition envTyping : Env :=
  mkEnv [10%nat; 11%nat; 12%nat] (fun e => 600 * Z.of_nat e - 6510) 600
    (Some (mkActive (Some "INPUT"%string) false true)) None.

(** The same document with the viewer overlay shown. *)
Definition envOverlay : Env :=
  mkEnv [10%nat; 11%nat; 12%nat] (fun e => 600 * Z.of_nat e - 6510) 600
    None (Some "flex"%string).

(** A document without sections. *)
Definition envEmpty : Env := mkEnv [] (fun _ => 0) 0 None None.

(** Both controllers after [DOMContentLoaded] on the three-section
    document, with empty local storage and a theme checkbox. *)
Definition script0 : Script.St := Script.init env3 (Script.initial ∅ ∅ (Some false) "").
Definition variant0 : Variant.St := Variant.init env3 (Variant.initial (Some false)).

(** [script0] after the ArrowDown key has been pressed once. *)
Definition pressed : Script.St :=
  default script0 (Script.run [(env3, Script.EvKeyDown (mkKey "ArrowDown" false))] script0).

End Demo.

(** * Properties *)

(** ** Running the model *)

Example isTyping_input : isTyping Demo.envTyping = true.
Proof. reflexivity. Qed.

Example isOverlayOpen_flex : isOverlayOpen Demo.envOverlay = true.
Proof. reflexivity. Qed.

Example isInsideScrollable_overflowing :
  isInsideScrollable (Some (Node (Some (900, 400)) false)) = true /\
  isInsideScrollable (Some (Node (Some (400, 400)) false)) = false /\
  isInsideScrollable (Some NotAnElement) = false.
Proof. repeat split. Qed.

Example nearest_of_three : nearestSectionIndex Demo.env3 [10%nat; 11%nat; 12%nat] = 1.
Proof. reflexivity. Qed.

(** Ties go to the earlier section: tops 70 and 90 are both 10 away. *)
Example nearest_tie :
  nearestSectionIndex (mkEnv [] (fun e => if (e =? 0)%nat then 70 else 90) 0 None None)
    [0%nat; 1%nat] = 0.
Proof. reflexivity. Qed.

Example init_syncs : sections Demo.script0 = [10%nat; 11%nat; 12%nat] /\
                     currentIndex Demo.script0 = 1 /\
                     listenersAttached Demo.script0 = true.
Proof. repeat split. Qed.

(** One wheel event of 100 pages down: the default is prevented and the
    window scrolled to the third section. *)
Example wheel_pages_down :
  (fun st => (currentIndex st, locked st, wheelAccum st, log st))
    <$> Script.onWheel Demo.env3 (mkWheel 100 None) Demo.script0
  = Some (2, true, 0, [PreventDefault; ScrollTo 1210 "smooth"]).
Proof. vm_compute. reflexivity. Qed.

(** Two small events stay under the threshold and leave the page alone. *)
Example wheel_accumulates :
  (fun st => (currentIndex st, locked st, wheelAccum st, log st))
    <$> handleAll Script.onWheel
          [(Demo.env3, mkWheel 25 None); (Demo.env3, mkWheel 30 None)] Demo.script0
  = Some (1, false, 55, []).
Proof. vm_compute. reflexivity. Qed.

(** End, then ArrowDown while still locked, then ArrowDown after the
    safety timer (id 2) has fired: the index stays at the last section. *)
Example end_then_down :
  (fun st => (currentIndex st, locked st, navigations (log st)))
    <$> Script.run
          [(Demo.env3, Script.EvKeyDown (mkKey "End" false));
           (Demo.env3, Script.EvKeyDown (mkKey "ArrowDown" false));
           (Demo.env3, Script.EvFire 2);
           (Demo.env3, Script.EvKeyDown (mkKey "ArrowDown" false))] Demo.script0
  = Some (2, true, [ScrollTo 1210 "smooth"; ScrollTo 1210 "smooth"]).
Proof. vm_compute. reflexivity. Qed.

(** The second variant: a key press locks, and four settle checks with
    the page at rest release the lock (timers 1 and 2 are the safety
    timer and the first check). *)
Example settle_unlocks :
  (fun st => (currentIndex st, locked st, lockTimer st, log st))
    <$> Variant.run
          [(Demo.env3, Variant.EvKeyDown (mkKey "PageUp" false));
           (Demo.env3, Variant.EvFire 2); (Demo.env3, Variant.EvFire 3);
           (Demo.env3, Variant.EvFire 4); (Demo.env3, Variant.EvFire 5)] Demo.variant0
  = Some (1, false, None, [PreventDefault; ScrollIntoView 10%nat]).
Proof. vm_compute. reflexivity. Qed.

(** [destroy] while locked cancels the safety timer and leaves the flag
    set, with the handlers detached. *)
Example destroy_while_locked :
  (fun st => (locked st, lockTimer st, listenersAttached st))
    <$> Script.run
          [(Demo.env3, Script.EvKeyDown (mkKey "ArrowDown" false));
           (Demo.env3, Script.EvDestroy)] Demo.script0
  = Some (true, None, false).
Proof. vm_compute. reflexivity. Qed.


(** ** [clamp] *)

Lemma clamp_range n lo hi : lo <= hi -> lo <= clamp n lo hi <= hi.
Proof. unfold clamp; lia. Qed.

Lemma clamp_inside n lo hi : lo <= n <= hi -> clamp n lo hi = n.
Proof. unfold clamp; lia. Qed.

Lemma clamp_above n lo hi : lo <= hi -> hi <= n -> clamp n lo hi = hi.
Proof. unfold clamp; lia. Qed.

Lemma clamp_below n lo hi : lo <= hi -> n <= lo -> clamp n lo hi = lo.
Proof. unfold clamp; lia. Qed.

(** ** [nearestSectionIndex] *)

(** [r] is the earliest index of [secs] whose section top is nearest the
    header offset. *)
Definition IsNearest (env : Env) (secs : list Elem) (r : Z) : Prop :=
  exists sec,
    0 <= r /\ secs !! Z.to_nat r = Some sec /\
    forall (j : nat) sj, secs !! j = Some sj ->
      distToHeader env sec <= distToHeader env sj /\
      ((j < Z.to_nat r)%nat -> distToHeader env sec < distToHeader env sj).

(** What the two captured variables of the loop mean after the sections
    in [pre] have been visited. *)
Definition BestSoFar (env : Env) (pre : list Elem) (bestIdx : Z) (bestDist : option Z) : Prop :=
  match bestDist with
  | None => pre = []
  | Some d => exists s, d = distToHeader env s /\ IsNearest env pre bestIdx /\
                        pre !! Z.to_nat bestIdx = Some s
  end.

Lemma nearestLoop_inv env rest : forall pre bestIdx bestDist,
  BestSoFar env pre bestIdx bestDist ->
  pre ++ rest <> [] ->
  IsNearest env (pre ++ rest)
    (nearestLoop env rest (Z.of_nat (length pre)) bestIdx bestDist).
Proof.
  induction rest as [|sec rest IH]; intros pre bestIdx bestDist Hbest Hne.
  - rewrite app_nil_r in *. simpl.
    destruct bestDist as [d|]; simpl in Hbest.
    + destruct Hbest as (s & _ & Hn & _). exact Hn.
    + contradiction.
  - simpl.
    assert (Hidx : Z.of_nat (length pre) + 1 = Z.of_nat (length (pre ++ [sec]))).
    { rewrite length_app. simpl. lia. }
    rewrite Hidx, (cons_middle sec pre rest), app_assoc.
    assert (Hne' : (pre ++ [sec]) ++ rest <> []).
    { destruct pre; discriminate. }
    destruct (lt_best (distToHeader env sec) bestDist) eqn:Hlt.
    + apply IH; [|exact Hne'].
      exists sec. split; [reflexivity|].
      assert (Hat : (pre ++ [sec]) !! Z.to_nat (Z.of_nat (length pre)) = Some sec).
      { rewrite Nat2Z.id, lookup_app_r by lia. by rewrite Nat.sub_diag. }
      split; [|exact Hat].
      exists sec. split; [lia|]. split; [exact Hat|].
      intros j sj Hj. rewrite Nat2Z.id.
      destruct (decide (j < length pre)%nat) as [Hjlt|Hjge].
      * rewrite lookup_app_l in Hj by done.
        destruct bestDist as [d|]; simpl in Hbest, Hlt.
        -- destruct Hbest as (s & -> & (s' & _ & Hs' & Hmin) & Hs).
           rewrite Hs in Hs'. injection Hs' as <-.
           destruct (Hmin j sj Hj) as [Hle _]. lia.
        -- subst pre. simpl in Hjlt. lia.
      * rewrite lookup_app_r in Hj by lia.
        destruct (j - length pre)%nat eqn:Hd; simpl in Hj; [|discriminate].
        injection Hj as <-. split; [lia|lia].
    + destruct bestDist as [d|]; simpl in Hlt; [|discriminate].
      apply IH; [|exact Hne'].
      destruct Hbest as (s & -> & (s' & Hpos & Hs' & Hmin) & Hs).
      rewrite Hs in Hs'. injection Hs' as <-.
      pose proof (lookup_lt_Some _ _ _ Hs) as Hlen.
      assert (Hat : (pre ++ [sec]) !! Z.to_nat bestIdx = Some s).
      { by rewrite lookup_app_l. }
      exists s. split; [reflexivity|]. split; [|exact Hat].
      exists s. split; [exact Hpos|]. split; [exact Hat|].
      intros j sj Hj.
      destruct (decide (j < length pre)%nat) as [Hjlt|Hjge].
      * rewrite lookup_app_l in Hj by done. exact (Hmin j sj Hj).
      * rewrite lookup_app_r in Hj by lia.
        destruct (j - length pre)%nat eqn:Hd; simpl in Hj; [|discriminate].
        injection Hj as <-. split; [lia|lia].
Qed.

Lemma nearestSectionIndex_nearest env secs :
  secs <> [] -> IsNearest env secs (nearestSectionIndex env secs).
Proof.
  intros Hne. unfold nearestSectionIndex.
  apply (nearestLoop_inv env secs [] 0 None); [reflexivity|exact Hne].
Qed.

Lemma IsNearest_range env secs r :
  IsNearest env secs r -> 0 <= r <= Z.of_nat (length secs) - 1.
Proof.
  intros (sec & Hpos & Hsec & _).
  pose proof (lookup_lt_Some _ _ _ Hsec). lia.
Qed.

Lemma nearestSectionIndex_range env secs :
  secs <> [] -> 0 <= nearestSectionIndex env secs <= Z.of_nat (length secs) - 1.
Proof. intros H. eapply IsNearest_range, nearestSectionIndex_nearest, H. Qed.

(** Two indices that are both the earliest nearest one are equal. *)
Lemma IsNearest_unique env secs r1 r2 :
  IsNearest env secs r1 -> IsNearest env secs r2 -> r1 = r2.
Proof.
  intros (s1 & Hp1 & Hs1 & Hm1) (s2 & Hp2 & Hs2 & Hm2).
  destruct (Hm1 _ _ Hs2) as [Hle1 Hlt1]. destruct (Hm2 _ _ Hs1) as [Hle2 Hlt2].
  destruct (decide (Z.to_nat r1 < Z.to_nat r2)%nat); [specialize (Hlt2 ltac:(done)); lia|].
  destruct (decide (Z.to_nat r2 < Z.to_nat r1)%nat); [specialize (Hlt1 ltac:(done)); lia|].
  lia.
Qed.

(** C8. For a non-empty section list, [nearestSectionIndex] returns a
    valid index whose section minimises |top - 80| over all sections, and
    the earliest such index on ties; in both variants [syncState] stores
    the sections of the document and sets the current index to exactly
    that value. *)
Theorem nearestSectionIndex_spec (env : Env) (secs : list Elem) :
  secs <> [] ->
  (exists sec,
     0 <= nearestSectionIndex env secs <= Z.of_nat (length secs) - 1 /\
     secs !! Z.to_nat (nearestSectionIndex env secs) = Some sec /\
     forall (j : nat) sj, secs !! j = Some sj ->
       Z.abs (rectTop env sec - 80) <= Z.abs (rectTop env sj - 80) /\
       ((j < Z.to_nat (nearestSectionIndex env secs))%nat ->
        Z.abs (rectTop env sec - 80) < Z.abs (rectTop env sj - 80))) /\
  (getSections env = secs ->
   (forall st : Script.St,
      sections (syncState env st) = secs /\
      currentIndex (syncState env st) = nearestSectionIndex env secs) /\
   (forall st : Variant.St,
      sections (syncState env st) = secs /\
      currentIndex (syncState env st) = nearestSectionIndex env secs)).
Proof.
  intros Hne. split.
  - pose proof (nearestSectionIndex_range env secs Hne) as Hr.
    destruct (nearestSectionIndex_nearest env secs Hne) as (sec & _ & Hsec & Hmin).
    exists sec. split; [exact Hr|]. split; [exact Hsec|]. exact Hmin.
  - intros Hget.
    assert (Hsync : forall C X (st : State C X),
               sections (syncState env st) = secs /\
               currentIndex (syncState env st) = nearestSectionIndex env secs).
    { intros C X st. unfold syncState. cbn. rewrite Hget.
      destruct secs; [contradiction|]. split; reflexivity. }
    split; intros st; apply Hsync.
Qed.

Lemma nearestSectionIndex_spec_witness :
  nearestSectionIndex Demo.env3 [10%nat; 11%nat; 12%nat] = 1 /\
  currentIndex (syncState Demo.env3 (Script.initial ∅ ∅ None "")) = 1.
Proof.
  destruct (nearestSectionIndex_spec Demo.env3 [10%nat; 11%nat; 12%nat]) as [_ Hsync];
    [discriminate|].
  destruct (Hsync eq_refl) as [Hs _].
  destruct (Hs (Script.initial ∅ ∅ None "")) as [_ Hcur].
  split; [reflexivity|exact Hcur].
Defined.

(** ** Theme *)

Ltac destruct_script st :=
  destruct st as [?secs ?cur ?lk ?lt ?wa ?wt ?la ?tk ?nid ?lg [?tst ?stor ?cls ?sw ?sb ?rl ?hl]].

Lemma light_toggled (force : bool) (cls : gset string) :
  "light"%string ∈ classToggle "light" force cls <-> force = true.
Proof.
  unfold classToggle. destruct force.
  - split; [done|]. intros _. apply elem_of_union. right. by apply elem_of_singleton.
  - split; [|done]. intros H. apply elem_of_difference in H as [_ H].
    exfalso. apply H. by apply elem_of_singleton.
Qed.

Lemma other_class_kept (c : string) (force : bool) (cls : gset string) :
  c <> "light"%string -> c ∈ classToggle "light" force cls <-> c ∈ cls.
Proof.
  intros Hc. unfold classToggle. destruct force.
  - rewrite elem_of_union, elem_of_singleton. split; [intros [H|H]; [done|contradiction]|by left].
  - rewrite elem_of_difference, elem_of_singleton. split; [by intros [H _]|by split].
Qed.

Lemma applyTheme_ext mode (st : Script.St) :
  Script.storage (ext (Script.applyTheme mode st))
    = <[Script.THEME_KEY := mode]> (Script.storage (ext st)) /\
  Script.bodyClasses (ext (Script.applyTheme mode st))
    = classToggle "light" (String.eqb mode "light") (Script.bodyClasses (ext st)) /\
  Script.themeSwitch (ext (Script.applyTheme mode st))
    = (fun sw => mkCheckbox (String.eqb mode "light") (onChange sw))
        <$> Script.themeSwitch (ext st) /\
  Script.themeStabilizeTimer (ext (Script.applyTheme mode st)) = Some (nextId st) /\
  tasks (Script.applyTheme mode st) !! nextId st = Some (Timeout 50, Script.CbStabilize).
Proof.
  destruct_script st.
  unfold Script.applyTheme, Script.stabilizeAfterThemeSwitch, Script.upd.
  destruct sw, tst; cbn; repeat split; try reflexivity; apply lookup_insert_eq.
Qed.

(** [initTheme] is [applyTheme] followed by the registration of the
    listener, which touches only the handler list of the checkbox. *)
Lemma initTheme_ext (st : Script.St) :
  let mode := if bool_decide (Script.storage (ext st) !! Script.THEME_KEY = Some "light"%string)
              then "light"%string else "dark"%string in
  Script.storage (ext (Script.initTheme st)) = Script.storage (ext (Script.applyTheme mode st)) /\
  Script.bodyClasses (ext (Script.initTheme st))
    = Script.bodyClasses (ext (Script.applyTheme mode st)) /\
  Script.themeSwitch (ext (Script.initTheme st))
    = (fun sw => mkCheckbox (checked sw) (onChange sw ++ [Script.ApplyFromSwitch]))
        <$> Script.themeSwitch (ext (Script.applyTheme mode st)).
Proof.
  intros mode. unfold Script.initTheme. fold mode.
  destruct (Script.themeSwitch (ext (Script.applyTheme mode st))) eqn:Hsw; cbn; rewrite ?Hsw; done.
Qed.

(** C3. Whatever local storage holds under [themeMode] (nothing
    included), [initTheme] applies light mode exactly when the stored
    string is "light", and dark mode otherwise: the body carries the
    class [light], the key is rewritten and the checkbox, if present, is
    set accordingly. *)
Theorem initTheme_mode (st : Script.St) :
  let saved := Script.storage (ext st) !! "themeMode"%string in
  let st' := Script.initTheme st in
  ("light"%string ∈ Script.bodyClasses (ext st') <-> saved = Some "light"%string) /\
  (saved = Some "light"%string ->
     Script.storage (ext st') !! "themeMode"%string = Some "light"%string) /\
  (saved <> Some "light"%string ->
     Script.storage (ext st') !! "themeMode"%string = Some "dark"%string) /\
  (forall sw', Script.themeSwitch (ext st') = Some sw' ->
     checked sw' = bool_decide (saved = Some "light"%string)).
Proof.
  intros saved st'. subst st'.
  destruct (initTheme_ext st) as (Hstor & Hcls & Hsw).
  fold saved in Hstor, Hcls, Hsw. change Script.THEME_KEY with "themeMode"%string in *.
  fold saved in Hstor, Hcls, Hsw.
  set (mode := if bool_decide (saved = Some "light"%string)
               then "light"%string else "dark"%string) in *.
  destruct (applyTheme_ext mode st) as (Hstor' & Hcls' & Hsw' & _).
  rewrite Hstor, Hcls, Hstor', Hcls'. rewrite Hsw' in Hsw.
  assert (Hmode : String.eqb mode "light" = bool_decide (saved = Some "light"%string)).
  { subst mode. case_bool_decide; reflexivity. }
  repeat split.
  - rewrite light_toggled, Hmode. intros H. by apply bool_decide_eq_true in H.
  - rewrite light_toggled, Hmode. intros H. by apply bool_decide_eq_true.
  - intros H. change Script.THEME_KEY with "themeMode"%string.
    rewrite lookup_insert_eq. subst mode. by rewrite bool_decide_eq_true_2.
  - intros H. change Script.THEME_KEY with "themeMode"%string.
    rewrite lookup_insert_eq. subst mode. by rewrite bool_decide_eq_false_2.
  - intros sw' Hsw0. rewrite Hsw0 in Hsw.
    destruct (Script.themeSwitch (ext st)) as [sw|]; cbn in Hsw; [|discriminate].
    injection Hsw as ->. cbn. exact Hmode.
Qed.

Lemma initTheme_mode_witness :
  Script.storage (ext (Script.initTheme
      (Script.initial {[ "themeMode"%string := "sepia"%string ]} {[ "light"%string ]} (Some true) "")))
    !! "themeMode"%string = Some "dark"%string.
Proof.
  apply (initTheme_mode
           (Script.initial {[ "themeMode"%string := "sepia"%string ]} {[ "light"%string ]} (Some true) "")).
  vm_compute. discriminate.
Defined.

(** C4. [applyTheme] writes the mode under the key [themeMode], makes the
    body class [light] present exactly when the mode is "light" (other
    classes are kept), and sets the checkbox, when there is one, to that
    same truth value. Hence when the user toggles the checkbox on which
    [initTheme] registered its listener, the new value is persisted and
    the checkbox shows it. *)
Theorem applyTheme_persists (mode : string) (st : Script.St) :
  (let st' := Script.applyTheme mode st in
   Script.storage (ext st') !! "themeMode"%string = Some mode /\
   ("light"%string ∈ Script.bodyClasses (ext st') <-> mode = "light"%string) /\
   (forall c, c <> "light"%string ->
      c ∈ Script.bodyClasses (ext st') <-> c ∈ Script.bodyClasses (ext st)) /\
   (forall sw, Script.themeSwitch (ext st) = Some sw ->
      Script.themeSwitch (ext st')
        = Some (mkCheckbox (bool_decide (mode = "light"%string)) (onChange sw)))) /\
  (forall env sw,
     Script.themeSwitch (ext st) = Some sw ->
     onChange sw = [Script.ApplyFromSwitch] ->
     exists st',
       Script.step env Script.EvSwitchChange st = Some st' /\
       Script.themeSwitch (ext st') = Some (mkCheckbox (negb (checked sw)) (onChange sw)) /\
       Script.storage (ext st') !! "themeMode"%string
         = Some (if negb (checked sw) then "light"%string else "dark"%string) /\
       ("light"%string ∈ Script.bodyClasses (ext st') <-> checked sw = false)).
Proof.
  assert (Heqb : forall m, String.eqb m "light" = bool_decide (m = "light"%string)).
  { intros m. case_bool_decide as Hm.
    - by apply String.eqb_eq.
    - by apply String.eqb_neq. }
  split.
  - intros st'. subst st'.
    destruct (applyTheme_ext mode st) as (Hstor & Hcls & Hsw & _).
    rewrite Hstor, Hcls, Hsw. change Script.THEME_KEY with "themeMode"%string.
    split; [apply lookup_insert_eq|]. split; [|split].
    + rewrite light_toggled. apply String.eqb_eq.
    + intros c Hc. by apply other_class_kept.
    + intros sw ->. cbn. by rewrite Heqb.
  - intros env [c l] Hsw Hch. cbn in Hch. subst l.
    unfold Script.step. rewrite Hsw. cbn [foldl onChange checked].
    match goal with |- context [Script.runChangeHandler _ ?s] => set (st1 := s) end.
    assert (Hsw1 : Script.themeSwitch (ext st1)
                   = Some (mkCheckbox (negb c) [Script.ApplyFromSwitch])).
    { reflexivity. }
    unfold Script.runChangeHandler. rewrite Hsw1. cbn [checked].
    eexists. split; [reflexivity|].
    destruct (applyTheme_ext (if negb c then "light"%string else "dark"%string) st1)
      as (Hstor & Hcls & Hsw' & _).
    rewrite Hstor, Hcls, Hsw', Hsw1. change Script.THEME_KEY with "themeMode"%string.
    split; [|split].
    + cbn. f_equal. f_equal. by destruct c.
    + apply lookup_insert_eq.
    + rewrite light_toggled. by destruct c.
Qed.

Lemma applyTheme_persists_witness :
  exists st',
    Script.step Demo.env3 Script.EvSwitchChange
      (Script.initTheme (Script.initial ∅ ∅ (Some false) "")) = Some st' /\
    Script.themeSwitch (ext st') = Some (mkCheckbox true [Script.ApplyFromSwitch]) /\
    Script.storage (ext st') !! "themeMode"%string = Some "light"%string /\
    ("light"%string ∈ Script.bodyClasses (ext st') <-> false = false).
Proof.
  destruct (applyTheme_persists "dark" (Script.initTheme (Script.initial ∅ ∅ (Some false) "")))
    as [_ Htoggle].
  apply (Htoggle Demo.env3 (mkCheckbox false [Script.ApplyFromSwitch])); reflexivity.
Defined.

(** C9. Without a [#themeSwitch] element, [applyTheme] does everything
    but the mirroring into the checkbox: the body class is toggled, the
    mode is stored, and the stabilisation timer is armed; [initTheme]
    then returns without registering a listener, and so does the
    [DOMContentLoaded] handler of the other variant. All three are total
    functions of the state: no lookup of the missing element can fail. *)
Theorem missing_themeSwitch :
  (forall mode (st : Script.St),
     Script.themeSwitch (ext st) = None ->
     let st' := Script.applyTheme mode st in
     Script.themeSwitch (ext st') = None /\
     ("light"%string ∈ Script.bodyClasses (ext st') <-> mode = "light"%string) /\
     Script.storage (ext st') !! "themeMode"%string = Some mode /\
     Script.themeStabilizeTimer (ext st') = Some (nextId st) /\
     tasks st' !! nextId st = Some (Timeout 50, Script.CbStabilize)) /\
  (forall st : Script.St,
     Script.themeSwitch (ext st) = None ->
     Script.themeSwitch (ext (Script.initTheme st)) = None /\
     Script.initTheme st
       = Script.applyTheme
           (if bool_decide (Script.storage (ext st) !! "themeMode"%string = Some "light"%string)
            then "light" else "dark") st) /\
  (forall env (st : Variant.St),
     Variant.themeSwitch (ext st) = None ->
     Variant.themeSwitch (ext (Variant.init env st)) = None /\
     sections (Variant.init env st) = getSections env /\
     listenersAttached (Variant.init env st) = true).
Proof.
  split; [|split].
  - intros mode st Hsw st'. subst st'.
    destruct (applyTheme_ext mode st) as (Hstor & Hcls & Hsw' & Htimer & Htask).
    rewrite Hstor, Hcls, Hsw', Hsw, Htimer, Htask.
    change Script.THEME_KEY with "themeMode"%string.
    repeat split; try reflexivity.
    + rewrite light_toggled. apply String.eqb_eq.
    + rewrite light_toggled. apply String.eqb_eq.
    + apply lookup_insert_eq.
  - intros st Hsw. unfold Script.initTheme.
    change Script.THEME_KEY with "themeMode"%string.
    set (mode := if bool_decide _ then _ else _).
    destruct (applyTheme_ext mode st) as (_ & _ & Hsw' & _).
    assert (Hn : Script.themeSwitch (ext (Script.applyTheme mode st)) = None).
    { rewrite Hsw', Hsw. reflexivity. }
    rewrite Hn. split; [exact Hn|reflexivity].
  - intros env st Hsw. unfold Variant.init, Variant.upd, attachListeners, syncState.
    destruct st as [secs cur lk lt wa wt la tk nid lg [ss sm ns sw ob rl hl]].
    cbn in Hsw. subst sw. cbn.
    destruct (getSections env), la; cbn; done.
Qed.

Lemma missing_themeSwitch_witness :
  Script.themeSwitch (ext (Script.init Demo.env3 (Script.initial ∅ ∅ None ""))) = None /\
  Variant.themeSwitch (ext (Variant.init Demo.env3 (Variant.initial None))) = None.
Proof.
  destruct missing_themeSwitch as (_ & Hinit & Hvar). split.
  - apply (Hinit (Script.initScroll Demo.env3 (Script.initial ∅ ∅ None ""))). reflexivity.
  - apply (Hvar Demo.env3 (Variant.initial None)). reflexivity.
Defined.

(** ** The input handlers *)

Section HandlerFacts.
Context {C X : Type}.
Variable cbWheelReset : C.
Variable jump : Env -> Z -> State C X -> option (State C X).
Implicit Type st : State C X.

Lemma onWheel_guarded env e st :
  isOverlayOpen env = true \/ isTyping env = true ->
  onWheel cbWheelReset jump env e st = Some st.
Proof.
  intros [H|H]; unfold onWheel; rewrite H; [reflexivity|].
  by destruct (isOverlayOpen env).
Qed.

Lemma onKeyDown_guarded env e st :
  isOverlayOpen env = true \/ isTyping env = true ->
  onKeyDown jump env e st = Some st.
Proof.
  intros [H|H]; unfold onKeyDown; rewrite H; [reflexivity|].
  by destruct (isOverlayOpen env).
Qed.

Lemma onKeyDown_repeat env e st :
  repeat e = true ->
  onKeyDown jump env e st
    = Some (if (negb (isOverlayOpen env) && negb (isTyping env)
                && includes (key e) navKeys)%bool
            then emit PreventDefault st else st).
Proof.
  intros Hrep. unfold onKeyDown. rewrite Hrep.
  destruct (isOverlayOpen env), (isTyping env), (includes (key e) navKeys); cbn; try reflexivity.
  by destruct (locked st).
Qed.

Lemma onKeyDown_locked env e st :
  locked st = true ->
  onKeyDown jump env e st
    = Some (if (negb (isOverlayOpen env) && negb (isTyping env)
                && includes (key e) navKeys)%bool
            then emit PreventDefault st else st).
Proof.
  intros Hl. unfold onKeyDown.
  destruct (isOverlayOpen env), (isTyping env), (includes (key e) navKeys); cbn; try reflexivity.
  by rewrite Hl.
Qed.

(** The first half of [onWheel] once an event is accepted: the delta is
    added and the reset timer re-armed. *)
Definition accumulate (d : Z) (st : State C X) : State C X :=
  let st := set_wheelAccum (wheelAccum st + d) st in
  let st := clearIfSet (wheelResetTimer st) st in
  let '(id, st) := setTimeout cbWheelReset WHEEL_RESET_MS st in
  set_wheelResetTimer (Some id) st.

Record Accumulated (st : State C X) (d : Z) (st1 : State C X) : Prop := {
  acc_wheelAccum : wheelAccum st1 = wheelAccum st + d;
  acc_log : log st1 = log st;
  acc_sections : sections st1 = sections st;
  acc_currentIndex : currentIndex st1 = currentIndex st;
  acc_locked : locked st1 = locked st;
  acc_lockTimer : lockTimer st1 = lockTimer st;
  acc_listeners : listenersAttached st1 = listenersAttached st;
  acc_ext : ext st1 = ext st;
  acc_timer : wheelResetTimer st1 = Some (nextId st);
  acc_task : tasks st1 !! nextId st = Some (Timeout WHEEL_RESET_MS, cbWheelReset)
}.

Lemma accumulate_Accumulated d st : Accumulated st d (accumulate d st).
Proof.
  destruct st as [secs cur lk lt wa wt la tk nid lg x].
  unfold accumulate. destruct wt; split; cbn; try reflexivity; apply lookup_insert_eq.
Qed.

Lemma onWheel_accepted env e st :
  isOverlayOpen env = false -> isTyping env = false ->
  isInsideScrollable (target e) = false -> locked st = false ->
  onWheel cbWheelReset jump env e st =
    if Z.abs (wheelAccum st + deltaY e) <? WHEEL_ACCUM_THRESHOLD
    then Some (accumulate (deltaY e) st)
    else if 0 <? wheelAccum st + deltaY e
         then next jump env (set_wheelAccum 0 (emit PreventDefault (accumulate (deltaY e) st)))
         else prev jump env (set_wheelAccum 0 (emit PreventDefault (accumulate (deltaY e) st))).
Proof.
  intros Ho Ht Hs Hl. unfold onWheel. rewrite Ho, Ht, Hs, Hl.
  destruct st as [secs cur lk lt wa wt la tk nid lg x]. cbn in *.
  destruct wt as [w|]; cbn.
  all: destruct (Z.abs (wa + deltaY e) <? WHEEL_ACCUM_THRESHOLD); [reflexivity|].
  all: destruct (0 <? wa + deltaY e); reflexivity.
Qed.

Lemma onWheel_locked env e st :
  isOverlayOpen env = false -> isTyping env = false ->
  isInsideScrollable (target e) = false -> locked st = true ->
  onWheel cbWheelReset jump env e st = Some (emit PreventDefault st).
Proof. intros Ho Ht Hs Hl. unfold onWheel. by rewrite Ho, Ht, Hs, Hl. Qed.

(** Every path through the handlers ends in one of a few shapes, which is
    all the invariants below need to know about them. *)
Lemma onWheel_cases env e st :
  onWheel cbWheelReset jump env e st = Some st \/
  onWheel cbWheelReset jump env e st = Some (emit PreventDefault st) \/
  (locked st = false /\
   (onWheel cbWheelReset jump env e st = Some (accumulate (deltaY e) st) \/
    exists idx,
      onWheel cbWheelReset jump env e st
        = jump env idx (set_wheelAccum 0 (emit PreventDefault (accumulate (deltaY e) st))))).
Proof.
  destruct (isOverlayOpen env) eqn:Ho; [left; apply onWheel_guarded; by left|].
  destruct (isTyping env) eqn:Ht; [left; apply onWheel_guarded; by right|].
  destruct (isInsideScrollable (target e)) eqn:Hs.
  { left. unfold onWheel. by rewrite Ho, Ht, Hs. }
  destruct (locked st) eqn:Hl; [right; left; by apply onWheel_locked|].
  right; right. split; [reflexivity|]. rewrite onWheel_accepted by done.
  destruct (Z.abs _ <? _); [by left|right].
  destruct (0 <? _); eexists; reflexivity.
Qed.

Lemma onKeyDown_cases env e st :
  onKeyDown jump env e st = Some st \/
  onKeyDown jump env e st = Some (emit PreventDefault st) \/
  (locked st = false /\ repeat e = false /\
   exists idx, onKeyDown jump env e st = jump env idx (emit PreventDefault st)).
Proof.
  unfold onKeyDown.
  destruct (isOverlayOpen env); [by left|].
  destruct (isTyping env); [by left|].
  destruct (includes (key e) navKeys); [|by left]. cbn [negb locked emit set_log].
  destruct (locked st) eqn:Hl; [right; by left|].
  destruct (repeat e); [right; by left|].
  destruct (includes (key e) nextKeys); [right; right; repeat split; eexists; reflexivity|].
  destruct (includes (key e) prevKeys); [right; right; repeat split; eexists; reflexivity|].
  destruct (String.eqb (key e) "Home"); [right; right; repeat split; eexists; reflexivity|].
  destruct (String.eqb (key e) "End"); [right; right; repeat split; eexists; reflexivity|].
  right; by left.
Qed.

End HandlerFacts.

(** ** Jumping to a section *)

Lemma clamped_lookup (secs : list Elem) (idx : Z) :
  secs <> [] ->
  is_Some (secs !! Z.to_nat (clamp idx 0 (Z.of_nat (length secs) - 1))).
Proof.
  intros Hne. apply lookup_lt_is_Some.
  assert (0 < length secs)%nat by (destruct secs; [contradiction|simpl; lia]).
  pose proof (clamp_range idx 0 (Z.of_nat (length secs) - 1)). lia.
Qed.

Lemma jumpToIndex_empty env idx behavior (st : Script.St) :
  sections st = [] -> Script.jumpToIndex env idx behavior st = Some st.
Proof. intros H. unfold Script.jumpToIndex. by rewrite H. Qed.

Lemma scrollToIndex_empty env idx (st : Variant.St) :
  sections st = [] -> Variant.scrollToIndex env idx st = Some st.
Proof. intros H. unfold Variant.scrollToIndex. by rewrite H. Qed.

(** What [jumpToIndex] leaves behind on a non-empty section list. *)
Record Jumped (env : Env) (idx : Z) (behavior : string) (st st' : Script.St) : Prop := {
  jumped_index : currentIndex st' = clamp idx 0 (Z.of_nat (length (sections st)) - 1);
  jumped_sections : sections st' = sections st;
  jumped_locked : locked st' = true;
  jumped_lockTimer : lockTimer st' = Some (nextId st);
  jumped_lockTask : tasks st' !! nextId st = Some (Timeout Script.MAX_LOCK_MS, Script.CbLockExpire);
  jumped_done : tasks st' !! S (nextId st)
                = Some (Timeout (if String.eqb behavior "smooth" then 380 else 140),
                        Script.CbJumpDone);
  jumped_nextId : nextId st' = S (S (nextId st));
  jumped_log : exists sec,
      sections st !! Z.to_nat (currentIndex st') = Some sec /\
      log st' = log st ++ [ScrollTo (scrollY env + rectTop env sec - HEADER_OFFSET) behavior];
  jumped_wheelAccum : wheelAccum st' = wheelAccum st;
  jumped_wheelResetTimer : wheelResetTimer st' = wheelResetTimer st;
  jumped_listeners : listenersAttached st' = listenersAttached st;
  jumped_ext : ext st' = ext st
}.

Lemma jumpToIndex_nonempty env idx behavior (st : Script.St) :
  sections st <> [] ->
  exists st', Script.jumpToIndex env idx behavior st = Some st' /\ Jumped env idx behavior st st'.
Proof.
  intros Hne. destruct (clamped_lookup (sections st) idx Hne) as [sec Hsec].
  destruct st as [secs cur lk lt wa wt la tk nid lg x]. cbn in *.
  unfold Script.jumpToIndex. cbn.
  destruct secs as [|s l]; [contradiction|]. cbn [sections currentIndex set_currentIndex].
  rewrite Hsec. cbn [mbind option_bind].
  eexists. split; [reflexivity|].
  destruct lt; split; cbn; try reflexivity.
  all: try (rewrite lookup_insert_ne by lia; apply lookup_insert_eq).
  all: try apply lookup_insert_eq.
  all: exists sec; split; [exact Hsec|reflexivity].
Qed.

(** What [scrollToIndex] leaves behind on a non-empty section list. *)
Record Scrolled (env : Env) (idx : Z) (st st' : Variant.St) : Prop := {
  scrolled_index : currentIndex st' = clamp idx 0 (Z.of_nat (length (sections st)) - 1);
  scrolled_sections : sections st' = sections st;
  scrolled_locked : locked st' = true;
  scrolled_lockTimer : lockTimer st' = Some (nextId st);
  scrolled_lockTask : tasks st' !! nextId st
                      = Some (Timeout Variant.MAX_LOCK_MS, Variant.CbLockExpire);
  scrolled_check : tasks st' !! S (nextId st)
                   = Some (Timeout Variant.SETTLE_CHECK_MS,
                           Variant.CbSettleCheck (Variant.nextSettle (ext st)));
  scrolled_nextId : nextId st' = S (S (nextId st));
  scrolled_log : exists sec,
      sections st !! Z.to_nat (currentIndex st') = Some sec /\
      log st' = log st ++ [ScrollIntoView sec];
  scrolled_wheelAccum : wheelAccum st' = wheelAccum st;
  scrolled_wheelResetTimer : wheelResetTimer st' = wheelResetTimer st;
  scrolled_listeners : listenersAttached st' = listenersAttached st;
  scrolled_stopper : Variant.settleStopper (ext st') = Some (Variant.nextSettle (ext st))
}.

Lemma scrollToIndex_nonempty env idx (st : Variant.St) :
  sections st <> [] ->
  exists st', Variant.scrollToIndex env idx st = Some st' /\ Scrolled env idx st st'.
Proof.
  intros Hne. destruct (clamped_lookup (sections st) idx Hne) as [sec Hsec].
  destruct st as [secs cur lk lt wa wt la tk nid lg [ss sm ns sw ob rl hl]]. cbn in *.
  unfold Variant.scrollToIndex. cbn.
  destruct secs as [|s l]; [contradiction|].
  destruct lt; cbn in *; rewrite Hsec; cbn [mbind option_bind].
  all: eexists; split; [reflexivity|].
  all: split; cbn; try reflexivity.
  all: try (rewrite lookup_insert_ne by lia; apply lookup_insert_eq).
  all: try apply lookup_insert_eq.
  all: exists sec; split; [exact Hsec|reflexivity].
Qed.

(** ** The empty document, suspended handlers, repeated keys *)

(** C10. With an empty section array every navigation operation of both
    variants returns the state unchanged: nothing is scrolled, the lock
    is not taken, no timer is armed and the current index is kept. When
    the document has no sections, [syncState] only stores the empty list:
    the index, the lock, the timers and the log are untouched, and the
    whole state is unchanged if the array was already empty. *)
Theorem empty_sections_noop (env : Env) :
  (forall idx behavior (st : Script.St), sections st = [] ->
     Script.jumpToIndex env idx behavior st = Some st /\
     Script.next env st = Some st /\ Script.prev env st = Some st) /\
  (forall idx (st : Variant.St), sections st = [] ->
     Variant.scrollToIndex env idx st = Some st /\
     Variant.next env st = Some st /\ Variant.prev env st = Some st) /\
  (getSections env = [] ->
   (forall st : Script.St,
      syncState env st = set_sections [] st /\
      currentIndex (syncState env st) = currentIndex st /\
      locked (syncState env st) = locked st /\
      log (syncState env st) = log st /\
      tasks (syncState env st) = tasks st /\
      (sections st = [] -> syncState env st = st)) /\
   (forall st : Variant.St,
      syncState env st = set_sections [] st /\
      currentIndex (syncState env st) = currentIndex st /\
      locked (syncState env st) = locked st /\
      log (syncState env st) = log st /\
      tasks (syncState env st) = tasks st /\
      (sections st = [] -> syncState env st = st))).
Proof.
  split; [|split].
  - intros idx behavior st H. split; [by apply jumpToIndex_empty|].
    unfold Script.next, Script.prev, next, prev, Script.jump.
    split; apply jumpToIndex_empty, H.
  - intros idx st H. split; [by apply scrollToIndex_empty|].
    unfold Variant.next, Variant.prev, next, prev.
    split; apply scrollToIndex_empty, H.
  - intros Hget.
    assert (Hsync : forall C X (st : State C X),
      syncState env st = set_sections [] st /\
      currentIndex (syncState env st) = currentIndex st /\
      locked (syncState env st) = locked st /\
      log (syncState env st) = log st /\
      tasks (syncState env st) = tasks st /\
      (sections st = [] -> syncState env st = st)).
    { intros C X st. unfold syncState. cbn [sections set_sections]. rewrite Hget.
      split; [reflexivity|]. do 4 (split; [reflexivity|]).
      intros H. destruct st; cbn in *. by subst. }
    split; intros st; apply Hsync.
Qed.

Lemma empty_sections_noop_witness :
  Script.next Demo.envEmpty (Script.initial ∅ ∅ None "")
    = Some (Script.initial ∅ ∅ None "") /\
  syncState Demo.envEmpty (Variant.initial None) = Variant.initial None.
Proof.
  destruct (empty_sections_noop Demo.envEmpty) as (Hs & _ & Hsync). split.
  - apply (Hs 0 "smooth"%string). reflexivity.
  - destruct (Hsync eq_refl) as [_ Hv].
    apply (Hv (Variant.initial None)). reflexivity.
Defined.

(** The two situations of C7, in the words of the specification. *)
Definition TypingFocused (env : Env) : Prop :=
  exists el, activeElement env = Some el /\
    (toLowerCase (default EmptyString (tagName el)) = "input"%string \/
     toLowerCase (default EmptyString (tagName el)) = "textarea"%string \/
     isContentEditable el = true).

Definition OverlayShown (env : Env) : Prop :=
  viewerDisplay env = Some "flex"%string.

Lemma TypingFocused_isTyping env : TypingFocused env -> isTyping env = true.
Proof.
  intros (el & Hel & H). unfold isTyping. rewrite Hel.
  destruct H as [->| [->| ->]]; cbn; [reflexivity|reflexivity|].
  by rewrite orb_true_r.
Qed.

Lemma OverlayShown_isOverlayOpen env : OverlayShown env -> isOverlayOpen env = true.
Proof. unfold OverlayShown, isOverlayOpen. by intros ->. Qed.

(** C7. While an input, a textarea or a content-editable element has the
    focus, or while [#viewer] has the inline display "flex", the wheel
    and keydown handlers of both variants return the state as it was:
    no navigation, no change of any variable or timer, and nothing added
    to the log, so the default action is not prevented. *)
Theorem handlers_suspended (env : Env) :
  TypingFocused env \/ OverlayShown env ->
  (forall e (st : Script.St), Script.onWheel env e st = Some st) /\
  (forall e (st : Script.St), Script.onKeyDown env e st = Some st) /\
  (forall e (st : Variant.St), Variant.onWheel env e st = Some st) /\
  (forall e (st : Variant.St), Variant.onKeyDown env e st = Some st).
Proof.
  intros H.
  assert (Hg : isOverlayOpen env = true \/ isTyping env = true).
  { destruct H as [H|H]; [right; by apply TypingFocused_isTyping
                         |left; by apply OverlayShown_isOverlayOpen]. }
  repeat split; intros e st.
  - by apply onWheel_guarded.
  - by apply onKeyDown_guarded.
  - by apply onWheel_guarded.
  - by apply onKeyDown_guarded.
Qed.

Lemma handlers_suspended_witness :
  Script.onKeyDown Demo.envTyping (mkKey "ArrowDown" false)
      (Script.init Demo.env3 (Script.initial ∅ ∅ None ""))
    = Some (Script.init Demo.env3 (Script.initial ∅ ∅ None "")) /\
  Variant.onWheel Demo.envOverlay (mkWheel 100 None)
      (Variant.init Demo.env3 (Variant.initial None))
    = Some (Variant.init Demo.env3 (Variant.initial None)).
Proof.
  split.
  - apply (handlers_suspended Demo.envTyping).
    left. exists (mkActive (Some "INPUT"%string) false true). split; [reflexivity|].
    left. reflexivity.
  - apply (handlers_suspended Demo.envOverlay). right. reflexivity.
Defined.

Lemma navigations_app l1 l2 : navigations (l1 ++ l2) = navigations l1 ++ navigations l2.
Proof. unfold navigations. apply List.filter_app. Qed.

(** What a handler call that does not navigate may change: at most a
    [PreventDefault] is logged. *)
Definition Ignored {C X} (st st' : State C X) : Prop :=
  st' = st \/ st' = emit PreventDefault st.

Lemma Ignored_fields {C X} (st st' : State C X) :
  Ignored st st' ->
  sections st' = sections st /\ currentIndex st' = currentIndex st /\
  locked st' = locked st /\ lockTimer st' = lockTimer st /\
  wheelAccum st' = wheelAccum st /\ tasks st' = tasks st /\
  navigations (log st') = navigations (log st).
Proof.
  intros [->| ->]; repeat split.
  cbn. rewrite navigations_app. cbn. apply app_nil_r.
Qed.

Section RepeatFacts.
Context {C X : Type}.
Variable jump : Env -> Z -> State C X -> option (State C X).
Implicit Type st : State C X.

Lemma onKeyDown_repeat_ignored env e st :
  repeat e = true ->
  exists st', onKeyDown jump env e st = Some st' /\ Ignored st st'.
Proof.
  intros Hrep. rewrite onKeyDown_repeat by done.
  eexists. split; [reflexivity|].
  destruct (_ && _)%bool; [by right|by left].
Qed.

Lemma repeats_ignored (tr : list (Env * KeyEvent)) : forall st,
  Forall (fun p => repeat p.2 = true) tr ->
  exists st', handleAll (onKeyDown jump) tr st = Some st' /\
    sections st' = sections st /\ currentIndex st' = currentIndex st /\
    locked st' = locked st /\ lockTimer st' = lockTimer st /\
    wheelAccum st' = wheelAccum st /\ tasks st' = tasks st /\
    navigations (log st') = navigations (log st).
Proof.
  induction tr as [|[env e] tr IH]; intros st Hall.
  - exists st. repeat split.
  - inversion Hall as [|? ? Hrep Hrest]; subst. cbn in Hrep.
    destruct (onKeyDown_repeat_ignored env e st Hrep) as (st1 & Hst1 & Hig).
    destruct (IH st1 Hrest) as (st' & Hrun & Hf).
    exists st'. cbn. rewrite Hst1. cbn. split; [exact Hrun|].
    destruct (Ignored_fields _ _ Hig) as (E1 & E2 & E3 & E4 & E5 & E6 & E7).
    destruct Hf as (F1 & F2 & F3 & F4 & F5 & F6 & F7).
    repeat split; congruence.
Qed.

End RepeatFacts.

Lemma jumpToIndex_total env idx behavior (st : Script.St) :
  exists st', Script.jumpToIndex env idx behavior st = Some st' /\
    (sections st = [] /\ st' = st \/ sections st <> [] /\ Jumped env idx behavior st st').
Proof.
  destruct (decide (sections st = [])) as [He|Hne].
  - exists st. split; [by apply jumpToIndex_empty|by left].
  - destruct (jumpToIndex_nonempty env idx behavior st Hne) as (st' & H & HJ).
    exists st'. split; [exact H|by right].
Qed.

Lemma scrollToIndex_total env idx (st : Variant.St) :
  exists st', Variant.scrollToIndex env idx st = Some st' /\
    (sections st = [] /\ st' = st \/ sections st <> [] /\ Scrolled env idx st st').
Proof.
  destruct (decide (sections st = [])) as [He|Hne].
  - exists st. split; [by apply scrollToIndex_empty|by left].
  - destruct (scrollToIndex_nonempty env idx st Hne) as (st' & H & HJ).
    exists st'. split; [exact H|by right].
Qed.

(** A key event issues at most one scroll command. *)
Lemma Script_onKeyDown_navigations env e (st : Script.St) :
  exists st', Script.onKeyDown env e st = Some st' /\
    (length (navigations (log st')) <= length (navigations (log st)) + 1)%nat.
Proof.
  destruct (onKeyDown_cases Script.jump env e st) as [H|[H|(_ & _ & idx & H)]].
  - exists st. split; [exact H|lia].
  - eexists. split; [exact H|]. cbn. rewrite navigations_app, length_app. cbn. lia.
  - unfold Script.onKeyDown. rewrite H. unfold Script.jump.
    destruct (jumpToIndex_total env idx "smooth" (emit PreventDefault st))
      as (st' & Hj & Hcase); exists st'; (split; [exact Hj|]).
    destruct Hcase as [[_ ->]|[_ HJ]].
    + cbn. rewrite navigations_app, length_app. cbn. lia.
    + destruct (jumped_log _ _ _ _ _ HJ) as (sec & _ & ->).
      cbn. rewrite !navigations_app, !length_app. cbn. lia.
Qed.

Lemma Variant_onKeyDown_navigations env e (st : Variant.St) :
  exists st', Variant.onKeyDown env e st = Some st' /\
    (length (navigations (log st')) <= length (navigations (log st)) + 1)%nat.
Proof.
  destruct (onKeyDown_cases Variant.scrollToIndex env e st) as [H|[H|(_ & _ & idx & H)]].
  - exists st. split; [exact H|lia].
  - eexists. split; [exact H|]. cbn. rewrite navigations_app, length_app. cbn. lia.
  - unfold Variant.onKeyDown. rewrite H.
    destruct (scrollToIndex_total env idx (emit PreventDefault st))
      as (st' & Hj & Hcase); exists st'; (split; [exact Hj|]).
    destruct Hcase as [[_ ->]|[_ HJ]].
    + cbn. rewrite navigations_app, length_app. cbn. lia.
    + destruct (scrolled_log _ _ _ _ HJ) as (sec & _ & ->).
      cbn. rewrite !navigations_app, !length_app. cbn. lia.
Qed.

(** C5. A keydown event flagged as auto-repeat never navigates: in both
    variants the handler returns the state unchanged, except that for a
    navigation key (with no overlay and nothing being typed) the default
    action is suppressed. So any number of repeat events adds no scroll
    command and changes neither the index, the lock nor the timers, and a
    key press followed by its repeats issues at most one scroll command. *)
Theorem repeat_ignored :
  (forall env e (st : Script.St), repeat e = true ->
     Script.onKeyDown env e st
       = Some (if (negb (isOverlayOpen env) && negb (isTyping env)
                   && includes (key e) navKeys)%bool
               then emit PreventDefault st else st)) /\
  (forall env e (st : Variant.St), repeat e = true ->
     Variant.onKeyDown env e st
       = Some (if (negb (isOverlayOpen env) && negb (isTyping env)
                   && includes (key e) navKeys)%bool
               then emit PreventDefault st else st)) /\
  (forall tr (st : Script.St), Forall (fun p => repeat p.2 = true) tr ->
     exists st', handleAll Script.onKeyDown tr st = Some st' /\
       sections st' = sections st /\ currentIndex st' = currentIndex st /\
       locked st' = locked st /\ lockTimer st' = lockTimer st /\
       wheelAccum st' = wheelAccum st /\ tasks st' = tasks st /\
       navigations (log st') = navigations (log st)) /\
  (forall tr (st : Variant.St), Forall (fun p => repeat p.2 = true) tr ->
     exists st', handleAll Variant.onKeyDown tr st = Some st' /\
       sections st' = sections st /\ currentIndex st' = currentIndex st /\
       locked st' = locked st /\ lockTimer st' = lockTimer st /\
       wheelAccum st' = wheelAccum st /\ tasks st' = tasks st /\
       navigations (log st') = navigations (log st)) /\
  (forall env0 e0 tr (st : Script.St), Forall (fun p => repeat p.2 = true) tr ->
     exists st', handleAll Script.onKeyDown ((env0, e0) :: tr) st = Some st' /\
       (length (navigations (log st')) <= length (navigations (log st)) + 1)%nat) /\
  (forall env0 e0 tr (st : Variant.St), Forall (fun p => repeat p.2 = true) tr ->
     exists st', handleAll Variant.onKeyDown ((env0, e0) :: tr) st = Some st' /\
       (length (navigations (log st')) <= length (navigations (log st)) + 1)%nat).
Proof.
  split; [|split; [|split; [|split; [|split]]]].
  - intros env e st H. by apply onKeyDown_repeat.
  - intros env e st H. by apply onKeyDown_repeat.
  - intros tr st H. by apply repeats_ignored.
  - intros tr st H. by apply repeats_ignored.
  - intros env0 e0 tr st H.
    destruct (Script_onKeyDown_navigations env0 e0 st) as (st1 & H1 & Hn1).
    destruct (repeats_ignored Script.jump tr st1 H) as (st' & Hrun & Hf).
    exists st'. cbn. rewrite H1. cbn. split; [exact Hrun|].
    destruct Hf as (_ & _ & _ & _ & _ & _ & ->). exact Hn1.
  - intros env0 e0 tr st H.
    destruct (Variant_onKeyDown_navigations env0 e0 st) as (st1 & H1 & Hn1).
    destruct (repeats_ignored Variant.scrollToIndex tr st1 H) as (st' & Hrun & Hf).
    exists st'. cbn. rewrite H1. cbn. split; [exact Hrun|].
    destruct Hf as (_ & _ & _ & _ & _ & _ & ->). exact Hn1.
Qed.

Lemma repeat_ignored_witness :
  Script.onKeyDown Demo.env3 (mkKey "ArrowDown" true)
      (Script.init Demo.env3 (Script.initial ∅ ∅ None ""))
    = Some (emit PreventDefault (Script.init Demo.env3 (Script.initial ∅ ∅ None ""))).
Proof.
  destruct repeat_ignored as [H _].
  apply (H Demo.env3 (mkKey "ArrowDown" true)). reflexivity.
Defined.

(** ** Wheel paging *)

Section WheelFacts.
Context {C X : Type}.
Variable cbWheelReset : C.
Variable jump : Env -> Z -> State C X -> option (State C X).
Implicit Type st : State C X.

Lemma passesGuards_elim env e :
  passesGuards (env, e) = true ->
  isOverlayOpen env = false /\ isTyping env = false /\ isInsideScrollable (target e) = false.
Proof.
  unfold passesGuards. cbn.
  destruct (isOverlayOpen env), (isTyping env), (isInsideScrollable (target e)); cbn; auto.
Qed.

Lemma wheel_below (tr : list (Env * WheelEvent)) : forall st,
  locked st = false ->
  forallb passesGuards tr = true ->
  staysBelow (wheelAccum st) (map (fun p => deltaY p.2) tr) = true ->
  exists st', handleAll (onWheel cbWheelReset jump) tr st = Some st' /\
    wheelAccum st' = wheelAccum st + sumZ (map (fun p => deltaY p.2) tr) /\
    log st' = log st /\ sections st' = sections st /\
    currentIndex st' = currentIndex st /\ locked st' = false /\
    lockTimer st' = lockTimer st /\ ext st' = ext st.
Proof.
  induction tr as [|[env e] tr IH]; intros st Hl Hg Hb.
  - exists st. cbn. repeat split; [lia|exact Hl].
  - cbn in Hg, Hb. apply andb_prop in Hg as [Hg Hgs]. apply andb_prop in Hb as [Hb Hbs].
    destruct (passesGuards_elim env e Hg) as (Ho & Ht & Hs).
    pose proof (accumulate_Accumulated cbWheelReset (deltaY e) st) as HA.
    set (st1 := accumulate cbWheelReset (deltaY e) st) in *.
    assert (Hl1 : locked st1 = false) by (rewrite (acc_locked _ _ _ _ HA); exact Hl).
    rewrite <- (acc_wheelAccum _ _ _ _ HA) in Hbs.
    destruct (IH st1 Hl1 Hgs Hbs) as (st' & Hrun & Hw & Hlog & Hsec & Hcur & Hlk & Hlt & Hext).
    exists st'. cbn [handleAll]. rewrite onWheel_accepted by done. rewrite Hb.
    cbn [mbind option_bind]. fold st1. split; [exact Hrun|].
    rewrite Hw, Hlog, Hsec, Hcur, Hlt, Hext.
    rewrite (acc_wheelAccum _ _ _ _ HA), (acc_log _ _ _ _ HA), (acc_sections _ _ _ _ HA),
      (acc_currentIndex _ _ _ _ HA), (acc_lockTimer _ _ _ _ HA), (acc_ext _ _ _ _ HA).
    unfold sumZ. cbn [map foldr snd].
    split; [lia|]. do 3 (split; [reflexivity|]). split; [exact Hlk|]. split; reflexivity.
Qed.

End WheelFacts.

(** What one accepted wheel event does, for a handler [onWheel] whose
    navigation steps are [next] and [prev]: the delta is added and the
    140 ms reset timer armed; under the threshold that is all; at or over
    it the default is prevented, the accumulator cleared and [next]
    (positive sum) or [prev] (negative sum) called. *)
Definition WheelPaging {C X : Type} (cbWheelReset : C)
    (onWheel : Env -> WheelEvent -> State C X -> option (State C X))
    (next prev : Env -> State C X -> option (State C X)) : Prop :=
  forall env e st,
    passesGuards (env, e) = true -> locked st = false ->
    exists st1,
      wheelAccum st1 = wheelAccum st + deltaY e /\
      log st1 = log st /\ sections st1 = sections st /\
      currentIndex st1 = currentIndex st /\ locked st1 = false /\
      (exists id, wheelResetTimer st1 = Some id /\
                  tasks st1 !! id = Some (Timeout 140, cbWheelReset)) /\
      (Z.abs (wheelAccum st + deltaY e) < 60 -> onWheel env e st = Some st1) /\
      (60 <= Z.abs (wheelAccum st + deltaY e) ->
         let st2 := set_wheelAccum 0 (emit PreventDefault st1) in
         (0 < wheelAccum st + deltaY e -> onWheel env e st = next env st2) /\
         (wheelAccum st + deltaY e < 0 -> onWheel env e st = prev env st2)).

Lemma onWheel_paging {C X : Type} (cb : C) (jump : Env -> Z -> State C X -> option (State C X)) :
  WheelPaging cb (onWheel cb jump) (next jump) (prev jump).
Proof.
  intros env e st Hg Hl.
  destruct (passesGuards_elim env e Hg) as (Ho & Ht & Hs).
  pose proof (accumulate_Accumulated cb (deltaY e) st) as HA.
  exists (accumulate cb (deltaY e) st).
  rewrite (acc_wheelAccum _ _ _ _ HA), (acc_log _ _ _ _ HA), (acc_sections _ _ _ _ HA),
    (acc_currentIndex _ _ _ _ HA), (acc_locked _ _ _ _ HA).
  do 4 (split; [reflexivity|]). split; [exact Hl|].
  split; [exists (nextId st); split; [apply (acc_timer _ _ _ _ HA)|apply (acc_task _ _ _ _ HA)]|].
  rewrite onWheel_accepted by done. unfold WHEEL_ACCUM_THRESHOLD. split.
  - intros Hlt. by rewrite (proj2 (Z.ltb_lt _ _) Hlt).
  - intros Hge. rewrite (proj2 (Z.ltb_ge _ _) Hge). split; intros Hsign.
    + by rewrite (proj2 (Z.ltb_lt _ _) Hsign).
    + rewrite (proj2 (Z.ltb_ge _ _)) by lia. reflexivity.
Qed.

Lemma Script_fire_wheelReset env (st : Script.St) id k :
  tasks st !! id = Some (k, Script.CbWheelReset) ->
  exists st', Script.step env (Script.EvFire id) st = Some st' /\ wheelAccum st' = 0.
Proof. intros H. cbn. rewrite H. eexists. split; reflexivity. Qed.

Lemma Variant_fire_wheelReset env (st : Variant.St) id k :
  tasks st !! id = Some (k, Variant.CbWheelReset) ->
  exists st', Variant.step env (Variant.EvFire id) st = Some st' /\ wheelAccum st' = 0.
Proof. intros H. cbn. rewrite H. eexists. split; reflexivity. Qed.

(** C2. In both variants an accepted wheel event (no overlay, nothing
    being typed, not inside a scrollable, not locked) adds its vertical
    delta to the accumulator and arms the 140 ms reset timer. While the
    absolute sum stays under 60 nothing else happens: over a whole
    sequence of such events the accumulator holds the sum of the deltas
    and the log is unchanged, so the default scroll is never prevented.
    As soon as the absolute sum is 60 or more the default is prevented,
    the accumulator is set to 0 and [next] (positive sum) or [prev]
    (negative sum) is called; the accumulator is 0 after the call. The
    callback of the reset timer sets the accumulator to 0 as well. *)
Theorem wheel_paging :
  WheelPaging Script.CbWheelReset Script.onWheel Script.next Script.prev /\
  WheelPaging Variant.CbWheelReset Variant.onWheel Variant.next Variant.prev /\
  (forall tr (st : Script.St),
     locked st = false -> forallb passesGuards tr = true ->
     staysBelow (wheelAccum st) (map (fun p => deltaY p.2) tr) = true ->
     exists st', handleAll Script.onWheel tr st = Some st' /\
       wheelAccum st' = wheelAccum st + sumZ (map (fun p => deltaY p.2) tr) /\
       log st' = log st /\ currentIndex st' = currentIndex st /\ locked st' = false) /\
  (forall tr (st : Variant.St),
     locked st = false -> forallb passesGuards tr = true ->
     staysBelow (wheelAccum st) (map (fun p => deltaY p.2) tr) = true ->
     exists st', handleAll Variant.onWheel tr st = Some st' /\
       wheelAccum st' = wheelAccum st + sumZ (map (fun p => deltaY p.2) tr) /\
       log st' = log st /\ currentIndex st' = currentIndex st /\ locked st' = false) /\
  (forall env e (st : Script.St),
     passesGuards (env, e) = true -> locked st = false ->
     60 <= Z.abs (wheelAccum st + deltaY e) ->
     exists st', Script.onWheel env e st = Some st' /\ wheelAccum st' = 0 /\
       (sections st <> [] ->
        locked st' = true /\
        currentIndex st'
          = clamp (currentIndex st + (if 0 <? wheelAccum st + deltaY e then 1 else -1))
              0 (Z.of_nat (length (sections st)) - 1))) /\
  (forall env e (st : Variant.St),
     passesGuards (env, e) = true -> locked st = false ->
     60 <= Z.abs (wheelAccum st + deltaY e) ->
     exists st', Variant.onWheel env e st = Some st' /\ wheelAccum st' = 0 /\
       (sections st <> [] ->
        locked st' = true /\
        currentIndex st'
          = clamp (currentIndex st + (if 0 <? wheelAccum st + deltaY e then 1 else -1))
              0 (Z.of_nat (length (sections st)) - 1))) /\
  (forall env (st : Script.St) id k,
     tasks st !! id = Some (k, Script.CbWheelReset) ->
     exists st', Script.step env (Script.EvFire id) st = Some st' /\ wheelAccum st' = 0) /\
  (forall env (st : Variant.St) id k,
     tasks st !! id = Some (k, Variant.CbWheelReset) ->
     exists st', Variant.step env (Variant.EvFire id) st = Some st' /\ wheelAccum st' = 0).
Proof.
  split; [apply onWheel_paging|]. split; [apply onWheel_paging|].
  split; [|split].
  - intros tr st Hl Hg Hb.
    destruct (wheel_below Script.CbWheelReset Script.jump tr st Hl Hg Hb)
      as (st' & H & Hw & Hlog & _ & Hcur & Hlk & _).
    by exists st'.
  - intros tr st Hl Hg Hb.
    destruct (wheel_below Variant.CbWheelReset Variant.scrollToIndex tr st Hl Hg Hb)
      as (st' & H & Hw & Hlog & _ & Hcur & Hlk & _).
    by exists st'.
  - split; [|split; [|split]].
    + intros env e st Hg Hl Hge.
      destruct (passesGuards_elim env e Hg) as (Ho & Ht & Hs).
      unfold Script.onWheel. rewrite onWheel_accepted by done.
      unfold WHEEL_ACCUM_THRESHOLD. rewrite (proj2 (Z.ltb_ge _ _) Hge).
      pose proof (accumulate_Accumulated Script.CbWheelReset (deltaY e) st) as HA.
      set (st2 := set_wheelAccum 0 (emit PreventDefault (accumulate _ _ st))).
      assert (Hsec : sections st2 = sections st) by apply (acc_sections _ _ _ _ HA).
      assert (Hcur : currentIndex st2 = currentIndex st) by apply (acc_currentIndex _ _ _ _ HA).
      assert (Hnav : forall d, exists st',
                Script.jump env (currentIndex st2 + d) st2 = Some st' /\ wheelAccum st' = 0 /\
                (sections st <> [] -> locked st' = true /\
                   currentIndex st' = clamp (currentIndex st + d) 0
                                        (Z.of_nat (length (sections st)) - 1))).
      { intros d. unfold Script.jump.
        destruct (jumpToIndex_total env (currentIndex st2 + d) "smooth" st2)
          as (st' & Hj & Hcase).
        exists st'. split; [exact Hj|]. destruct Hcase as [[He ->]|[Hne HJ]].
        - split; [reflexivity|]. intros Hn. rewrite Hsec in He. contradiction.
        - split; [by rewrite (jumped_wheelAccum _ _ _ _ _ HJ)|]. intros _.
          split; [apply (jumped_locked _ _ _ _ _ HJ)|].
          by rewrite (jumped_index _ _ _ _ _ HJ), Hsec, Hcur. }
      destruct (0 <? wheelAccum st + deltaY e); [apply (Hnav 1)|apply (Hnav (-1))].
    + intros env e st Hg Hl Hge.
      destruct (passesGuards_elim env e Hg) as (Ho & Ht & Hs).
      unfold Variant.onWheel. rewrite onWheel_accepted by done.
      unfold WHEEL_ACCUM_THRESHOLD. rewrite (proj2 (Z.ltb_ge _ _) Hge).
      pose proof (accumulate_Accumulated Variant.CbWheelReset (deltaY e) st) as HA.
      set (st2 := set_wheelAccum 0 (emit PreventDefault (accumulate _ _ st))).
      assert (Hsec : sections st2 = sections st) by apply (acc_sections _ _ _ _ HA).
      assert (Hcur : currentIndex st2 = currentIndex st) by apply (acc_currentIndex _ _ _ _ HA).
      assert (Hnav : forall d, exists st',
                Variant.scrollToIndex env (currentIndex st2 + d) st2 = Some st' /\
                wheelAccum st' = 0 /\
                (sections st <> [] -> locked st' = true /\
                   currentIndex st' = clamp (currentIndex st + d) 0
                                        (Z.of_nat (length (sections st)) - 1))).
      { intros d.
        destruct (scrollToIndex_total env (currentIndex st2 + d) st2) as (st' & Hj & Hcase).
        exists st'. split; [exact Hj|]. destruct Hcase as [[He ->]|[Hne HJ]].
        - split; [reflexivity|]. intros Hn. rewrite Hsec in He. contradiction.
        - split; [by rewrite (scrolled_wheelAccum _ _ _ _ HJ)|]. intros _.
          split; [apply (scrolled_locked _ _ _ _ HJ)|].
          by rewrite (scrolled_index _ _ _ _ HJ), Hsec, Hcur. }
      destruct (0 <? wheelAccum st + deltaY e); [apply (Hnav 1)|apply (Hnav (-1))].
    + intros env st id k. apply Script_fire_wheelReset.
    + intros env st id k. apply Variant_fire_wheelReset.
Qed.

Lemma wheel_paging_witness :
  exists st',
    handleAll Script.onWheel
      [(Demo.env3, mkWheel 30 None); (Demo.env3, mkWheel (-50) None); (Demo.env3, mkWheel 70 None)]
      Demo.script0 = Some st' /\
    wheelAccum st' = wheelAccum Demo.script0
                     + sumZ (map (fun p : Env * WheelEvent => deltaY p.2)
                          [(Demo.env3, mkWheel 30 None); (Demo.env3, mkWheel (-50) None);
                           (Demo.env3, mkWheel 70 None)]) /\
    log st' = log Demo.script0 /\ currentIndex st' = currentIndex Demo.script0 /\
    locked st' = false.
Proof.
  destruct wheel_paging as (_ & _ & Hseq & _).
  apply Hseq; reflexivity.
Defined.

(** ** The current index stays inside the section array *)

Definition NavOk {C X} (st : State C X) : Prop :=
  0 <= currentIndex st /\
  (sections st <> [] -> currentIndex st <= Z.of_nat (length (sections st)) - 1).

(** The pair of variables [NavOk] speaks about. *)
Definition nav {C X} (st : State C X) : list Elem * Z := (sections st, currentIndex st).

Lemma NavOk_nav {C X} (st st' : State C X) : nav st' = nav st -> NavOk st -> NavOk st'.
Proof. unfold nav, NavOk. intros [= -> ->]. done. Qed.

Lemma syncState_NavOk {C X} env (st : State C X) : NavOk st -> NavOk (syncState env st).
Proof.
  intros [Hpos Hle]. unfold syncState. cbn [sections set_sections].
  destruct (getSections env) as [|s l] eqn:Hg.
  - split; [exact Hpos|]. cbn. done.
  - pose proof (nearestSectionIndex_range env (s :: l) ltac:(done)) as Hr.
    split; cbn -[nearestSectionIndex]; [lia|]. intros _. cbn [length] in Hr. lia.
Qed.

Section NavFacts.
Context {C X : Type}.
Implicit Type st : State C X.

Lemma nav_clearIfSet t st : nav (clearIfSet t st) = nav st.
Proof. by destruct t. Qed.

Lemma nav_unlockInput st : nav (unlockInput st) = nav st.
Proof. destruct st as [? ? ? lt ? wt ? ? ? ? ?]. by destruct lt. Qed.

Lemma nav_clearTimers st : nav (clearTimers st) = nav st.
Proof. destruct st as [? ? ? lt ? wt ? ? ? ? ?]. by destruct lt, wt. Qed.

Lemma nav_set_ext (x : X) st : nav (set_ext x st) = nav st.
Proof. reflexivity. Qed.

End NavFacts.

Lemma Jumped_NavOk env idx b st st' : Jumped env idx b st st' -> sections st <> [] -> NavOk st'.
Proof.
  intros HJ Hne. unfold NavOk.
  rewrite (jumped_index _ _ _ _ _ HJ), (jumped_sections _ _ _ _ _ HJ).
  assert (0 < length (sections st))%nat by (destruct (sections st); [done|cbn; lia]).
  pose proof (clamp_range idx 0 (Z.of_nat (length (sections st)) - 1)). lia.
Qed.

Lemma Scrolled_NavOk env idx st st' : Scrolled env idx st st' -> sections st <> [] -> NavOk st'.
Proof.
  intros HJ Hne. unfold NavOk.
  rewrite (scrolled_index _ _ _ _ HJ), (scrolled_sections _ _ _ _ HJ).
  assert (0 < length (sections st))%nat by (destruct (sections st); [done|cbn; lia]).
  pose proof (clamp_range idx 0 (Z.of_nat (length (sections st)) - 1)). lia.
Qed.

Lemma jumpToIndex_NavOk env idx b (st : Script.St) :
  NavOk st -> exists st', Script.jumpToIndex env idx b st = Some st' /\ NavOk st'.
Proof.
  intros Hok. destruct (jumpToIndex_total env idx b st) as (st' & Hj & Hcase).
  exists st'. split; [exact Hj|]. destruct Hcase as [[_ ->]|[Hne HJ]]; [exact Hok|].
  by eapply Jumped_NavOk.
Qed.

Lemma scrollToIndex_NavOk env idx (st : Variant.St) :
  NavOk st -> exists st', Variant.scrollToIndex env idx st = Some st' /\ NavOk st'.
Proof.
  intros Hok. destruct (scrollToIndex_total env idx st) as (st' & Hj & Hcase).
  exists st'. split; [exact Hj|]. destruct Hcase as [[_ ->]|[Hne HJ]]; [exact Hok|].
  by eapply Scrolled_NavOk.
Qed.

(** If the jump operation keeps [NavOk], so do the two handlers. *)
Section HandlersNavOk.
Context {C X : Type}.
Variable cbWheelReset : C.
Variable jump : Env -> Z -> State C X -> option (State C X).
Hypothesis jump_NavOk : forall env idx st,
  NavOk st -> exists st', jump env idx st = Some st' /\ NavOk st'.

Lemma onWheel_NavOk env e st :
  NavOk st -> exists st', onWheel cbWheelReset jump env e st = Some st' /\ NavOk st'.
Proof.
  intros Hok.
  pose proof (accumulate_Accumulated cbWheelReset (deltaY e) st) as HA.
  assert (Hacc : NavOk (accumulate cbWheelReset (deltaY e) st)).
  { eapply NavOk_nav; [|exact Hok]. unfold nav.
    by rewrite (acc_sections _ _ _ _ HA), (acc_currentIndex _ _ _ _ HA). }
  destruct (onWheel_cases cbWheelReset jump env e st) as [H|[H|(_ & [H|(idx & H)])]];
    rewrite H.
  - by exists st.
  - eexists. split; [reflexivity|]. exact Hok.
  - eexists. split; [reflexivity|]. exact Hacc.
  - apply jump_NavOk. exact Hacc.
Qed.

Lemma onKeyDown_NavOk env e st :
  NavOk st -> exists st', onKeyDown jump env e st = Some st' /\ NavOk st'.
Proof.
  intros Hok.
  destruct (onKeyDown_cases jump env e st) as [H|[H|(_ & _ & idx & H)]]; rewrite H.
  - by exists st.
  - eexists. split; [reflexivity|]. exact Hok.
  - apply jump_NavOk. exact Hok.
Qed.

End HandlersNavOk.

Lemma nav_attachListeners {C X} (st : State C X) : nav (attachListeners st) = nav st.
Proof. unfold attachListeners. by destruct (listenersAttached st). Qed.

Lemma nav_detachListeners {C X} (st : State C X) : nav (detachListeners st) = nav st.
Proof. unfold detachListeners. by destruct (listenersAttached st). Qed.

Lemma Script_applyTheme_nav mode (st : Script.St) : nav (Script.applyTheme mode st) = nav st.
Proof.
  destruct_script st.
  unfold Script.applyTheme, Script.stabilizeAfterThemeSwitch, Script.upd.
  by destruct sw, tst.
Qed.

Lemma Script_destroy_nav (st : Script.St) : nav (Script.destroy st) = nav st.
Proof.
  destruct_script st. unfold Script.destroy, Script.upd.
  by destruct la, lt, wt, tst.
Qed.

Lemma Script_runCallback_NavOk env cb (st : Script.St) :
  NavOk st -> exists st', Script.runCallback env cb st = Some st' /\ NavOk st'.
Proof.
  intros Hok. destruct cb; cbn [Script.runCallback].
  - eexists. split; [reflexivity|]. exact Hok.
  - eexists. split; [reflexivity|]. exact Hok.
  - eexists. split; [reflexivity|].
    eapply NavOk_nav; [apply nav_unlockInput|]. by apply syncState_NavOk.
  - eexists. split; [reflexivity|].
    eapply NavOk_nav; [|exact Hok].
    destruct_script st. unfold Script.upd.
    destruct (activeElement env) as [[? ? []]|], lt, wt; reflexivity.
  - eexists. split; [reflexivity|]. exact Hok.
  - pose proof (syncState_NavOk env st Hok) as Hs.
    destruct (jumpToIndex_NavOk env (nearestSectionIndex env (sections (syncState env st)))
                "auto" (syncState env st) Hs) as (st' & Hj & Hok').
    rewrite Hj. cbn [mbind option_bind]. eexists. split; [reflexivity|]. exact Hok'.
  - eexists. split; [reflexivity|].
    eapply NavOk_nav; [apply nav_unlockInput|]. apply syncState_NavOk. exact Hok.
  - eexists. split; [reflexivity|]. by apply syncState_NavOk.
Qed.

Lemma Script_step_NavOk env ev (st : Script.St) :
  NavOk st -> exists st', Script.step env ev st = Some st' /\ NavOk st'.
Proof.
  intros Hok. destruct ev; cbn [Script.step].
  - destruct (listenersAttached st); [|exists st; split; [reflexivity|exact Hok]].
    unfold Script.onWheel. apply (onWheel_NavOk Script.CbWheelReset Script.jump); [|exact Hok].
    intros env' idx st' H. unfold Script.jump. apply jumpToIndex_NavOk, H.
  - destruct (listenersAttached st); [|exists st; split; [reflexivity|exact Hok]].
    unfold Script.onKeyDown. apply (onKeyDown_NavOk Script.jump); [|exact Hok].
    intros env' idx st' H. unfold Script.jump. apply jumpToIndex_NavOk, H.
  - destruct (Script.resizeListener (ext st)); [|exists st; split; [reflexivity|exact Hok]].
    eexists. split; [reflexivity|]. by apply syncState_NavOk.
  - destruct (Script.hashListener (ext st)); (eexists; split; [reflexivity|exact Hok]).
  - destruct (Script.themeSwitch (ext st)) as [sw|] eqn:Hsw; [|exists st; split; [reflexivity|exact Hok]].
    eexists. split; [reflexivity|].
    set (st1 := Script.upd _ st).
    assert (Hok1 : NavOk st1) by exact Hok.
    clearbody st1. clear Hsw.
    induction (onChange sw) as [|h hs IH] in st1, Hok1 |- *; [exact Hok1|].
    cbn [foldl]. apply IH.
    eapply NavOk_nav; [|exact Hok1].
    unfold Script.runChangeHandler. destruct h.
    destruct (Script.themeSwitch (ext st1)); [apply Script_applyTheme_nav|reflexivity].
  - destruct (tasks st !! id) as [[k cb]|]; [|exists st; split; [reflexivity|exact Hok]].
    apply Script_runCallback_NavOk. exact Hok.
  - eexists. split; [reflexivity|]. eapply NavOk_nav; [apply Script_destroy_nav|exact Hok].
Qed.

Lemma Script_run_NavOk tr : forall st : Script.St,
  NavOk st -> exists st', Script.run tr st = Some st' /\ NavOk st'.
Proof.
  induction tr as [|[env ev] tr IH]; intros st Hok; [exists st; split; [reflexivity|exact Hok]|].
  destruct (Script_step_NavOk env ev st Hok) as (st1 & Hstep & Hok1).
  destruct (IH st1 Hok1) as (st' & Hrun & Hok').
  exists st'. cbn [Script.run]. rewrite Hstep. split; [exact Hrun|exact Hok'].
Qed.

Lemma Script_init_NavOk env stor classes sw sb :
  NavOk (Script.init env (Script.initial stor classes sw sb)).
Proof.
  unfold Script.init.
  assert (H0 : NavOk (Script.initScroll env (Script.initial stor classes sw sb))).
  { unfold Script.initScroll, Script.upd.
    eapply NavOk_nav with (st := syncState env (Script.initial stor classes sw sb)).
    - rewrite !nav_set_ext. apply nav_attachListeners.
    - apply syncState_NavOk. split; cbn; [lia|done]. }
  set (s0 := Script.initScroll _ _) in *. clearbody s0.
  eapply NavOk_nav; [|exact H0].
  unfold Script.initTheme. set (m := if bool_decide _ then _ else _).
  destruct (Script.themeSwitch (ext (Script.applyTheme m s0)));
    unfold Script.upd; rewrite ?nav_set_ext; apply Script_applyTheme_nav.
Qed.

Ltac destruct_variant st :=
  destruct st as [?secs ?cur ?lk ?lt ?wa ?wt ?la ?tk ?nid ?lg [?ss ?sm ?ns ?sw ?ob ?rl ?hl]].

Lemma nearest_NavOk {C X} env (st : State C X) :
  NavOk (set_currentIndex (nearestSectionIndex env (sections st)) st).
Proof.
  unfold NavOk. cbn [currentIndex sections set_currentIndex].
  destruct (sections st) as [|s l] eqn:Hs.
  - split; [reflexivity|done].
  - pose proof (nearestSectionIndex_range env (s :: l) ltac:(done)). split; [lia|]. intros _. lia.
Qed.

Lemma Variant_hardReInit_nav (st : Variant.St) : nav (Variant.hardReInit st) = nav st.
Proof.
  destruct_variant st.
  unfold Variant.hardReInit, Variant.clearAllTimers, Variant.callStopper, Variant.upd.
  by destruct la, lt, wt, ss.
Qed.

Lemma Variant_check_NavOk env sid (st : Variant.St) :
  NavOk st -> NavOk (Variant.check env sid st).
Proof.
  intros Hok. unfold Variant.check.
  destruct (Variant.settles (ext st) !! sid) as [s|]; [|exact Hok].
  destruct (Variant.cancelled s); [exact Hok|].
  destruct (Variant.SETTLE_REQUIRED_STEPS <=? _).
  - eapply NavOk_nav; [unfold Variant.upd at 1; rewrite nav_set_ext; apply nav_unlockInput|].
    apply nearest_NavOk.
  - exact Hok.
Qed.

Lemma Variant_runCallback_NavOk env cb (st : Variant.St) :
  NavOk st -> NavOk (Variant.runCallback env cb st).
Proof.
  intros Hok. destruct cb; cbn [Variant.runCallback]; try exact Hok.
  - by apply Variant_check_NavOk.
  - by apply syncState_NavOk.
  - eapply NavOk_nav; [apply nav_attachListeners|]. by apply syncState_NavOk.
Qed.

Lemma Variant_onMutations_nav ms (st : Variant.St) : nav (Variant.onMutations ms st) = nav st.
Proof.
  induction ms as [|m ms IH]; [reflexivity|]. cbn [Variant.onMutations].
  destruct (_ && _)%bool; [apply Variant_hardReInit_nav|exact IH].
Qed.

Lemma Variant_step_NavOk env ev (st : Variant.St) :
  NavOk st -> exists st', Variant.step env ev st = Some st' /\ NavOk st'.
Proof.
  intros Hok. destruct ev; cbn [Variant.step].
  - destruct (listenersAttached st); [|exists st; split; [reflexivity|exact Hok]].
    unfold Variant.onWheel.
    apply (onWheel_NavOk Variant.CbWheelReset Variant.scrollToIndex); [|exact Hok].
    intros env' idx st' H. apply scrollToIndex_NavOk, H.
  - destruct (listenersAttached st); [|exists st; split; [reflexivity|exact Hok]].
    unfold Variant.onKeyDown. apply (onKeyDown_NavOk Variant.scrollToIndex); [|exact Hok].
    intros env' idx st' H. apply scrollToIndex_NavOk, H.
  - destruct (Variant.resizeListener (ext st)); [|exists st; split; [reflexivity|exact Hok]].
    eexists. split; [reflexivity|]. by apply syncState_NavOk.
  - destruct (Variant.hashListener (ext st)); (eexists; split; [reflexivity|exact Hok]).
  - destruct (Variant.observer (ext st)); [|exists st; split; [reflexivity|exact Hok]].
    eexists. split; [reflexivity|].
    eapply NavOk_nav; [apply Variant_onMutations_nav|exact Hok].
  - destruct (Variant.themeSwitch (ext st)) as [sw|] eqn:Hsw;
      [|exists st; split; [reflexivity|exact Hok]].
    eexists. split; [reflexivity|].
    set (st1 := Variant.upd _ st).
    assert (Hok1 : NavOk st1) by exact Hok.
    clearbody st1. clear Hsw.
    induction (onChange sw) as [|h hs IH] in st1, Hok1 |- *; [exact Hok1|].
    cbn [foldl]. apply IH. destruct h.
    eapply NavOk_nav; [apply Variant_hardReInit_nav|exact Hok1].
  - destruct (tasks st !! id) as [[k cb]|]; [|exists st; split; [reflexivity|exact Hok]].
    eexists. split; [reflexivity|]. apply Variant_runCallback_NavOk. exact Hok.
Qed.

Lemma Variant_run_NavOk tr : forall st : Variant.St,
  NavOk st -> exists st', Variant.run tr st = Some st' /\ NavOk st'.
Proof.
  induction tr as [|[env ev] tr IH]; intros st Hok; [exists st; split; [reflexivity|exact Hok]|].
  destruct (Variant_step_NavOk env ev st Hok) as (st1 & Hstep & Hok1).
  destruct (IH st1 Hok1) as (st' & Hrun & Hok').
  exists st'. cbn [Variant.run]. rewrite Hstep. split; [exact Hrun|exact Hok'].
Qed.

Lemma Variant_init_NavOk env sw : NavOk (Variant.init env (Variant.initial sw)).
Proof.
  eapply NavOk_nav with (st := syncState env (Variant.initial sw)).
  - unfold Variant.init, Variant.upd.
    destruct (Variant.themeSwitch _); rewrite !nav_set_ext; apply nav_attachListeners.
  - apply syncState_NavOk. split; cbn; [lia|done].
Qed.

(** ** Clamping at the ends of the section array *)

(** A jump on a non-empty section array succeeds and leaves the clamped
    target in the current index. *)
Definition JumpClamps {C X : Type}
    (jump : Env -> Z -> State C X -> option (State C X)) : Prop :=
  forall env idx st, sections st <> [] ->
    exists st', jump env idx st = Some st' /\
      sections st' = sections st /\
      currentIndex st' = clamp idx 0 (Z.of_nat (length (sections st)) - 1) /\
      0 <= currentIndex st' <= Z.of_nat (length (sections st)) - 1.

(** Moving past either end, and the Home and End keys. *)
Definition EdgeMoves {C X : Type}
    (next prev : Env -> State C X -> option (State C X))
    (onKeyDown : Env -> KeyEvent -> State C X -> option (State C X)) : Prop :=
  forall env st, sections st <> [] ->
    (currentIndex st = Z.of_nat (length (sections st)) - 1 ->
       exists st', next env st = Some st' /\
         currentIndex st' = Z.of_nat (length (sections st)) - 1) /\
    (currentIndex st = 0 ->
       exists st', prev env st = Some st' /\ currentIndex st' = 0) /\
    (isOverlayOpen env = false -> isTyping env = false -> locked st = false ->
       (exists st', onKeyDown env (mkKey "End" false) st = Some st' /\
          currentIndex st' = Z.of_nat (length (sections st)) - 1) /\
       (exists st', onKeyDown env (mkKey "Home" false) st = Some st' /\
          currentIndex st' = 0)).

Lemma nonempty_length (secs : list Elem) : secs <> [] -> 0 <= Z.of_nat (length secs) - 1.
Proof. destruct secs; [done|cbn [length]; lia]. Qed.

Lemma JumpClamps_EdgeMoves {C X : Type} (jump : Env -> Z -> State C X -> option (State C X)) :
  JumpClamps jump -> EdgeMoves (next jump) (prev jump) (onKeyDown jump).
Proof.
  intros Hj env st Hne. pose proof (nonempty_length _ Hne) as Hlen.
  split; [|split].
  - intros Hcur. unfold next.
    destruct (Hj env (currentIndex st + 1) st Hne) as (st' & H & _ & Hc & _).
    exists st'. split; [exact H|]. rewrite Hc. apply clamp_above; lia.
  - intros Hcur. unfold prev.
    destruct (Hj env (currentIndex st - 1) st Hne) as (st' & H & _ & Hc & _).
    exists st'. split; [exact H|]. rewrite Hc. apply clamp_below; lia.
  - intros Ho Ht Hl. unfold onKeyDown. rewrite Ho, Ht. cbn. rewrite Hl. split.
    + destruct (Hj env (Z.of_nat (length (sections st)) - 1) (emit PreventDefault st) Hne)
        as (st' & H & _ & Hc & _).
      exists st'. split; [exact H|]. rewrite Hc. apply clamp_inside. cbn. lia.
    + destruct (Hj env 0 (emit PreventDefault st) Hne) as (st' & H & _ & Hc & _).
      exists st'. split; [exact H|]. rewrite Hc. apply clamp_inside. cbn. lia.
Qed.

Lemma jumpToIndex_clamps behavior :
  JumpClamps (fun env idx st => Script.jumpToIndex env idx behavior st).
Proof.
  intros env idx st Hne.
  destruct (jumpToIndex_nonempty env idx behavior st Hne) as (st' & H & HJ).
  exists st'. split; [exact H|]. split; [apply (jumped_sections _ _ _ _ _ HJ)|].
  split; [apply (jumped_index _ _ _ _ _ HJ)|].
  rewrite (jumped_index _ _ _ _ _ HJ). apply clamp_range, nonempty_length, Hne.
Qed.

Lemma scrollToIndex_clamps : JumpClamps Variant.scrollToIndex.
Proof.
  intros env idx st Hne.
  destruct (scrollToIndex_nonempty env idx st Hne) as (st' & H & HJ).
  exists st'. split; [exact H|]. split; [apply (scrolled_sections _ _ _ _ HJ)|].
  split; [apply (scrolled_index _ _ _ _ HJ)|].
  rewrite (scrolled_index _ _ _ _ HJ). apply clamp_range, nonempty_length, Hne.
Qed.

(** C1. On a non-empty section array the jump operation of either
    variant ([jumpToIndex], [scrollToIndex]) succeeds and sets the current
    index to clamp(idx, 0, length - 1). In particular [next] at the last
    index and the End key leave the index at length - 1, and [prev] at
    index 0 and the Home key leave it at 0. Every run of either
    controller from its initial state goes through without an exception,
    and after it the current index is non-negative and, when the section
    array is non-empty, at most length - 1. *)
Theorem jump_clamps :
  (forall behavior, JumpClamps (fun env idx st => Script.jumpToIndex env idx behavior st)) /\
  JumpClamps Variant.scrollToIndex /\
  EdgeMoves Script.next Script.prev Script.onKeyDown /\
  EdgeMoves Variant.next Variant.prev Variant.onKeyDown /\
  (forall env0 stor classes sw sb tr,
     exists st', Script.run tr (Script.init env0 (Script.initial stor classes sw sb)) = Some st' /\
       0 <= currentIndex st' /\
       (sections st' <> [] -> currentIndex st' <= Z.of_nat (length (sections st')) - 1)) /\
  (forall env0 sw tr,
     exists st', Variant.run tr (Variant.init env0 (Variant.initial sw)) = Some st' /\
       0 <= currentIndex st' /\
       (sections st' <> [] -> currentIndex st' <= Z.of_nat (length (sections st')) - 1)).
Proof.
  split; [exact jumpToIndex_clamps|]. split; [exact scrollToIndex_clamps|].
  split; [apply (JumpClamps_EdgeMoves Script.jump), (jumpToIndex_clamps "smooth")|].
  split; [apply (JumpClamps_EdgeMoves Variant.scrollToIndex), scrollToIndex_clamps|].
  split.
  - intros env0 stor classes sw sb tr.
    destruct (Script_run_NavOk tr _ (Script_init_NavOk env0 stor classes sw sb))
      as (st' & Hrun & Hpos & Hle).
    exists st'. split; [exact Hrun|]. split; [exact Hpos|exact Hle].
  - intros env0 sw tr.
    destruct (Variant_run_NavOk tr _ (Variant_init_NavOk env0 sw)) as (st' & Hrun & Hpos & Hle).
    exists st'. split; [exact Hrun|]. split; [exact Hpos|exact Hle].
Qed.

Lemma jump_clamps_witness :
  (exists st', Script.jumpToIndex Demo.env3 7 "smooth" Demo.script0 = Some st' /\
     sections st' = sections Demo.script0 /\
     currentIndex st' = clamp 7 0 (Z.of_nat (length (sections Demo.script0)) - 1) /\
     0 <= currentIndex st' <= Z.of_nat (length (sections Demo.script0)) - 1) /\
  (exists st', Variant.scrollToIndex Demo.env3 (-3) Demo.variant0 = Some st' /\
     sections st' = sections Demo.variant0 /\
     currentIndex st' = clamp (-3) 0 (Z.of_nat (length (sections Demo.variant0)) - 1) /\
     0 <= currentIndex st' <= Z.of_nat (length (sections Demo.variant0)) - 1).
Proof.
  destruct jump_clamps as (Hs & Hv & _). split.
  - apply (Hs "smooth"%string Demo.env3 7 Demo.script0). discriminate.
  - apply (Hv Demo.env3 (-3) Demo.variant0). discriminate.
Defined.

(** ** The input lock and its safety timer *)

Section LockFacts.
Context {C X : Type}.
Variable cbLockExpire : C.
Variable cbWheelReset : C.
Variable MAX_LOCK_MS : Z.
Hypothesis lock_not_wheel : cbWheelReset <> cbLockExpire.
Implicit Type st : State C X.

(** While the lock is held, [lockTimer] names a pending timer that runs
    the unlocking callback after [MAX_LOCK_MS]. *)
Definition LockOk st : Prop :=
  locked st = true ->
  exists id, lockTimer st = Some id /\ (id < nextId st)%nat /\
             tasks st !! id = Some (Timeout MAX_LOCK_MS, cbLockExpire).

(** A timer variable [v] holds an id that was handed out, and a task
    still pending under that id runs the callback [cb]. *)
Definition Points (v : option nat) (cb : C) st : Prop :=
  forall id, v = Some id ->
    (id < nextId st)%nat /\ forall k cb', tasks st !! id = Some (k, cb') -> cb' = cb.

(** From [st] to [st'] ids were only handed out, and tasks under old ids
    were only removed. *)
Definition Evolves st st' : Prop :=
  (nextId st <= nextId st')%nat /\
  forall id, (id < nextId st)%nat ->
    tasks st' !! id = tasks st !! id \/ tasks st' !! id = None.

Lemma Evolves_refl st : Evolves st st.
Proof. split; [lia|]. intros; by left. Qed.

Lemma Evolves_trans st1 st2 st3 : Evolves st1 st2 -> Evolves st2 st3 -> Evolves st1 st3.
Proof.
  intros [Hn1 H1] [Hn2 H2]. split; [lia|]. intros id Hid.
  destruct (H2 id ltac:(lia)) as [E2|E2]; [|by right].
  rewrite E2. by apply H1.
Qed.

Lemma Evolves_same st st' :
  tasks st' = tasks st -> nextId st' = nextId st -> Evolves st st'.
Proof. intros Ht Hn. split; [lia|]. intros id _. left. by rewrite Ht. Qed.

Lemma Points_Evolves v cb st st' : Evolves st st' -> Points v cb st -> Points v cb st'.
Proof.
  intros [Hn He] Hp id Hv. destruct (Hp id Hv) as [Hlt Hcb].
  split; [lia|]. intros k cb' Hk.
  destruct (He id Hlt) as [E|E]; rewrite E in Hk; [by eapply Hcb|discriminate].
Qed.

Lemma Points_None cb st : Points None cb st.
Proof. intros id [=]. Qed.

Lemma Evolves_setTimeout cb ms st : Evolves st (snd (setTimeout cb ms st)).
Proof.
  split; cbn; [lia|]. intros id Hid. left. apply lookup_insert_ne. lia.
Qed.

Lemma Evolves_requestAnimationFrame cb st : Evolves st (snd (requestAnimationFrame cb st)).
Proof.
  split; cbn; [lia|]. intros id Hid. left. apply lookup_insert_ne. lia.
Qed.

Lemma Evolves_clearTimeout id st : Evolves st (clearTimeout id st).
Proof.
  split; cbn; [lia|]. intros i _. destruct (decide (id = i)) as [->|Hne].
  - right. apply lookup_delete_eq.
  - left. by apply lookup_delete_ne.
Qed.

Lemma Evolves_clearIfSet v st : Evolves st (clearIfSet v st).
Proof. destruct v; [apply Evolves_clearTimeout|apply Evolves_refl]. Qed.

Lemma Points_setTimeout cb ms st :
  Points (Some (fst (setTimeout cb ms st))) cb (snd (setTimeout cb ms st)).
Proof.
  intros id [= <-]. cbn. split; [lia|]. intros k cb'. rewrite lookup_insert_eq. by intros [= _ <-].
Qed.

(** *** The lock invariant under each primitive step *)

Lemma LockOk_unlocked st : locked st = false -> LockOk st.
Proof. intros H Hl. congruence. Qed.

Lemma LockOk_same st st' :
  locked st' = locked st -> lockTimer st' = lockTimer st ->
  tasks st' = tasks st -> nextId st' = nextId st ->
  LockOk st -> LockOk st'.
Proof. unfold LockOk. intros -> -> -> ->. done. Qed.

Lemma LockOk_setTimeout cb ms st : LockOk st -> LockOk (snd (setTimeout cb ms st)).
Proof.
  intros Hok Hl. destruct (Hok Hl) as (id & Hid & Hlt & Htask).
  exists id. cbn. split; [exact Hid|]. split; [lia|].
  rewrite lookup_insert_ne by lia. exact Htask.
Qed.

Lemma LockOk_requestAnimationFrame cb st :
  LockOk st -> LockOk (snd (requestAnimationFrame cb st)).
Proof.
  intros Hok Hl. destruct (Hok Hl) as (id & Hid & Hlt & Htask).
  exists id. cbn. split; [exact Hid|]. split; [lia|].
  rewrite lookup_insert_ne by lia. exact Htask.
Qed.

Lemma LockOk_clearTimeout w st :
  (forall k cb, tasks st !! w = Some (k, cb) -> cb <> cbLockExpire) ->
  LockOk st -> LockOk (clearTimeout w st).
Proof.
  intros Hw Hok Hl. destruct (Hok Hl) as (id & Hid & Hlt & Htask).
  exists id. cbn. split; [exact Hid|]. split; [exact Hlt|].
  rewrite lookup_delete_ne; [exact Htask|].
  intros ->. by eapply Hw.
Qed.

Lemma LockOk_clearIfSet v cb st :
  cb <> cbLockExpire -> Points v cb st -> LockOk st -> LockOk (clearIfSet v st).
Proof.
  intros Hcb Hp Hok. destruct v as [w|]; [|exact Hok].
  apply LockOk_clearTimeout; [|exact Hok].
  intros k cb' Hk. destruct (Hp w eq_refl) as [_ Hc]. by rewrite (Hc k cb' Hk).
Qed.

Lemma LockOk_lockInput st : LockOk (lockInput cbLockExpire MAX_LOCK_MS st).
Proof.
  intros _. exists (nextId st).
  destruct st as [? ? ? lt ? ? ? ? ? ? ?]. destruct lt; cbn.
  all: split; [reflexivity|]; split; [lia|apply lookup_insert_eq].
Qed.

Lemma LockOk_unlockInput st : LockOk (unlockInput st).
Proof.
  apply LockOk_unlocked. destruct st as [? ? ? lt ? ? ? ? ? ? ?]. by destruct lt.
Qed.

Lemma Evolves_lockInput st : Evolves st (lockInput cbLockExpire MAX_LOCK_MS st).
Proof.
  destruct st as [? ? ? lt ? ? ? tk nid ? ?]. destruct lt as [l|]; split; cbn; try lia.
  - intros id Hid. rewrite lookup_insert_ne by lia.
    destruct (decide (l = id)) as [->|Hne];
      [right; apply lookup_delete_eq|left; by apply lookup_delete_ne].
  - intros id Hid. left. apply lookup_insert_ne. lia.
Qed.

Lemma Evolves_unlockInput st : Evolves st (unlockInput st).
Proof.
  destruct st as [? ? ? lt ? ? ? tk nid ? ?].
  destruct lt as [l|]; split; cbn; try lia; intros id _; [|by left].
  destruct (decide (l = id)) as [->|?];
    [right; apply lookup_delete_eq|left; by apply lookup_delete_ne].
Qed.

Lemma Evolves_clearTimers st : Evolves st (clearTimers st).
Proof.
  destruct st as [? ? ? lt ? wt ? tk nid ? ?].
  destruct lt as [l|], wt as [w|]; split; cbn; try lia; intros id _.
  - destruct (decide (w = id)) as [->|?]; [right; apply lookup_delete_eq|].
    rewrite lookup_delete_ne by done.
    destruct (decide (l = id)) as [->|?];
      [right; apply lookup_delete_eq|left; by apply lookup_delete_ne].
  - destruct (decide (l = id)) as [->|?];
      [right; apply lookup_delete_eq|left; by apply lookup_delete_ne].
  - destruct (decide (w = id)) as [->|?];
      [right; apply lookup_delete_eq|left; by apply lookup_delete_ne].
  - by left.
Qed.

Lemma Evolves_accumulate d st : Evolves st (accumulate cbWheelReset d st).
Proof.
  destruct st as [? ? ? ? ? wt ? tk nid ? ?]. destruct wt as [w|]; split; cbn; try lia.
  - intros id Hid. rewrite lookup_insert_ne by lia.
    destruct (decide (w = id)) as [->|?];
      [right; apply lookup_delete_eq|left; by apply lookup_delete_ne].
  - intros id Hid. left. apply lookup_insert_ne. lia.
Qed.

Lemma LockOk_accumulate d st :
  Points (wheelResetTimer st) cbWheelReset st ->
  LockOk st -> LockOk (accumulate cbWheelReset d st).
Proof.
  intros Hp Hok Hl.
  pose proof (accumulate_Accumulated cbWheelReset d st) as HA.
  rewrite (acc_locked _ _ _ _ HA) in Hl.
  destruct (Hok Hl) as (id & Hid & Hlt & Htask).
  exists id. rewrite (acc_lockTimer _ _ _ _ HA). split; [exact Hid|].
  destruct (Evolves_accumulate d st) as [Hn He]. split; [lia|].
  destruct st as [? ? ? ? ? wt ? tk nid ? ?]. cbn in *.
  destruct wt as [w|]; cbn.
  - rewrite lookup_insert_ne by lia. rewrite lookup_delete_ne; [exact Htask|].
    intros ->. destruct (Hp id eq_refl) as [_ Hc].
    apply lock_not_wheel. symmetry. by eapply Hc.
  - rewrite lookup_insert_ne by lia. exact Htask.
Qed.

Lemma Points_accumulate d st :
  Points (wheelResetTimer (accumulate cbWheelReset d st)) cbWheelReset
    (accumulate cbWheelReset d st).
Proof.
  destruct st as [? ? ? ? ? wt ? tk nid ? ?].
  destruct wt as [w|]; intros id [= <-]; cbn; (split; [lia|]);
    intros k cb'; rewrite lookup_insert_eq; by intros [= _ <-].
Qed.

End LockFacts.

(** The variables and the store the lock invariant depends on. *)
Definition tm {C X} (st : State C X) :=
  (locked st, lockTimer st, wheelResetTimer st, tasks st, nextId st).

Lemma tm_syncState {C X} env (st : State C X) : tm (syncState env st) = tm st.
Proof. unfold syncState. cbn [sections set_sections]. by destruct (getSections env). Qed.

Lemma tm_attachListeners {C X} (st : State C X) : tm (attachListeners st) = tm st.
Proof. unfold attachListeners. by destruct (listenersAttached st). Qed.

Lemma tm_detachListeners {C X} (st : State C X) : tm (detachListeners st) = tm st.
Proof. unfold detachListeners. by destruct (listenersAttached st). Qed.

Lemma tm_set_ext {C X} (x : X) (st : State C X) : tm (set_ext x st) = tm st.
Proof. reflexivity. Qed.

Lemma tm_emit {C X} e (st : State C X) : tm (emit e st) = tm st.
Proof. reflexivity. Qed.

Lemma tm_set_currentIndex {C X} v (st : State C X) : tm (set_currentIndex v st) = tm st.
Proof. reflexivity. Qed.

Lemma tm_set_wheelAccum {C X} v (st : State C X) : tm (set_wheelAccum v st) = tm st.
Proof. reflexivity. Qed.

Lemma LockOk_tm {C X} (cb : C) ms (st st' : State C X) :
  tm st' = tm st -> LockOk cb ms st -> LockOk cb ms st'.
Proof. unfold tm. intros [= H1 H2 H3 H4 H5]. by apply LockOk_same. Qed.

Lemma Points_tm {C X} (cb : C) (st st' : State C X) :
  tm st' = tm st ->
  Points (wheelResetTimer st) cb st -> Points (wheelResetTimer st') cb st'.
Proof.
  unfold tm. intros [= H1 H2 H3 H4 H5]. rewrite H3.
  apply Points_Evolves. by apply Evolves_same.
Qed.

(** *** The second variant *)

Definition VariantInv (st : Variant.St) : Prop :=
  LockOk Variant.CbLockExpire Variant.MAX_LOCK_MS st /\
  Points (wheelResetTimer st) Variant.CbWheelReset st.

Lemma VariantInv_tm (st st' : Variant.St) : tm st' = tm st -> VariantInv st -> VariantInv st'.
Proof. intros H [HL HW]. split; [by eapply LockOk_tm|by eapply Points_tm]. Qed.

Lemma VariantInv_unlocked (st st' : Variant.St) :
  locked st' = false -> wheelResetTimer st' = wheelResetTimer st -> Evolves st st' ->
  VariantInv st -> VariantInv st'.
Proof.
  intros Hl Hw He [_ HW]. split; [by apply LockOk_unlocked|].
  rewrite Hw. by eapply Points_Evolves.
Qed.

Lemma VariantInv_setTimeout cb ms (st : Variant.St) :
  VariantInv st -> VariantInv (snd (setTimeout cb ms st)).
Proof.
  intros [HL HW]. split; [by apply LockOk_setTimeout|].
  eapply Points_Evolves; [apply Evolves_setTimeout|exact HW].
Qed.

Lemma VariantInv_requestAnimationFrame cb (st : Variant.St) :
  VariantInv st -> VariantInv (snd (requestAnimationFrame cb st)).
Proof.
  intros [HL HW]. split; [by apply LockOk_requestAnimationFrame|].
  eapply Points_Evolves; [apply Evolves_requestAnimationFrame|exact HW].
Qed.

Lemma VariantInv_accumulate d (st : Variant.St) :
  VariantInv st -> VariantInv (accumulate Variant.CbWheelReset d st).
Proof.
  intros [HL HW]. split; [by apply LockOk_accumulate|apply Points_accumulate].
Qed.

Lemma VariantInv_lockInput (st : Variant.St) : VariantInv st -> VariantInv (Variant.lockInput st).
Proof.
  intros [HL HW]. split; [apply LockOk_lockInput|].
  replace (wheelResetTimer (Variant.lockInput st)) with (wheelResetTimer st)
    by (destruct st as [? ? ? lt ? ? ? ? ? ? ?]; by destruct lt).
  eapply Points_Evolves; [apply Evolves_lockInput|exact HW].
Qed.

Lemma VariantInv_unlockInput (st : Variant.St) : VariantInv st -> VariantInv (unlockInput st).
Proof.
  intros [HL HW]. split; [apply LockOk_unlockInput|].
  replace (wheelResetTimer (unlockInput st)) with (wheelResetTimer st)
    by (destruct st as [? ? ? lt ? ? ? ? ? ? ?]; by destruct lt).
  eapply Points_Evolves; [apply Evolves_unlockInput|exact HW].
Qed.

Lemma VariantInv_scrollToIndex env idx (st st' : Variant.St) :
  Variant.scrollToIndex env idx st = Some st' -> VariantInv st -> VariantInv st'.
Proof.
  unfold Variant.scrollToIndex. intros H Hinv.
  destruct (sections st) as [|s l] eqn:Hs; [by injection H as <-|].
  destruct (_ !! _) as [sec|] in H; [|discriminate].
  cbn [mbind option_bind] in H. injection H as <-.
  unfold Variant.waitForSettle. apply VariantInv_setTimeout.
  eapply VariantInv_tm; [unfold Variant.upd; rewrite !tm_set_ext, tm_emit; reflexivity|].
  apply VariantInv_lockInput.
  eapply VariantInv_tm; [rewrite !tm_set_currentIndex; reflexivity|exact Hinv].
Qed.

Lemma VariantInv_hardReInit (st : Variant.St) : VariantInv st -> VariantInv (Variant.hardReInit st).
Proof.
  intros _. unfold Variant.hardReInit. split.
  - apply LockOk_unlocked. reflexivity.
  - replace (wheelResetTimer _) with (@None nat); [apply Points_None|].
    destruct_variant st. unfold Variant.clearAllTimers, Variant.upd, Variant.callStopper.
    by destruct la, lt, wt, ss.
Qed.

Lemma VariantInv_check env sid (st : Variant.St) :
  VariantInv st -> VariantInv (Variant.check env sid st).
Proof.
  intros Hinv. unfold Variant.check.
  destruct (Variant.settles (ext st) !! sid) as [s|]; [|exact Hinv].
  destruct (Variant.cancelled s); [exact Hinv|].
  destruct (Variant.SETTLE_REQUIRED_STEPS <=? _).
  - eapply VariantInv_tm; [reflexivity|]. apply VariantInv_unlockInput.
    eapply VariantInv_tm; [|exact Hinv]. reflexivity.
  - apply VariantInv_setTimeout. eapply VariantInv_tm; [|exact Hinv]. reflexivity.
Qed.

Lemma VariantInv_fire env id k cb (st : Variant.St) :
  tasks st !! id = Some (k, cb) ->
  VariantInv st -> VariantInv (Variant.runCallback env cb (clearTimeout id st)).
Proof.
  intros Hid [HL HW].
  assert (HW' : Points (wheelResetTimer (clearTimeout id st)) Variant.CbWheelReset
                  (clearTimeout id st)).
  { eapply Points_Evolves; [apply Evolves_clearTimeout|exact HW]. }
  assert (Hother : cb <> Variant.CbLockExpire -> VariantInv (clearTimeout id st)).
  { intros Hcb. split; [|exact HW']. apply LockOk_clearTimeout; [|exact HL].
    intros k' cb' Hk. rewrite Hid in Hk. by injection Hk as _ <-. }
  destruct cb; cbn [Variant.runCallback].
  - split; [by apply LockOk_unlocked|exact HW'].
  - eapply VariantInv_tm; [|by apply Hother]. reflexivity.
  - apply VariantInv_check. by apply Hother.
  - eapply VariantInv_tm; [apply tm_syncState|by apply Hother].
  - apply VariantInv_requestAnimationFrame. by apply Hother.
  - eapply VariantInv_tm; [|by apply Hother].
    rewrite tm_attachListeners. apply tm_syncState.
Qed.

Lemma VariantInv_step env ev (st st' : Variant.St) :
  Variant.step env ev st = Some st' -> VariantInv st -> VariantInv st'.
Proof.
  intros Hstep Hinv. destruct ev; cbn [Variant.step] in Hstep.
  - destruct (listenersAttached st); [|by injection Hstep as <-].
    unfold Variant.onWheel in Hstep.
    destruct (onWheel_cases Variant.CbWheelReset Variant.scrollToIndex env e st)
      as [H|[H|(_ & [H|(idx & H)])]]; rewrite H in Hstep.
    + by injection Hstep as <-.
    + injection Hstep as <-. eapply VariantInv_tm; [|exact Hinv]. reflexivity.
    + injection Hstep as <-. by apply VariantInv_accumulate.
    + eapply VariantInv_scrollToIndex; [exact Hstep|].
      eapply VariantInv_tm; [reflexivity|]. by apply VariantInv_accumulate.
  - destruct (listenersAttached st); [|by injection Hstep as <-].
    unfold Variant.onKeyDown in Hstep.
    destruct (onKeyDown_cases Variant.scrollToIndex env e st)
      as [H|[H|(_ & _ & idx & H)]]; rewrite H in Hstep.
    + by injection Hstep as <-.
    + injection Hstep as <-. eapply VariantInv_tm; [|exact Hinv]. reflexivity.
    + eapply VariantInv_scrollToIndex; [exact Hstep|].
      eapply VariantInv_tm; [|exact Hinv]. reflexivity.
  - destruct (Variant.resizeListener (ext st)); injection Hstep as <-; [|exact Hinv].
    eapply VariantInv_tm; [apply tm_syncState|exact Hinv].
  - destruct (Variant.hashListener (ext st)); injection Hstep as <-; [|exact Hinv].
    by apply VariantInv_setTimeout.
  - destruct (Variant.observer (ext st)); injection Hstep as <-; [|exact Hinv].
    induction ms as [|m ms IH]; [exact Hinv|]. cbn [Variant.onMutations].
    destruct (_ && _)%bool; [by apply VariantInv_hardReInit|exact IH].
  - destruct (Variant.themeSwitch (ext st)) as [sw|]; injection Hstep as <-; [|exact Hinv].
    set (st1 := Variant.upd _ st).
    assert (Hinv1 : VariantInv st1) by (eapply VariantInv_tm; [|exact Hinv]; reflexivity).
    clearbody st1.
    induction (onChange sw) as [|h hs IH] in st1, Hinv1 |- *; [exact Hinv1|].
    cbn [foldl]. apply IH. destruct h. by apply VariantInv_hardReInit.
  - destruct (tasks st !! id) as [[k cb]|] eqn:Hid; injection Hstep as <-; [|exact Hinv].
    by eapply VariantInv_fire.
Qed.

Lemma VariantInv_init env sw : VariantInv (Variant.init env (Variant.initial sw)).
Proof.
  eapply VariantInv_tm with (st := Variant.initial sw).
  - unfold Variant.init, Variant.upd.
    destruct (Variant.themeSwitch _); cbn [tm locked lockTimer wheelResetTimer tasks nextId set_ext];
      change (tm (attachListeners (syncState env (Variant.initial sw))) = tm (Variant.initial sw));
      rewrite tm_attachListeners; apply tm_syncState.
  - split; [by apply LockOk_unlocked|apply Points_None].
Qed.

Lemma VariantInv_run tr : forall st st' : Variant.St,
  Variant.run tr st = Some st' -> VariantInv st -> VariantInv st'.
Proof.
  induction tr as [|[env ev] tr IH]; intros st st' Hrun Hinv; cbn [Variant.run] in Hrun.
  - by injection Hrun as <-.
  - destruct (Variant.step env ev st) as [st1|] eqn:Hstep; [|discriminate].
    cbn in Hrun. eapply IH; [exact Hrun|]. by eapply VariantInv_step.
Qed.

(** *** [script.js] *)

Section EvolvesMore.
Context {C X : Type}.
Implicit Type st : State C X.

Lemma Evolves_tm st st' : tm st' = tm st -> Evolves st st'.
Proof. unfold tm. intros [= _ _ _ Ht Hn]. by apply Evolves_same. Qed.

Lemma Evolves_emit e st : Evolves st (emit e st).
Proof. by apply Evolves_tm. Qed.

Lemma Evolves_set_ext (x : X) st : Evolves st (set_ext x st).
Proof. by apply Evolves_tm. Qed.

Lemma Evolves_set_wheelAccum v st : Evolves st (set_wheelAccum v st).
Proof. by apply Evolves_tm. Qed.

Lemma Evolves_set_currentIndex v st : Evolves st (set_currentIndex v st).
Proof. by apply Evolves_tm. Qed.

Lemma Evolves_set_locked v st : Evolves st (set_locked v st).
Proof. by apply Evolves_same. Qed.

Lemma Evolves_syncState env st : Evolves st (syncState env st).
Proof. apply Evolves_tm, tm_syncState. Qed.

Lemma Evolves_attachListeners st : Evolves st (attachListeners st).
Proof. apply Evolves_tm, tm_attachListeners. Qed.

Lemma Evolves_detachListeners st : Evolves st (detachListeners st).
Proof. apply Evolves_tm, tm_detachListeners. Qed.

End EvolvesMore.

(** Decompose a nested sequence of primitive steps. *)
Ltac evolves_step :=
  lazymatch goal with
  | |- Evolves ?s ?s => apply Evolves_refl
  | |- Evolves _ (snd (setTimeout _ _ _)) => eapply Evolves_trans; [|apply Evolves_setTimeout]
  | |- Evolves _ (snd (requestAnimationFrame _ _)) =>
      eapply Evolves_trans; [|apply Evolves_requestAnimationFrame]
  | |- Evolves _ (clearTimeout _ _) => eapply Evolves_trans; [|apply Evolves_clearTimeout]
  | |- Evolves _ (clearIfSet _ _) => eapply Evolves_trans; [|apply Evolves_clearIfSet]
  | |- Evolves _ (lockInput _ _ _) => eapply Evolves_trans; [|apply Evolves_lockInput]
  | |- Evolves _ (unlockInput _) => eapply Evolves_trans; [|apply Evolves_unlockInput]
  | |- Evolves _ (clearTimers _) => eapply Evolves_trans; [|apply Evolves_clearTimers]
  | |- Evolves _ (accumulate _ _ _) => eapply Evolves_trans; [|apply Evolves_accumulate]
  | |- Evolves _ (emit _ _) => eapply Evolves_trans; [|apply Evolves_emit]
  | |- Evolves _ (set_ext _ _) => eapply Evolves_trans; [|apply Evolves_set_ext]
  | |- Evolves _ (set_wheelAccum _ _) => eapply Evolves_trans; [|apply Evolves_set_wheelAccum]
  | |- Evolves _ (set_currentIndex _ _) =>
      eapply Evolves_trans; [|apply Evolves_set_currentIndex]
  | |- Evolves _ (set_locked _ _) => eapply Evolves_trans; [|apply Evolves_set_locked]
  | |- Evolves _ (syncState _ _) => eapply Evolves_trans; [|apply Evolves_syncState]
  | |- Evolves _ (attachListeners _) => eapply Evolves_trans; [|apply Evolves_attachListeners]
  | |- Evolves _ (detachListeners _) => eapply Evolves_trans; [|apply Evolves_detachListeners]
  end.

Ltac evolves := repeat evolves_step.

Lemma Script_lock_not_wheel : Script.CbWheelReset <> Script.CbLockExpire.
Proof. discriminate. Qed.

Lemma Evolves_jumpToIndex env idx b (st st' : Script.St) :
  Script.jumpToIndex env idx b st = Some st' -> Evolves st st'.
Proof.
  unfold Script.jumpToIndex. intros H.
  destruct (sections st) as [|s l] eqn:Hs; [injection H as <-; apply Evolves_refl|].
  destruct (_ !! _) as [sec|] in H; [|discriminate].
  cbn [mbind option_bind] in H. apply (inj Some) in H. subst st'.
  unfold Script.lockInput. evolves.
Qed.

Lemma stabilize_unfold (st : Script.St) :
  Script.stabilizeAfterThemeSwitch st
  = Script.upd (Script.set_themeStabilizeTimer (Some (nextId st)))
      (snd (setTimeout Script.CbStabilize 50
              (clearIfSet (Script.themeStabilizeTimer (ext st)) st))).
Proof.
  unfold Script.stabilizeAfterThemeSwitch.
  by destruct (Script.themeStabilizeTimer (ext st)).
Qed.

Lemma Evolves_stabilize (st : Script.St) : Evolves st (Script.stabilizeAfterThemeSwitch st).
Proof. rewrite stabilize_unfold. unfold Script.upd. evolves. Qed.

Lemma Evolves_applyTheme mode (st : Script.St) : Evolves st (Script.applyTheme mode st).
Proof.
  unfold Script.applyTheme.
  eapply Evolves_trans; [|apply Evolves_stabilize].
  destruct (Script.themeSwitch _); unfold Script.upd; evolves.
Qed.

(** The timer variables of [script.js] other than [lockTimer], and the
    flag that tells whether the handlers are attached. *)
Definition pv (st : Script.St) :=
  (wheelResetTimer st, Script.themeStabilizeTimer (ext st), listenersAttached st).

(** Both timer variables point to tasks of their own kind, and, if [b]
    holds, the lock has its safety timer. [b] will be the
    [listenersAttached] flag: [destroy] clears the timers without
    releasing the lock, but it also detaches the handlers. *)
Definition ScriptG (b : bool) (st : Script.St) : Prop :=
  Points (wheelResetTimer st) Script.CbWheelReset st /\
  Points (Script.themeStabilizeTimer (ext st)) Script.CbStabilize st /\
  (b = true -> LockOk Script.CbLockExpire Script.MAX_LOCK_MS st).

Definition ScriptInv (st : Script.St) : Prop := ScriptG (listenersAttached st) st.

Lemma ScriptG_pts b (st st' : Script.St) :
  Evolves st st' -> pv st' = pv st ->
  (b = true -> LockOk Script.CbLockExpire Script.MAX_LOCK_MS st') ->
  ScriptG b st -> ScriptG b st'.
Proof.
  intros He [= Hw Ht _] HL (HW & HT & _). unfold ScriptG. rewrite Hw, Ht.
  split; [by eapply Points_Evolves|]. split; [by eapply Points_Evolves|exact HL].
Qed.

Lemma ScriptG_tm b (st st' : Script.St) :
  tm st' = tm st -> pv st' = pv st -> ScriptG b st -> ScriptG b st'.
Proof.
  intros Htm Hpv HG. eapply ScriptG_pts; [by apply Evolves_tm|exact Hpv| |exact HG].
  intros Hb. eapply LockOk_tm; [exact Htm|]. by apply HG.
Qed.

Lemma ScriptG_setTimeout b cb ms (st : Script.St) :
  ScriptG b st -> ScriptG b (snd (setTimeout cb ms st)).
Proof.
  intros HG. eapply ScriptG_pts; [apply Evolves_setTimeout|reflexivity| |exact HG].
  intros Hb. apply LockOk_setTimeout. by apply HG.
Qed.

Lemma ScriptG_requestAnimationFrame b cb (st : Script.St) :
  ScriptG b st -> ScriptG b (snd (requestAnimationFrame cb st)).
Proof.
  intros HG. eapply ScriptG_pts; [apply Evolves_requestAnimationFrame|reflexivity| |exact HG].
  intros Hb. apply LockOk_requestAnimationFrame. by apply HG.
Qed.

Lemma ScriptG_accumulate b d (st : Script.St) :
  ScriptG b st -> ScriptG b (accumulate Script.CbWheelReset d st).
Proof.
  intros (HW & HT & HL).
  pose proof (accumulate_Accumulated Script.CbWheelReset d st) as HA.
  split; [apply Points_accumulate|]. split.
  - rewrite (acc_ext _ _ _ _ HA). eapply Points_Evolves; [apply Evolves_accumulate|exact HT].
  - intros Hb. apply LockOk_accumulate; [exact Script_lock_not_wheel|exact HW|by apply HL].
Qed.

Lemma ScriptG_jumpToIndex b env idx beh (st st' : Script.St) :
  Script.jumpToIndex env idx beh st = Some st' -> ScriptG b st -> ScriptG b st'.
Proof.
  intros Hj HG.
  destruct (jumpToIndex_total env idx beh st) as (st2 & Hj2 & Hcase).
  rewrite Hj in Hj2. apply (inj Some) in Hj2. subst st2.
  destruct Hcase as [[_ ->]|[_ HJ]]; [exact HG|].
  eapply ScriptG_pts; [by eapply Evolves_jumpToIndex| | |exact HG].
  - unfold pv. by rewrite (jumped_wheelResetTimer _ _ _ _ _ HJ), (jumped_ext _ _ _ _ _ HJ),
      (jumped_listeners _ _ _ _ _ HJ).
  - intros _ _. exists (nextId st). split; [apply (jumped_lockTimer _ _ _ _ _ HJ)|].
    split; [rewrite (jumped_nextId _ _ _ _ _ HJ); lia|apply (jumped_lockTask _ _ _ _ _ HJ)].
Qed.

Lemma pv_unlockInput (st : Script.St) : pv (unlockInput st) = pv st.
Proof. destruct st as [? ? ? lt ? ? ? ? ? ? ?]. by destruct lt. Qed.

Lemma pv_syncState env (st : Script.St) : pv (syncState env st) = pv st.
Proof. unfold syncState. cbn [sections set_sections]. by destruct (getSections env). Qed.

Lemma ScriptG_unlock_sync b env (st : Script.St) :
  ScriptG b st -> ScriptG b (unlockInput (syncState env st)).
Proof.
  intros HG. apply (ScriptG_pts b st); [evolves|by rewrite pv_unlockInput, pv_syncState| |exact HG].
  intros _. apply LockOk_unlockInput.
Qed.

Lemma ScriptG_stabilize b (st : Script.St) :
  ScriptG b st -> ScriptG b (Script.stabilizeAfterThemeSwitch st).
Proof.
  intros (HW & HT & HL). rewrite stabilize_unfold.
  set (st1 := clearIfSet (Script.themeStabilizeTimer (ext st)) st).
  assert (Hn : nextId st1 = nextId st) by (subst st1; by destruct (Script.themeStabilizeTimer _)).
  assert (Hw : wheelResetTimer st1 = wheelResetTimer st)
    by (subst st1; by destruct (Script.themeStabilizeTimer _)).
  split; [|split].
  - cbn [Script.upd wheelResetTimer set_ext snd setTimeout set_nextId set_tasks]. rewrite Hw.
    eapply Points_Evolves; [|exact HW].
    eapply Evolves_trans; [apply Evolves_clearIfSet|].
    eapply Evolves_trans; [apply (Evolves_setTimeout Script.CbStabilize 50)|].
    apply Evolves_set_ext.
  - rewrite <- Hn.
    eapply Points_Evolves; [apply Evolves_set_ext|].
    apply (Points_setTimeout Script.CbStabilize 50 st1).
  - intros Hb. eapply LockOk_tm; [reflexivity|]. apply LockOk_setTimeout.
    eapply LockOk_clearIfSet; [|exact HT|by apply HL]. discriminate.
Qed.

Lemma ScriptG_applyTheme b mode (st : Script.St) :
  ScriptG b st -> ScriptG b (Script.applyTheme mode st).
Proof.
  intros HG. unfold Script.applyTheme. apply ScriptG_stabilize.
  destruct (Script.themeSwitch _); (eapply ScriptG_tm; [reflexivity|reflexivity|exact HG]).
Qed.

Lemma pv_stabilize (st : Script.St) :
  listenersAttached (Script.stabilizeAfterThemeSwitch st) = listenersAttached st.
Proof. rewrite stabilize_unfold. by destruct (Script.themeStabilizeTimer (ext st)). Qed.

Lemma attached_applyTheme mode (st : Script.St) :
  listenersAttached (Script.applyTheme mode st) = listenersAttached st.
Proof.
  unfold Script.applyTheme. rewrite pv_stabilize. by destruct (Script.themeSwitch _).
Qed.

Lemma attached_pv (st st' : Script.St) :
  pv st' = pv st -> listenersAttached st' = listenersAttached st.
Proof. unfold pv. by intros [= _ _ H]. Qed.

Lemma attached_jumpToIndex env idx beh (st st' : Script.St) :
  Script.jumpToIndex env idx beh st = Some st' ->
  listenersAttached st' = listenersAttached st.
Proof.
  intros Hj. destruct (jumpToIndex_total env idx beh st) as (st2 & Hj2 & Hcase).
  rewrite Hj in Hj2. apply (inj Some) in Hj2. subst st2.
  destruct Hcase as [[_ ->]|[_ HJ]]; [reflexivity|apply (jumped_listeners _ _ _ _ _ HJ)].
Qed.

Lemma ScriptG_clearTimeout b id k cb (st : Script.St) :
  tasks st !! id = Some (k, cb) -> cb <> Script.CbLockExpire ->
  ScriptG b st -> ScriptG b (clearTimeout id st).
Proof.
  intros Hid Hcb HG. apply (ScriptG_pts b st); [apply Evolves_clearTimeout|reflexivity| |exact HG].
  intros Hb. apply LockOk_clearTimeout; [|by apply HG].
  intros k' cb' Hk. rewrite Hid in Hk. apply (inj Some) in Hk. by injection Hk as _ <-.
Qed.

(** The body of the 50 ms stabilisation callback up to its
    [requestAnimationFrame]. *)
Lemma ScriptG_stabilize_callback b env (st : Script.St) :
  let st1 := unlockInput (set_wheelAccum 0 (clearTimers st)) in
  let st2 := match activeElement env with
             | Some el => if canBlur el then emit Blur st1 else st1
             | None => st1
             end in
  ScriptG b st ->
  ScriptG b (Script.upd (Script.set_scrollBehavior "auto") st2) /\
  listenersAttached (Script.upd (Script.set_scrollBehavior "auto") st2) = listenersAttached st.
Proof.
  intros st1 st2 (HW & HT & _).
  assert (Hev : Evolves st st1) by (subst st1; evolves).
  assert (Hf : wheelResetTimer st1 = None /\ locked st1 = false /\
               Script.themeStabilizeTimer (ext st1) = Script.themeStabilizeTimer (ext st) /\
               listenersAttached st1 = listenersAttached st).
  { subst st1. destruct st as [? ? ? lt ? wt ? ? ? ? ?]. by destruct lt, wt. }
  destruct Hf as (Hw & Hl & Ht & Ha).
  assert (H2 : tm st2 = tm st1 /\ pv st2 = pv st1).
  { subst st2. destruct (activeElement env) as [[? ? []]|]; by split. }
  destruct H2 as [Htm Hpv].
  assert (HG1 : ScriptG b st1).
  { split; [rewrite Hw; apply Points_None|]. split.
    - rewrite Ht. by eapply Points_Evolves.
    - intros _. by apply LockOk_unlocked. }
  split.
  - eapply ScriptG_tm; [reflexivity|reflexivity|]. by eapply ScriptG_tm.
  - cbn [Script.upd listenersAttached set_ext]. by rewrite (attached_pv _ _ Hpv).
Qed.

Lemma ScriptG_fire b env id k cb (st st' : Script.St) :
  tasks st !! id = Some (k, cb) ->
  Script.runCallback env cb (clearTimeout id st) = Some st' ->
  ScriptG b st ->
  ScriptG b st' /\ listenersAttached st' = listenersAttached st.
Proof.
  intros Hid Hrun HG.
  assert (Hother : cb <> Script.CbLockExpire -> ScriptG b (clearTimeout id st)).
  { intros Hcb. by eapply ScriptG_clearTimeout. }
  destruct cb; cbn [Script.runCallback] in Hrun.
  - apply (inj Some) in Hrun. subst st'. split; [|reflexivity].
    apply (ScriptG_pts b st); [unfold runLockExpire; evolves|reflexivity| |exact HG].
    intros _. by apply LockOk_unlocked.
  - apply (inj Some) in Hrun. subst st'. split; [|reflexivity].
    eapply ScriptG_tm; [reflexivity|reflexivity|by apply Hother].
  - apply (inj Some) in Hrun. subst st'. split.
    + apply ScriptG_unlock_sync. by apply Hother.
    + apply attached_pv. by rewrite pv_unlockInput, pv_syncState.
  - apply (inj Some) in Hrun. subst st'.
    destruct (ScriptG_stabilize_callback b env (clearTimeout id st) (Hother ltac:(discriminate)))
      as [HG' Ha].
    split; [by apply ScriptG_requestAnimationFrame|exact Ha].
  - apply (inj Some) in Hrun. subst st'. split; [|reflexivity].
    apply ScriptG_requestAnimationFrame. by apply Hother.
  - destruct (Script.jumpToIndex _ _ _ _) as [st2|] eqn:Hj; [|discriminate].
    cbn [mbind option_bind] in Hrun. apply (inj Some) in Hrun. subst st'.
    split.
    + apply ScriptG_setTimeout. eapply ScriptG_jumpToIndex; [exact Hj|].
      eapply ScriptG_tm; [apply tm_syncState|apply pv_syncState|by apply Hother].
    + cbn [snd setTimeout listenersAttached set_nextId set_tasks].
      rewrite (attached_jumpToIndex _ _ _ _ _ Hj).
      apply attached_pv. by rewrite pv_syncState.
  - apply (inj Some) in Hrun. subst st'. split.
    + apply ScriptG_unlock_sync.
      eapply ScriptG_tm; [reflexivity|reflexivity|by apply Hother].
    + apply attached_pv. by rewrite pv_unlockInput, pv_syncState.
  - apply (inj Some) in Hrun. subst st'. split.
    + eapply ScriptG_tm; [apply tm_syncState|apply pv_syncState|by apply Hother].
    + apply attached_pv. by rewrite pv_syncState.
Qed.

Lemma jump_eq env idx (st : Script.St) :
  Script.jump env idx st = Script.jumpToIndex env idx "smooth" st.
Proof. reflexivity. Qed.

Lemma pv_emit e (st : Script.St) : pv (emit e st) = pv st.
Proof. reflexivity. Qed.

Lemma pv_set_wheelAccum v (st : Script.St) : pv (set_wheelAccum v st) = pv st.
Proof. reflexivity. Qed.

Lemma ScriptG_upd b f (st : Script.St) :
  Script.themeStabilizeTimer (f (ext st)) = Script.themeStabilizeTimer (ext st) ->
  ScriptG b st -> ScriptG b (Script.upd f st).
Proof.
  intros Hf HG. apply (ScriptG_tm b st); [reflexivity| |exact HG].
  unfold pv. cbn [Script.upd ext set_ext wheelResetTimer listenersAttached]. by rewrite Hf.
Qed.

Lemma ScriptG_onWheel b env e (st st' : Script.St) :
  Script.onWheel env e st = Some st' -> ScriptG b st ->
  ScriptG b st' /\ listenersAttached st' = listenersAttached st.
Proof.
  intros Hstep HG. unfold Script.onWheel in Hstep.
  pose proof (accumulate_Accumulated Script.CbWheelReset (deltaY e) st) as HA.
  destruct (onWheel_cases Script.CbWheelReset Script.jump env e st)
    as [H|[H|(_ & [H|(idx & H)])]]; rewrite H in Hstep.
  - apply (inj Some) in Hstep. by subst st'.
  - apply (inj Some) in Hstep. subst st'. split; [|reflexivity].
    eapply ScriptG_tm; [apply tm_emit|apply pv_emit|exact HG].
  - apply (inj Some) in Hstep. subst st'.
    split; [by apply ScriptG_accumulate|apply (acc_listeners _ _ _ _ HA)].
  - rewrite jump_eq in Hstep. split.
    + eapply ScriptG_jumpToIndex; [exact Hstep|].
      eapply ScriptG_tm;
        [by rewrite tm_set_wheelAccum, tm_emit|by rewrite pv_set_wheelAccum, pv_emit|].
      by apply ScriptG_accumulate.
    + rewrite (attached_jumpToIndex _ _ _ _ _ Hstep). apply (acc_listeners _ _ _ _ HA).
Qed.

Lemma ScriptG_onKeyDown b env e (st st' : Script.St) :
  Script.onKeyDown env e st = Some st' -> ScriptG b st ->
  ScriptG b st' /\ listenersAttached st' = listenersAttached st.
Proof.
  intros Hstep HG. unfold Script.onKeyDown in Hstep.
  destruct (onKeyDown_cases Script.jump env e st)
    as [H|[H|(_ & _ & idx & H)]]; rewrite H in Hstep.
  - apply (inj Some) in Hstep. by subst st'.
  - apply (inj Some) in Hstep. subst st'. split; [|reflexivity].
    eapply ScriptG_tm; [apply tm_emit|apply pv_emit|exact HG].
  - rewrite jump_eq in Hstep. split.
    + eapply ScriptG_jumpToIndex; [exact Hstep|].
      eapply ScriptG_tm; [apply tm_emit|apply pv_emit|exact HG].
    + by rewrite (attached_jumpToIndex _ _ _ _ _ Hstep).
Qed.

Lemma ScriptG_switchChange b (hs : list Script.ChangeHandler) : forall st1 : Script.St,
  ScriptG b st1 ->
  ScriptG b (foldl (fun s h => Script.runChangeHandler h s) st1 hs) /\
  listenersAttached (foldl (fun s h => Script.runChangeHandler h s) st1 hs)
    = listenersAttached st1.
Proof.
  induction hs as [|h hs IH]; intros st1 HG1; [by split|].
  cbn [foldl].
  assert (H1 : ScriptG b (Script.runChangeHandler h st1) /\
               listenersAttached (Script.runChangeHandler h st1) = listenersAttached st1).
  { unfold Script.runChangeHandler. destruct h.
    destruct (Script.themeSwitch (ext st1)); [|by split].
    split; [by apply ScriptG_applyTheme|by rewrite attached_applyTheme]. }
  destruct H1 as [HG2 Ha2]. destruct (IH _ HG2) as [HG3 Ha3].
  split; [exact HG3|by rewrite Ha3].
Qed.

Lemma ScriptG_step b env ev (st st' : Script.St) :
  Script.step env ev st = Some st' -> ev <> Script.EvDestroy ->
  ScriptG b st ->
  ScriptG b st' /\ listenersAttached st' = listenersAttached st.
Proof.
  intros Hstep Hev HG. destruct ev; cbn [Script.step] in Hstep; [| | | | | |done].
  - destruct (listenersAttached st) eqn:Ha; [|apply (inj Some) in Hstep; by subst st'].
    rewrite <- Ha. by eapply ScriptG_onWheel.
  - destruct (listenersAttached st) eqn:Ha; [|apply (inj Some) in Hstep; by subst st'].
    rewrite <- Ha. by eapply ScriptG_onKeyDown.
  - destruct (Script.resizeListener (ext st)); apply (inj Some) in Hstep; subst st'; [|done].
    split; [|apply attached_pv, pv_syncState].
    eapply ScriptG_tm; [apply tm_syncState|apply pv_syncState|exact HG].
  - destruct (Script.hashListener (ext st)); apply (inj Some) in Hstep; subst st'; [|done].
    split; [by apply ScriptG_setTimeout|reflexivity].
  - destruct (Script.themeSwitch (ext st)) as [sw|]; apply (inj Some) in Hstep; subst st';
      [|done].
    destruct (ScriptG_switchChange b (onChange sw)
                (Script.upd (Script.set_themeSwitch
                               (Some (mkCheckbox (negb (checked sw)) (onChange sw)))) st))
      as [HG' Ha'].
    { eapply ScriptG_tm; [reflexivity|reflexivity|exact HG]. }
    split; [exact HG'|exact Ha'].
  - destruct (tasks st !! id) as [[k cb]|] eqn:Hid; [|apply (inj Some) in Hstep; by subst st'].
    by eapply ScriptG_fire.
Qed.

Lemma ScriptG_destroy b (st : Script.St) :
  ScriptG b st ->
  ScriptG false (Script.destroy st) /\ listenersAttached (Script.destroy st) = false.
Proof.
  intros _.
  assert (Hf : wheelResetTimer (Script.destroy st) = None /\
               Script.themeStabilizeTimer (ext (Script.destroy st)) = None /\
               listenersAttached (Script.destroy st) = false).
  { destruct_script st. unfold Script.destroy, Script.upd. by destruct la, lt, wt, tst. }
  destruct Hf as (Hw & Ht & Ha). split; [|exact Ha].
  unfold ScriptG. rewrite Hw, Ht.
  split; [apply Points_None|]. split; [apply Points_None|done].
Qed.

Lemma ScriptInv_step env ev (st st' : Script.St) :
  Script.step env ev st = Some st' -> ScriptInv st -> ScriptInv st'.
Proof.
  intros Hstep Hinv. unfold ScriptInv in *.
  assert (Hcase : ev = Script.EvDestroy \/ ev <> Script.EvDestroy)
    by (destruct ev; try (right; discriminate); left; reflexivity).
  destruct Hcase as [->|Hev].
  - cbn [Script.step] in Hstep. apply (inj Some) in Hstep. subst st'.
    destruct (ScriptG_destroy _ st Hinv) as [HG ->]. exact HG.
  - destruct (ScriptG_step _ env ev st st' Hstep Hev Hinv) as [HG ->]. exact HG.
Qed.

Lemma ScriptInv_run tr : forall st st' : Script.St,
  Script.run tr st = Some st' -> ScriptInv st -> ScriptInv st'.
Proof.
  induction tr as [|[env ev] tr IH]; intros st st' Hrun Hinv; cbn [Script.run] in Hrun.
  - apply (inj Some) in Hrun. by subst st'.
  - destruct (Script.step env ev st) as [st1|] eqn:Hstep; [|discriminate].
    cbn in Hrun. eapply IH; [exact Hrun|]. by eapply ScriptInv_step.
Qed.

Lemma ScriptG_attachListeners b (st : Script.St) :
  ScriptG b st -> ScriptG b (attachListeners st).
Proof.
  intros HG. unfold attachListeners. destruct (listenersAttached st); [exact HG|].
  destruct HG as (HW & HT & HL). split; [exact HW|]. split; [exact HT|exact HL].
Qed.

Lemma ScriptG_initScroll b env (st : Script.St) :
  ScriptG b st -> ScriptG b (Script.initScroll env st).
Proof.
  intros HG. unfold Script.initScroll. apply ScriptG_upd; [reflexivity|].
  apply ScriptG_upd; [reflexivity|]. apply ScriptG_attachListeners.
  eapply ScriptG_tm; [apply tm_syncState|apply pv_syncState|exact HG].
Qed.

Lemma ScriptG_initTheme b (st : Script.St) : ScriptG b st -> ScriptG b (Script.initTheme st).
Proof.
  intros HG. unfold Script.initTheme. set (m := if bool_decide _ then _ else _).
  pose proof (ScriptG_applyTheme b m st HG) as H1.
  destruct (Script.themeSwitch (ext (Script.applyTheme m st))); [|exact H1].
  by apply ScriptG_upd.
Qed.

Lemma ScriptG_init b env (st : Script.St) : ScriptG b st -> ScriptG b (Script.init env st).
Proof. intros HG. unfold Script.init. by apply ScriptG_initTheme, ScriptG_initScroll. Qed.

Lemma ScriptInv_init env stor classes sw sb :
  ScriptInv (Script.init env (Script.initial stor classes sw sb)).
Proof.
  unfold ScriptInv. apply ScriptG_init.
  split; [apply Points_None|]. split; [apply Points_None|].
  intros _. by apply LockOk_unlocked.
Qed.

(** An unlocked controller handles a key press: the default is
    prevented and [next] runs. *)
Lemma onKeyDown_accepts {C X : Type} (jump : Env -> Z -> State C X -> option (State C X))
    env (st : State C X) :
  isOverlayOpen env = false -> isTyping env = false -> locked st = false ->
  onKeyDown jump env (mkKey "ArrowDown" false) st = next jump env (emit PreventDefault st).
Proof. intros Ho Ht Hl. unfold onKeyDown. rewrite Ho, Ht. cbn. by rewrite Hl. Qed.

Lemma Script_lockInput_arms (st : Script.St) :
  locked (Script.lockInput st) = true /\
  lockTimer (Script.lockInput st) = Some (nextId st) /\
  tasks (Script.lockInput st) !! nextId st = Some (Timeout 900, Script.CbLockExpire).
Proof.
  destruct st as [? ? ? lt ? ? ? ? ? ? ?].
  destruct lt; repeat split; apply lookup_insert_eq.
Qed.

Lemma Variant_lockInput_arms (st : Variant.St) :
  locked (Variant.lockInput st) = true /\
  lockTimer (Variant.lockInput st) = Some (nextId st) /\
  tasks (Variant.lockInput st) !! nextId st = Some (Timeout 1300, Variant.CbLockExpire).
Proof.
  destruct st as [? ? ? lt ? ? ? ? ? ? ?].
  destruct lt; repeat split; apply lookup_insert_eq.
Qed.

(** C6. [lockInput] sets the flag and arms a timer of [MAX_LOCK_MS]
    (900 ms in [script.js], 1300 ms in the other variant) whose callback
    clears the flag. The lock never outlives that timer: in every state
    a run of the controller can reach with its handlers attached, a held
    lock has its safety timer pending under the id in [lockTimer]; when
    that timer fires, whatever happened to the completion step, the flag
    is cleared and the next key press is handled again. *)
Theorem lock_expires :
  (forall st : Script.St,
     locked (Script.lockInput st) = true /\
     lockTimer (Script.lockInput st) = Some (nextId st) /\
     tasks (Script.lockInput st) !! nextId st = Some (Timeout 900, Script.CbLockExpire)) /\
  (forall st : Variant.St,
     locked (Variant.lockInput st) = true /\
     lockTimer (Variant.lockInput st) = Some (nextId st) /\
     tasks (Variant.lockInput st) !! nextId st = Some (Timeout 1300, Variant.CbLockExpire)) /\
  (forall env0 stor classes sw sb tr st,
     Script.run tr (Script.init env0 (Script.initial stor classes sw sb)) = Some st ->
     listenersAttached st = true -> locked st = true ->
     exists id,
       lockTimer st = Some id /\
       tasks st !! id = Some (Timeout 900, Script.CbLockExpire) /\
       forall env, exists st',
         Script.step env (Script.EvFire id) st = Some st' /\
         locked st' = false /\ listenersAttached st' = true /\
         (isOverlayOpen env = false -> isTyping env = false ->
          Script.onKeyDown env (mkKey "ArrowDown" false) st'
            = Script.next env (emit PreventDefault st'))) /\
  (forall env0 sw tr st,
     Variant.run tr (Variant.init env0 (Variant.initial sw)) = Some st ->
     locked st = true ->
     exists id,
       lockTimer st = Some id /\
       tasks st !! id = Some (Timeout 1300, Variant.CbLockExpire) /\
       forall env, exists st',
         Variant.step env (Variant.EvFire id) st = Some st' /\
         locked st' = false /\
         (isOverlayOpen env = false -> isTyping env = false ->
          Variant.onKeyDown env (mkKey "ArrowDown" false) st'
            = Variant.next env (emit PreventDefault st'))).
Proof.
  split; [exact Script_lockInput_arms|]. split; [exact Variant_lockInput_arms|]. split.
  - intros env0 stor classes sw sb tr st Hrun Ha Hl.
    pose proof (ScriptInv_run tr _ _ Hrun (ScriptInv_init env0 stor classes sw sb)) as Hinv.
    destruct Hinv as (_ & _ & HL). destruct (HL Ha Hl) as (id & Hid & _ & Htask).
    exists id. split; [exact Hid|]. split; [exact Htask|].
    intros env. cbn [Script.step]. rewrite Htask. cbn [Script.runCallback].
    eexists. split; [reflexivity|]. split; [reflexivity|]. split; [exact Ha|].
    intros Ho Ht. unfold Script.onKeyDown, Script.next. by apply onKeyDown_accepts.
  - intros env0 sw tr st Hrun Hl.
    pose proof (VariantInv_run tr _ _ Hrun (VariantInv_init env0 sw)) as [HL _].
    destruct (HL Hl) as (id & Hid & _ & Htask).
    exists id. split; [exact Hid|]. split; [exact Htask|].
    intros env. cbn [Variant.step]. rewrite Htask. cbn [Variant.runCallback].
    eexists. split; [reflexivity|]. split; [reflexivity|].
    intros Ho Ht. unfold Variant.onKeyDown, Variant.next. by apply onKeyDown_accepts.
Qed.

Lemma lock_expires_witness :
  exists id,
    Script.run [(Demo.env3, Script.EvKeyDown (mkKey "ArrowDown" false))] Demo.script0
      = Some Demo.pressed /\
    locked Demo.pressed = true /\
    lockTimer Demo.pressed = Some id /\
    tasks Demo.pressed !! id = Some (Timeout 900, Script.CbLockExpire).
Proof.
  destruct lock_expires as (_ & _ & H & _).
  assert (Hrun : Script.run [(Demo.env3, Script.EvKeyDown (mkKey "ArrowDown" false))]
                   (Script.init Demo.env3 (Script.initial ∅ ∅ (Some false) ""))
                 = Some Demo.pressed) by (vm_compute; reflexivity).
  assert (Ha : listenersAttached Demo.pressed = true) by (vm_compute; reflexivity).
  assert (Hl : locked Demo.pressed = true) by (vm_compute; reflexivity).
  destruct (H _ _ _ _ _ _ _ Hrun Ha Hl) as (id & Hid & Htask & _).
  exists id. split; [exact Hrun|]. split; [exact Hl|]. split; [exact Hid|exact Htask].
Defined.

(** * Further properties of the two controllers *)

(** ** Which events the handlers leave alone *)

Lemma includes_elem_of (k : string) (l : list string) : includes k l = true <-> k ∈ l.
Proof.
  unfold includes. rewrite existsb_exists. split.
  - intros (x & Hx & Heq). apply String.eqb_eq in Heq. subst x. by apply list_elem_of_In.
  - intros H. exists k. split; [by apply list_elem_of_In|apply String.eqb_refl].
Qed.

Lemma isInsideScrollable_spec (t : option Target) :
  isInsideScrollable t = true <->
  exists pi ta, t = Some (Node pi ta) /\
    ((exists scrollHeight clientHeight,
        pi = Some (scrollHeight, clientHeight) /\ clientHeight < scrollHeight) \/
     ta = true).
Proof.
  split.
  - destruct t as [[|pi ta]|]; cbn; try discriminate.
    intros H. exists pi, ta. split; [reflexivity|].
    destruct pi as [[sh ch]|]; [|by right].
    destruct (ch <? sh) eqn:Hlt; [left|by right].
    exists sh, ch. split; [reflexivity|]. by apply Z.ltb_lt.
  - intros (pi & ta & -> & [(sh & ch & -> & Hlt)| ->]); cbn.
    + by rewrite (proj2 (Z.ltb_lt _ _) Hlt).
    + destruct pi as [[sh ch]|]; [|reflexivity]. by destruct (ch <? sh).
Qed.

Section LeftAlone.
Context {C X : Type}.
Variable cbWheelReset : C.
Variable jump : Env -> Z -> State C X -> option (State C X).
Implicit Type st : State C X.

Lemma onWheel_scrollable env e st :
  isInsideScrollable (target e) = true -> onWheel cbWheelReset jump env e st = Some st.
Proof.
  intros H. unfold onWheel. rewrite H.
  by destruct (isOverlayOpen env), (isTyping env).
Qed.

Lemma onKeyDown_other_key env e st :
  includes (key e) navKeys = false -> onKeyDown jump env e st = Some st.
Proof.
  intros H. unfold onKeyDown. rewrite H.
  by destruct (isOverlayOpen env), (isTyping env).
Qed.

Lemma onKeyDown_mapping env e st :
  isOverlayOpen env = false -> isTyping env = false ->
  locked st = false -> repeat e = false ->
  (includes (key e) nextKeys = true ->
     onKeyDown jump env e st = next jump env (emit PreventDefault st)) /\
  (includes (key e) nextKeys = false -> includes (key e) prevKeys = true ->
     onKeyDown jump env e st = prev jump env (emit PreventDefault st)).
Proof.
  intros Ho Ht Hl Hr. split.
  - intros Hn. unfold onKeyDown. rewrite Ho, Ht.
    assert (Hnav : includes (key e) navKeys = true).
    { apply includes_elem_of. apply includes_elem_of in Hn.
      unfold navKeys. apply elem_of_app. by left. }
    rewrite Hnav. cbn [negb locked emit set_log]. by rewrite Hl, Hr, Hn.
  - intros Hn Hp. unfold onKeyDown. rewrite Ho, Ht.
    assert (Hnav : includes (key e) navKeys = true).
    { apply includes_elem_of. apply includes_elem_of in Hp.
      unfold navKeys. apply elem_of_app. right. apply elem_of_app. by left. }
    rewrite Hnav. cbn [negb locked emit set_log]. by rewrite Hl, Hr, Hn, Hp.
Qed.

End LeftAlone.

(** X1. A wheel event whose target lies inside a [.project-info] that
    overflows, or inside a textarea, is left to the browser in every
    state, the locked one included. Outside such an element, and with
    no overlay and nothing being typed, a wheel event that arrives while
    the lock is held only has its default prevented: nothing is
    accumulated and no timer is armed. *)
Theorem wheel_left_alone_or_swallowed :
  (forall env e (st : Script.St),
     (exists pi ta, target e = Some (Node pi ta) /\
        ((exists scrollHeight clientHeight,
            pi = Some (scrollHeight, clientHeight) /\ clientHeight < scrollHeight) \/
         ta = true)) ->
     Script.onWheel env e st = Some st) /\
  (forall env e (st : Variant.St),
     (exists pi ta, target e = Some (Node pi ta) /\
        ((exists scrollHeight clientHeight,
            pi = Some (scrollHeight, clientHeight) /\ clientHeight < scrollHeight) \/
         ta = true)) ->
     Variant.onWheel env e st = Some st) /\
  (forall env e (st : Script.St),
     passesGuards (env, e) = true -> locked st = true ->
     Script.onWheel env e st = Some (emit PreventDefault st)) /\
  (forall env e (st : Variant.St),
     passesGuards (env, e) = true -> locked st = true ->
     Variant.onWheel env e st = Some (emit PreventDefault st)).
Proof.
  split; [|split; [|split]].
  - intros env e st H. apply onWheel_scrollable. by apply isInsideScrollable_spec.
  - intros env e st H. apply onWheel_scrollable. by apply isInsideScrollable_spec.
  - intros env e st Hg Hl. destruct (passesGuards_elim env e Hg) as (Ho & Ht & Hs).
    by apply onWheel_locked.
  - intros env e st Hg Hl. destruct (passesGuards_elim env e Hg) as (Ho & Ht & Hs).
    by apply onWheel_locked.
Qed.

Lemma wheel_left_alone_or_swallowed_witness :
  Script.onWheel Demo.env3 (mkWheel 500 (Some (Node (Some (900, 400)) false))) Demo.pressed
    = Some Demo.pressed /\
  Script.onWheel Demo.env3 (mkWheel 500 None) Demo.pressed
    = Some (emit PreventDefault Demo.pressed).
Proof.
  destruct wheel_left_alone_or_swallowed as (Hin & _ & Hlk & _). split.
  - apply Hin. exists (Some (900, 400)), false. split; [reflexivity|].
    left. exists 900, 400. split; [reflexivity|lia].
  - apply Hlk; [reflexivity|]. vm_compute. reflexivity.
Defined.

(** X2. A key other than ArrowDown, PageDown, Space, ArrowUp, PageUp,
    Home and End is ignored in every state: no default is prevented and
    nothing changes. A navigation key pressed while the lock is held has
    its default prevented and does nothing else. A fresh press on an
    unlocked controller maps ArrowDown, PageDown and Space to [next] and
    ArrowUp and PageUp to [prev]. *)
Theorem key_dispatch :
  (forall env e (st : Script.St),
     key e ∉ ["ArrowDown"; "PageDown"; " "; "ArrowUp"; "PageUp"; "Home"; "End"]%string ->
     Script.onKeyDown env e st = Some st) /\
  (forall env e (st : Variant.St),
     key e ∉ ["ArrowDown"; "PageDown"; " "; "ArrowUp"; "PageUp"; "Home"; "End"]%string ->
     Variant.onKeyDown env e st = Some st) /\
  (forall env e (st : Script.St),
     isOverlayOpen env = false -> isTyping env = false -> locked st = true ->
     key e ∈ ["ArrowDown"; "PageDown"; " "; "ArrowUp"; "PageUp"; "Home"; "End"]%string ->
     Script.onKeyDown env e st = Some (emit PreventDefault st)) /\
  (forall env e (st : Variant.St),
     isOverlayOpen env = false -> isTyping env = false -> locked st = true ->
     key e ∈ ["ArrowDown"; "PageDown"; " "; "ArrowUp"; "PageUp"; "Home"; "End"]%string ->
     Variant.onKeyDown env e st = Some (emit PreventDefault st)) /\
  (forall env e (st : Script.St),
     isOverlayOpen env = false -> isTyping env = false ->
     locked st = false -> repeat e = false ->
     (key e ∈ ["ArrowDown"; "PageDown"; " "]%string ->
        Script.onKeyDown env e st = Script.next env (emit PreventDefault st)) /\
     (key e ∈ ["ArrowUp"; "PageUp"]%string ->
        Script.onKeyDown env e st = Script.prev env (emit PreventDefault st))) /\
  (forall env e (st : Variant.St),
     isOverlayOpen env = false -> isTyping env = false ->
     locked st = false -> repeat e = false ->
     (key e ∈ ["ArrowDown"; "PageDown"; " "]%string ->
        Variant.onKeyDown env e st = Variant.next env (emit PreventDefault st)) /\
     (key e ∈ ["ArrowUp"; "PageUp"]%string ->
        Variant.onKeyDown env e st = Variant.prev env (emit PreventDefault st))).
Proof.
  assert (Hother : forall k,
            k ∉ ["ArrowDown"; "PageDown"; " "; "ArrowUp"; "PageUp"; "Home"; "End"]%string ->
            includes k navKeys = false).
  { intros k Hk. destruct (includes k navKeys) eqn:Hi; [|reflexivity].
    exfalso. apply Hk. by apply includes_elem_of in Hi. }
  assert (Hnav : forall k,
            k ∈ ["ArrowDown"; "PageDown"; " "; "ArrowUp"; "PageUp"; "Home"; "End"]%string ->
            includes k navKeys = true).
  { intros k Hk. by apply includes_elem_of. }
  assert (Hprev : forall k, k ∈ ["ArrowUp"; "PageUp"]%string -> includes k nextKeys = false).
  { intros k Hk. destruct (includes k nextKeys) eqn:Hi; [|reflexivity].
    apply includes_elem_of in Hi. unfold nextKeys in Hi.
    apply elem_of_cons in Hk as [->|Hk];
      [|apply elem_of_cons in Hk as [->|Hk]; [|by apply elem_of_nil in Hk]].
    - repeat (apply elem_of_cons in Hi as [Hi|Hi]; [discriminate|]). by apply elem_of_nil in Hi.
    - repeat (apply elem_of_cons in Hi as [Hi|Hi]; [discriminate|]). by apply elem_of_nil in Hi. }
  split; [|split; [|split; [|split; [|split]]]].
  - intros env e st Hk. apply onKeyDown_other_key. by apply Hother.
  - intros env e st Hk. apply onKeyDown_other_key. by apply Hother.
  - intros env e st Ho Ht Hl Hk. unfold Script.onKeyDown.
    rewrite onKeyDown_locked by done. by rewrite Ho, Ht, (Hnav _ Hk).
  - intros env e st Ho Ht Hl Hk. unfold Variant.onKeyDown.
    rewrite onKeyDown_locked by done. by rewrite Ho, Ht, (Hnav _ Hk).
  - intros env e st Ho Ht Hl Hr.
    destruct (onKeyDown_mapping Script.jump env e st Ho Ht Hl Hr) as [Hn Hp]. split.
    + intros Hk. apply Hn. by apply includes_elem_of.
    + intros Hk. apply Hp; [by apply Hprev|by apply includes_elem_of].
  - intros env e st Ho Ht Hl Hr.
    destruct (onKeyDown_mapping Variant.scrollToIndex env e st Ho Ht Hl Hr) as [Hn Hp]. split.
    + intros Hk. apply Hn. by apply includes_elem_of.
    + intros Hk. apply Hp; [by apply Hprev|by apply includes_elem_of].
Qed.

Lemma key_dispatch_witness :
  Script.onKeyDown Demo.env3 (mkKey "a" false) Demo.script0 = Some Demo.script0 /\
  Script.onKeyDown Demo.env3 (mkKey "PageUp" false) Demo.script0
    = Script.prev Demo.env3 (emit PreventDefault Demo.script0).
Proof.
  destruct key_dispatch as (Hother & _ & _ & _ & Hmap & _). split.
  - apply Hother. cbn [key].
    intros Hk. repeat (apply elem_of_cons in Hk as [Hk|Hk]; [discriminate|]).
    by apply elem_of_nil in Hk.
  - apply Hmap; try reflexivity. cbn [key]. apply elem_of_cons. right. apply elem_of_cons. by left.
Defined.

(** ** Resynchronising with the document *)

(** X3. A section whose top sits exactly at the header offset, with no
    earlier section there, is the one [nearestSectionIndex] returns. *)
Theorem nearest_at_header (env : Env) (secs : list Elem) (i : nat) (s : Elem) :
  secs !! i = Some s ->
  rectTop env s = 80 ->
  (forall (j : nat) sj, (j < i)%nat -> secs !! j = Some sj -> rectTop env sj <> 80) ->
  nearestSectionIndex env secs = Z.of_nat i.
Proof.
  intros Hs Htop Hfirst.
  assert (Hne : secs <> []) by (intros ->; discriminate).
  apply (IsNearest_unique env secs); [by apply nearestSectionIndex_nearest|].
  exists s. split; [lia|]. rewrite Nat2Z.id. split; [exact Hs|].
  intros j sj Hj. unfold distToHeader, HEADER_OFFSET. rewrite Htop. split; [lia|].
  intros Hlt. pose proof (Hfirst j sj Hlt Hj). lia.
Qed.

Lemma nearest_at_header_witness :
  nearestSectionIndex
    (mkEnv [] (fun e => if (e =? 2)%nat then 80 else if (e =? 0)%nat then 81 else 79)
       0 None None)
    [0%nat; 1%nat; 2%nat; 3%nat] = Z.of_nat 2.
Proof.
  apply (nearest_at_header _ _ 2%nat 2%nat); [reflexivity|reflexivity|].
  intros j sj Hlt Hj.
  destruct j as [|[|j]]; [| |lia]; injection Hj as <-; cbn; lia.
Defined.

(** X4. [syncState] is idempotent: a second call on the same document
    changes nothing, in either variant. *)
Theorem syncState_idempotent :
  (forall env (st : Script.St), syncState env (syncState env st) = syncState env st) /\
  (forall env (st : Variant.St), syncState env (syncState env st) = syncState env st).
Proof.
  assert (H : forall C X env (st : State C X),
             syncState env (syncState env st) = syncState env st).
  { intros C X env st. unfold syncState. cbn [sections set_sections].
    by destruct (getSections env). }
  split; intros env st; apply H.
Qed.

(** ** The mutation observer of the second variant *)

Definition isClassChange (m : Variant.MutationRecord) : bool :=
  (String.eqb (Variant.mtype m) "attributes"
   && bool_decide (Variant.attributeName m = Some "class"%string))%bool.

(** X5. However many records the observer is handed, it re-initialises
    exactly once if one of them reports a change of the class attribute,
    and does nothing otherwise. *)
Theorem onMutations_once (ms : list Variant.MutationRecord) (st : Variant.St) :
  Variant.onMutations ms st
  = if existsb isClassChange ms then Variant.hardReInit st else st.
Proof.
  induction ms as [|m ms IH]; [reflexivity|].
  cbn [Variant.onMutations existsb]. fold (isClassChange m).
  destruct (isClassChange m); [reflexivity|exact IH].
Qed.

(** ** Settle detection in the second variant *)

(** X6. Once [clearAllTimers] has called the stopper, the [check] closure
    of the stopped [waitForSettle] call returns at once: it neither
    releases the lock, nor moves the index, nor re-arms itself. *)
Theorem stopped_check_does_nothing (env : Env) (sid : nat) (st : Variant.St) :
  Variant.settleStopper (ext st) = Some sid ->
  Variant.check env sid (Variant.clearAllTimers st) = Variant.clearAllTimers st.
Proof.
  intros Hstop.
  assert (Hcl : Variant.clearAllTimers st
                = Variant.upd (Variant.set_settleStopper None)
                    (Variant.callStopper sid (clearTimers st))).
  { unfold Variant.clearAllTimers.
    replace (Variant.settleStopper (ext (clearTimers st))) with (Some sid); [reflexivity|].
    rewrite <- Hstop. destruct st as [? ? ? lt ? wt ? ? ? ? ?]. by destruct lt, wt. }
  rewrite Hcl. unfold Variant.check.
  set (s1 := Variant.upd _ _).
  assert (Hlook : Variant.settles (ext s1) !! sid
                  = (fun s => Variant.mkSettle (Variant.lastY s) (Variant.stableSteps s) true)
                      <$> Variant.settles (ext (clearTimers st)) !! sid).
  { subst s1. cbn [Variant.upd Variant.callStopper ext set_ext Variant.settles
                   Variant.set_settleStopper Variant.set_settles].
    by rewrite lookup_alter_eq. }
  rewrite Hlook. by destruct (Variant.settles (ext (clearTimers st)) !! sid).
Qed.

Lemma stopped_check_does_nothing_witness :
  Variant.check Demo.env3 0%nat
    (Variant.clearAllTimers
       (default Demo.variant0
          (Variant.scrollToIndex Demo.env3 2 Demo.variant0)))
  = Variant.clearAllTimers
      (default Demo.variant0 (Variant.scrollToIndex Demo.env3 2 Demo.variant0)).
Proof. apply stopped_check_does_nothing. vm_compute. reflexivity. Defined.

(** ** Completion of a jump *)

Section FieldFacts.
Context {C X : Type}.
Implicit Type st : State C X.

(** What [unlockInput] changes: the flag, the timer variable, and the
    task the variable named. *)
Record Unlocked st st' : Prop := {
  unl_locked : locked st' = false;
  unl_lockTimer : lockTimer st' = None;
  unl_tasks : tasks st' = match lockTimer st with
                          | Some id => delete id (tasks st)
                          | None => tasks st
                          end;
  unl_sections : sections st' = sections st;
  unl_currentIndex : currentIndex st' = currentIndex st;
  unl_wheelAccum : wheelAccum st' = wheelAccum st;
  unl_wheelResetTimer : wheelResetTimer st' = wheelResetTimer st;
  unl_listeners : listenersAttached st' = listenersAttached st;
  unl_nextId : nextId st' = nextId st;
  unl_log : log st' = log st;
  unl_ext : ext st' = ext st
}.

Lemma unlockInput_Unlocked st : Unlocked st (unlockInput st).
Proof. destruct st as [? ? ? lt ? ? ? ? ? ? ?]. by destruct lt. Qed.

(** What [syncState] changes: the section array and, when the document
    has sections, the index. *)
Record Synced (env : Env) st st' : Prop := {
  syn_sections : sections st' = getSections env;
  syn_index : getSections env <> [] ->
              currentIndex st' = nearestSectionIndex env (getSections env);
  syn_index_empty : getSections env = [] -> currentIndex st' = currentIndex st;
  syn_locked : locked st' = locked st;
  syn_lockTimer : lockTimer st' = lockTimer st;
  syn_tasks : tasks st' = tasks st;
  syn_wheelAccum : wheelAccum st' = wheelAccum st;
  syn_wheelResetTimer : wheelResetTimer st' = wheelResetTimer st;
  syn_listeners : listenersAttached st' = listenersAttached st;
  syn_nextId : nextId st' = nextId st;
  syn_log : log st' = log st;
  syn_ext : ext st' = ext st
}.

Lemma syncState_Synced env st : Synced env st (syncState env st).
Proof.
  unfold syncState. cbn [sections set_sections].
  destruct (getSections env) as [|s l] eqn:Hg; split; rewrite ?Hg;
    cbn [sections currentIndex locked lockTimer tasks wheelAccum wheelResetTimer
         listenersAttached nextId log ext set_currentIndex];
    try reflexivity; try (intros ?; congruence).
Qed.

End FieldFacts.

(** X7. When the completion timer of [jumpToIndex] fires, the lock is
    released and the safety timer is cancelled with it: neither task is
    pending any more, nothing further is scrolled, and the index is the
    section nearest the header in the document as it is then. *)
Theorem jump_completion env env' idx behavior (st st1 : Script.St) :
  sections st <> [] ->
  Script.jumpToIndex env idx behavior st = Some st1 ->
  exists st2,
    Script.step env' (Script.EvFire (S (nextId st))) st1 = Some st2 /\
    locked st2 = false /\ lockTimer st2 = None /\
    tasks st2 !! nextId st = None /\ tasks st2 !! S (nextId st) = None /\
    log st2 = log st1 /\
    sections st2 = getSections env' /\
    (getSections env' <> [] ->
       currentIndex st2 = nearestSectionIndex env' (getSections env')).
Proof.
  intros Hne Hj.
  destruct (jumpToIndex_nonempty env idx behavior st Hne) as (st1' & Hj' & HJ).
  rewrite Hj in Hj'. apply (inj Some) in Hj'. subst st1'.
  cbn [Script.step]. rewrite (jumped_done _ _ _ _ _ HJ). cbn [Script.runCallback].
  eexists. split; [reflexivity|].
  set (s1 := clearTimeout (S (nextId st)) st1).
  pose proof (syncState_Synced env' s1) as HS.
  pose proof (unlockInput_Unlocked (syncState env' s1)) as HU.
  rewrite (unl_locked _ _ HU), (unl_lockTimer _ _ HU), (unl_tasks _ _ HU),
    (unl_log _ _ HU), (unl_sections _ _ HU), (unl_currentIndex _ _ HU).
  rewrite (syn_lockTimer _ _ _ HS), (syn_tasks _ _ _ HS), (syn_log _ _ _ HS),
    (syn_sections _ _ _ HS).
  assert (Hlt : lockTimer s1 = Some (nextId st)) by apply (jumped_lockTimer _ _ _ _ _ HJ).
  rewrite Hlt.
  split; [reflexivity|]. split; [reflexivity|]. split; [apply lookup_delete_eq|].
  split; [rewrite lookup_delete_ne by lia; apply lookup_delete_eq|].
  split; [reflexivity|]. split; [reflexivity|]. apply (syn_index _ _ _ HS).
Qed.

Lemma jump_completion_witness :
  exists st2,
    Script.step Demo.env3
      (Script.EvFire (S (nextId (emit PreventDefault Demo.script0)))) Demo.pressed = Some st2 /\
    locked st2 = false /\ lockTimer st2 = None /\
    tasks st2 !! nextId (emit PreventDefault Demo.script0) = None /\
    tasks st2 !! S (nextId (emit PreventDefault Demo.script0)) = None /\
    log st2 = log Demo.pressed /\
    sections st2 = getSections Demo.env3 /\
    (getSections Demo.env3 <> [] ->
       currentIndex st2 = nearestSectionIndex Demo.env3 (getSections Demo.env3)).
Proof.
  apply (jump_completion Demo.env3 Demo.env3 2 "smooth"
           (emit PreventDefault Demo.script0) Demo.pressed).
  - discriminate.
  - vm_compute. reflexivity.
Defined.

(** ** Settle detection *)













(** ** Re-initialisation in the second variant *)

Lemma attachListeners_fields {C X : Type} (st : State C X) :
  listenersAttached (attachListeners st) = true /\
  sections (attachListeners st) = sections st /\
  currentIndex (attachListeners st) = currentIndex st /\
  locked (attachListeners st) = locked st /\
  wheelAccum (attachListeners st) = wheelAccum st /\
  log (attachListeners st) = log st.
Proof.
  unfold attachListeners. destruct (listenersAttached st) eqn:H; by repeat split.
Qed.








(** ** Stabilisation after a theme switch *)











(** ** Theme round trips *)

Lemma switchChange_step env (st : Script.St) (c : bool) :
  Script.themeSwitch (ext st) = Some (mkCheckbox c [Script.ApplyFromSwitch]) ->
  exists st',
    Script.step env Script.EvSwitchChange st = Some st' /\
    Script.themeSwitch (ext st') = Some (mkCheckbox (negb c) [Script.ApplyFromSwitch]) /\
    Script.storage (ext st')
      = <[Script.THEME_KEY := if negb c then "light"%string else "dark"%string]>
          (Script.storage (ext st)) /\
    Script.bodyClasses (ext st') = classToggle "light" (negb c) (Script.bodyClasses (ext st)).
Proof.
  intros Hsw. unfold Script.step. rewrite Hsw. cbn [foldl onChange checked].
  match goal with |- context [Script.runChangeHandler _ ?s] => set (st1 := s) end.
  assert (Hsw1 : Script.themeSwitch (ext st1)
                 = Some (mkCheckbox (negb c) [Script.ApplyFromSwitch])) by reflexivity.
  unfold Script.runChangeHandler. rewrite Hsw1. cbn [checked].
  eexists. split; [reflexivity|].
  destruct (applyTheme_ext (if negb c then "light"%string else "dark"%string) st1)
    as (Hstor & Hcls & Hsw' & _).
  rewrite Hstor, Hcls, Hsw', Hsw1. split; [|split; [reflexivity|]].
  - cbn. by destruct c.
  - by destruct c.
Qed.

(** X11. Two toggles of the theme checkbox bring the theme back: the
    checkbox, the stored mode and the [light] class are those of the
    checkbox state before the first toggle, and no other class of the
    body is touched. *)
Theorem toggle_twice (env1 env2 : Env) (st : Script.St) (c : bool) :
  Script.themeSwitch (ext st) = Some (mkCheckbox c [Script.ApplyFromSwitch]) ->
  exists st2,
    Script.run [(env1, Script.EvSwitchChange); (env2, Script.EvSwitchChange)] st = Some st2 /\
    Script.themeSwitch (ext st2) = Some (mkCheckbox c [Script.ApplyFromSwitch]) /\
    Script.storage (ext st2) !! "themeMode"%string
      = Some (if c then "light"%string else "dark"%string) /\
    ("light"%string ∈ Script.bodyClasses (ext st2) <-> c = true) /\
    (forall cl, cl <> "light"%string ->
       cl ∈ Script.bodyClasses (ext st2) <-> cl ∈ Script.bodyClasses (ext st)).
Proof.
  intros Hsw.
  destruct (switchChange_step env1 st c Hsw) as (st1 & Hstep1 & Hsw1 & Hstor1 & Hcls1).
  destruct (switchChange_step env2 st1 (negb c) Hsw1) as (st2 & Hstep2 & Hsw2 & Hstor2 & Hcls2).
  exists st2. cbn [Script.run]. rewrite Hstep1. cbn [mbind option_bind].
  rewrite Hstep2. cbn [mbind option_bind].
  rewrite negb_involutive in Hsw2, Hstor2, Hcls2.
  split; [reflexivity|]. split; [exact Hsw2|]. split; [|split].
  - rewrite Hstor2. change Script.THEME_KEY with "themeMode"%string. apply lookup_insert_eq.
  - rewrite Hcls2. apply light_toggled.
  - intros cl Hcl. rewrite Hcls2, Hcls1. by rewrite !other_class_kept.
Qed.

Lemma toggle_twice_witness :
  exists st2,
    Script.run [(Demo.env3, Script.EvSwitchChange); (Demo.env3, Script.EvSwitchChange)]
      Demo.script0 = Some st2 /\
    Script.themeSwitch (ext st2) = Some (mkCheckbox false [Script.ApplyFromSwitch]) /\
    Script.storage (ext st2) !! "themeMode"%string = Some "dark"%string /\
    ("light"%string ∈ Script.bodyClasses (ext st2) <-> false = true) /\
    (forall cl, cl <> "light"%string ->
       cl ∈ Script.bodyClasses (ext st2) <-> cl ∈ Script.bodyClasses (ext Demo.script0)).
Proof. apply (toggle_twice Demo.env3 Demo.env3 Demo.script0 false). reflexivity. Defined.

(** X12. The theme survives a reload: if local storage still holds what
    [applyTheme mode] wrote, [initTheme] on the freshly loaded page shows
    light exactly when [mode] was "light", sets the checkbox to match,
    and for the two modes the script itself writes stores [mode] again. *)
Theorem theme_survives_reload (mode : string) (st st0 : Script.St) :
  Script.storage (ext st0) !! "themeMode"%string
    = Script.storage (ext (Script.applyTheme mode st)) !! "themeMode"%string ->
  ("light"%string ∈ Script.bodyClasses (ext (Script.initTheme st0))
     <-> mode = "light"%string) /\
  (mode = "light"%string \/ mode = "dark"%string ->
     Script.storage (ext (Script.initTheme st0)) !! "themeMode"%string = Some mode) /\
  (forall sw, Script.themeSwitch (ext (Script.initTheme st0)) = Some sw ->
     checked sw = bool_decide (mode = "light"%string)).
Proof.
  intros Hsame.
  destruct (applyTheme_ext mode st) as (Hstor & _).
  rewrite Hstor in Hsame. change Script.THEME_KEY with "themeMode"%string in Hsame.
  rewrite lookup_insert_eq in Hsame.
  destruct (initTheme_ext st0) as (Hstor0 & Hcls0 & Hsw0).
  change Script.THEME_KEY with "themeMode"%string in Hstor0, Hcls0, Hsw0.
  rewrite Hsame in Hstor0, Hcls0, Hsw0.
  set (m := if bool_decide (Some mode = Some "light"%string)
            then "light"%string else "dark"%string) in *.
  assert (Hm : String.eqb m "light" = bool_decide (mode = "light"%string)).
  { subst m. case_bool_decide as H1; case_bool_decide as H2; try reflexivity.
    - injection H1 as H1. contradiction.
    - subst mode. contradiction. }
  destruct (applyTheme_ext m st0) as (Hstor1 & Hcls1 & Hsw1 & _).
  rewrite Hstor0, Hcls0, Hstor1, Hcls1. rewrite Hsw1 in Hsw0.
  split; [|split].
  - rewrite light_toggled, Hm. split; [apply bool_decide_eq_true_1|apply bool_decide_eq_true_2].
  - intros Hmode. change Script.THEME_KEY with "themeMode"%string.
    rewrite lookup_insert_eq. f_equal. subst m.
    destruct Hmode as [->| ->]; reflexivity.
  - intros sw Hsw. rewrite Hsw in Hsw0.
    destruct (Script.themeSwitch (ext st0)) as [sw0|]; cbn in Hsw0; [|discriminate].
    injection Hsw0 as ->. cbn. exact Hm.
Qed.

Lemma theme_survives_reload_witness :
  Script.storage
    (ext (Script.initTheme
            (Script.initial {[ "themeMode"%string := "light"%string ]} ∅ (Some false) "")))
    !! "themeMode"%string = Some "light"%string.
Proof.
  apply (theme_survives_reload "light" Demo.script0
           (Script.initial {[ "themeMode"%string := "light"%string ]} ∅ (Some false) "")).
  - vm_compute. reflexivity.
  - by left.
Defined.

(** ** Tearing the controller down *)

(** What [destroy] leaves behind. *)
Record Destroyed (st st' : Script.St) : Prop := {
  de_listeners : listenersAttached st' = false;
  de_resize : Script.resizeListener (ext st') = false;
  de_lockTimer : lockTimer st' = None;
  de_wheelResetTimer : wheelResetTimer st' = None;
  de_stabilizeTimer : Script.themeStabilizeTimer (ext st') = None;
  de_cancelled : forall id,
      lockTimer st = Some id \/ wheelResetTimer st = Some id \/
      Script.themeStabilizeTimer (ext st) = Some id ->
      tasks st' !! id = None;
  de_kept : forall id,
      lockTimer st <> Some id -> wheelResetTimer st <> Some id ->
      Script.themeStabilizeTimer (ext st) <> Some id ->
      tasks st' !! id = tasks st !! id;
  de_locked : locked st' = locked st;
  de_hash : Script.hashListener (ext st') = Script.hashListener (ext st);
  de_switch : Script.themeSwitch (ext st') = Script.themeSwitch (ext st);
  de_storage : Script.storage (ext st') = Script.storage (ext st);
  de_sections : sections st' = sections st;
  de_currentIndex : currentIndex st' = currentIndex st;
  de_log : log st' = log st
}.

Lemma destroy_Destroyed (st : Script.St) : Destroyed st (Script.destroy st).
Proof.
  destruct_script st. unfold Script.destroy, Script.upd.
  destruct la, lt as [l|], wt as [w|], tst as [t|]; split; cbn; try reflexivity.
  all: try (intros id [Hid|[Hid|Hid]]; try discriminate; injection Hid as ->).
  all: try (intros id H1 H2 H3).
  all: rewrite ?lookup_delete; repeat case_decide; try reflexivity; try congruence.
Qed.

Lemma destroy_fixpoint (st : Script.St) :
  listenersAttached st = false -> lockTimer st = None -> wheelResetTimer st = None ->
  Script.themeStabilizeTimer (ext st) = None -> Script.resizeListener (ext st) = false ->
  Script.destroy st = st.
Proof.
  destruct_script st. cbn. intros -> -> -> -> ->. reflexivity.
Qed.

(** X13. After [destroy] the wheel, keydown and resize handlers are
    gone: those events leave the state as it is. The three timers the
    controller tracks are cancelled and every other pending task is
    kept, the lock flag is left as it was, and the hashchange listener
    and the listener on the theme checkbox stay registered. A second
    [destroy] changes nothing. *)
Theorem destroy_detaches (st : Script.St) :
  Destroyed st (Script.destroy st) /\
  (forall env e k,
     Script.step env (Script.EvWheel e) (Script.destroy st) = Some (Script.destroy st) /\
     Script.step env (Script.EvKeyDown k) (Script.destroy st) = Some (Script.destroy st) /\
     Script.step env Script.EvResize (Script.destroy st) = Some (Script.destroy st)) /\
  Script.destroy (Script.destroy st) = Script.destroy st.
Proof.
  pose proof (destroy_Destroyed st) as HD. split; [exact HD|]. split.
  - intros env e k. cbn [Script.step].
    by rewrite (de_listeners _ _ HD), (de_resize _ _ HD).
  - apply destroy_fixpoint; [apply (de_listeners _ _ HD)|apply (de_lockTimer _ _ HD)
      |apply (de_wheelResetTimer _ _ HD)|apply (de_stabilizeTimer _ _ HD)
      |apply (de_resize _ _ HD)].
Qed.

Lemma attached_initScroll env (st : Script.St) :
  listenersAttached (Script.initScroll env st) = true.
Proof.
  unfold Script.initScroll, Script.upd. cbn [listenersAttached set_ext].
  apply attachListeners_fields.
Qed.

Lemma attached_initTheme (st : Script.St) :
  listenersAttached (Script.initTheme st) = listenersAttached st.
Proof.
  unfold Script.initTheme. set (m := if bool_decide _ then _ else _).
  pose proof (attached_applyTheme m st) as H1.
  destruct (Script.themeSwitch (ext (Script.applyTheme m st)));
    cbn [Script.upd listenersAttached set_ext]; exact H1.
Qed.

Lemma attached_init env (st : Script.St) : listenersAttached (Script.init env st) = true.
Proof. unfold Script.init. rewrite attached_initTheme. apply attached_initScroll. Qed.

(** X14. [destroy] on a controller that has not run its
    [DOMContentLoaded] handler yet changes nothing, and the handler, when
    it runs afterwards, attaches the listeners all the same. *)
Theorem destroy_before_init env stor classes sw sb :
  Script.destroy (Script.initial stor classes sw sb) = Script.initial stor classes sw sb /\
  listenersAttached (Script.init env (Script.destroy (Script.initial stor classes sw sb)))
    = true /\
  Script.init env (Script.destroy (Script.initial stor classes sw sb))
    = Script.init env (Script.initial stor classes sw sb).
Proof.
  assert (H : Script.destroy (Script.initial stor classes sw sb)
              = Script.initial stor classes sw sb) by (by apply destroy_fixpoint).
  split; [exact H|]. split; [apply attached_init|by rewrite H].
Qed.

(** ** Timers never pile up *)

Section OwnFacts.
Context {C X : Type}.
Variable cbLockExpire : C.
Variable cbWheelReset : C.
Variable MAX_LOCK_MS : Z.
Implicit Type st : State C X.

(** Every pending task that runs the callback [cb] is the one whose id
    the variable [v] holds; so there is at most one. *)
Definition Owns (cb : C) (v : option nat) st : Prop :=
  forall id k, tasks st !! id = Some (k, cb) -> v = Some id.

(** From [st] to [st'] no task running a callback in [P] was added. *)
Definition Kept (P : C -> Prop) st st' : Prop :=
  forall id k cb, P cb -> tasks st' !! id = Some (k, cb) -> tasks st !! id = Some (k, cb).

Lemma Owns_single cb v st id1 id2 k1 k2 :
  Owns cb v st ->
  tasks st !! id1 = Some (k1, cb) -> tasks st !! id2 = Some (k2, cb) -> id1 = id2.
Proof. intros H H1 H2. apply H in H1, H2. congruence. Qed.

Lemma Kept_refl P st : Kept P st st.
Proof. by intros id k cb _ H. Qed.

Lemma Kept_trans P st1 st2 st3 : Kept P st1 st2 -> Kept P st2 st3 -> Kept P st1 st3.
Proof. intros H1 H2 id k cb HP H. by eapply H1, H2. Qed.

Lemma Kept_same P st st' : tasks st' = tasks st -> Kept P st st'.
Proof. intros E id k cb _ H. by rewrite <- E. Qed.

Lemma Owns_Kept P cb v st st' : P cb -> Kept P st st' -> Owns cb v st -> Owns cb v st'.
Proof. intros HP Hk Hown id k H. eapply Hown, Hk; [exact HP|exact H]. Qed.

Lemma Owns_same cb v st st' : tasks st' = tasks st -> Owns cb v st -> Owns cb v st'.
Proof. intros E. apply (Owns_Kept (fun _ => True)); [exact I|by apply Kept_same]. Qed.

Lemma Kept_setTimeout (P : C -> Prop) cb ms st :
  ~ P cb -> Kept P st (snd (setTimeout cb ms st)).
Proof.
  intros HP id k cb' HP' H. cbn in H.
  destruct (decide (nextId st = id)) as [<-|Hne].
  - rewrite lookup_insert_eq in H. apply (inj Some) in H. injection H as _ <-. contradiction.
  - by rewrite lookup_insert_ne in H.
Qed.

Lemma Kept_requestAnimationFrame (P : C -> Prop) cb st :
  ~ P cb -> Kept P st (snd (requestAnimationFrame cb st)).
Proof.
  intros HP id k cb' HP' H. cbn in H.
  destruct (decide (nextId st = id)) as [<-|Hne].
  - rewrite lookup_insert_eq in H. apply (inj Some) in H. injection H as _ <-. contradiction.
  - by rewrite lookup_insert_ne in H.
Qed.

Lemma Kept_clearTimeout P w st : Kept P st (clearTimeout w st).
Proof.
  intros id k cb _ H. cbn in H.
  destruct (decide (w = id)) as [<-|Hne].
  - by rewrite lookup_delete_eq in H.
  - by rewrite lookup_delete_ne in H.
Qed.

Lemma Kept_clearIfSet P v st : Kept P st (clearIfSet v st).
Proof. destruct v; [apply Kept_clearTimeout|apply Kept_refl]. Qed.

(** Once the timer a variable names is cleared, no task of its callback
    is left, whatever the variable is set to next. *)
Lemma Owns_cleared cb v v' st : Owns cb v st -> Owns cb v' (clearIfSet v st).
Proof.
  intros H id k Hk. destruct v as [w|]; cbn in Hk.
  - destruct (decide (w = id)) as [<-|Hne].
    + by rewrite lookup_delete_eq in Hk.
    + rewrite lookup_delete_ne in Hk by done. apply H in Hk. congruence.
  - apply H in Hk. discriminate.
Qed.

(** Clearing the old timer and arming a new one leaves exactly the new one. *)
Lemma Owns_rearmed cb v ms st :
  Owns cb v st ->
  Owns cb (Some (nextId st)) (snd (setTimeout cb ms (clearIfSet v st))).
Proof.
  intros H id k Hk.
  assert (Hn : nextId (clearIfSet v st) = nextId st) by (by destruct v).
  cbn in Hk. rewrite Hn in Hk.
  destruct (decide (nextId st = id)) as [<-|Hne]; [reflexivity|].
  rewrite lookup_insert_ne in Hk by done.
  by apply (Owns_cleared cb v (Some (nextId st)) st H id k).
Qed.

Lemma Kept_unlockInput P st : Kept P st (unlockInput st).
Proof.
  apply (Kept_trans P st (clearIfSet (lockTimer st) st)); [apply Kept_clearIfSet|].
  apply Kept_same. destruct st as [? ? ? lt ? ? ? ? ? ? ?]. by destruct lt.
Qed.

Lemma Owns_unlockInput cb st :
  Owns cb (lockTimer st) st -> Owns cb None (unlockInput st).
Proof.
  intros H. apply (Owns_same cb None (clearIfSet (lockTimer st) st)).
  - destruct st as [? ? ? lt ? ? ? ? ? ? ?]. by destruct lt.
  - by apply Owns_cleared.
Qed.

Lemma Kept_clearTimers P st : Kept P st (clearTimers st).
Proof.
  apply (Kept_trans P st (clearIfSet (lockTimer st) st)); [apply Kept_clearIfSet|].
  apply (Kept_trans P _ (clearIfSet (wheelResetTimer st) (clearIfSet (lockTimer st) st)));
    [apply Kept_clearIfSet|].
  apply Kept_same. destruct st as [? ? ? lt ? wt ? ? ? ? ?]. by destruct lt, wt.
Qed.

Lemma Owns_clearTimers_lock cb st :
  Owns cb (lockTimer st) st -> Owns cb None (clearTimers st).
Proof.
  intros H id k Hk. exfalso.
  pose proof (Kept_clearTimers (fun _ => True) st id k cb I Hk) as H0. apply H in H0.
  destruct st as [? ? ? lt ? wt ? tk ? ? ?]. cbn in H0. subst lt.
  destruct wt as [w|]; cbn in Hk.
  - destruct (decide (w = id)) as [->|Hne]; [by rewrite lookup_delete_eq in Hk|].
    rewrite lookup_delete_ne in Hk by done. by rewrite lookup_delete_eq in Hk.
  - by rewrite lookup_delete_eq in Hk.
Qed.

Lemma Owns_clearTimers_wheel cb st :
  Owns cb (wheelResetTimer st) st -> Owns cb None (clearTimers st).
Proof.
  intros H id k Hk. exfalso.
  pose proof (Kept_clearTimers (fun _ => True) st id k cb I Hk) as H0. apply H in H0.
  destruct st as [? ? ? lt ? wt ? tk ? ? ?]. cbn in H0. subst wt.
  destruct lt as [l|]; cbn in Hk; by rewrite lookup_delete_eq in Hk.
Qed.

Lemma Kept_lockInput (P : C -> Prop) st :
  ~ P cbLockExpire -> Kept P st (lockInput cbLockExpire MAX_LOCK_MS st).
Proof.
  intros HP.
  apply (Kept_trans P st (clearIfSet (lockTimer st) st)); [apply Kept_clearIfSet|].
  apply (Kept_trans P _ (snd (setTimeout cbLockExpire MAX_LOCK_MS (clearIfSet (lockTimer st) st))));
    [by apply Kept_setTimeout|].
  apply Kept_same. destruct st as [? ? ? lt ? ? ? ? ? ? ?]. by destruct lt.
Qed.

Lemma Owns_lockInput st :
  Owns cbLockExpire (lockTimer st) st ->
  Owns cbLockExpire (lockTimer (lockInput cbLockExpire MAX_LOCK_MS st))
    (lockInput cbLockExpire MAX_LOCK_MS st).
Proof.
  intros H.
  replace (lockTimer (lockInput cbLockExpire MAX_LOCK_MS st)) with (Some (nextId st))
    by (destruct st as [? ? ? lt ? ? ? ? ? ? ?]; by destruct lt).
  apply (Owns_same _ _ (snd (setTimeout cbLockExpire MAX_LOCK_MS (clearIfSet (lockTimer st) st)))).
  - destruct st as [? ? ? lt ? ? ? ? ? ? ?]. by destruct lt.
  - by apply Owns_rearmed.
Qed.

Lemma Kept_accumulate (P : C -> Prop) d st :
  ~ P cbWheelReset -> Kept P st (accumulate cbWheelReset d st).
Proof.
  intros HP.
  apply (Kept_trans P st (clearIfSet (wheelResetTimer st) st)); [apply Kept_clearIfSet|].
  apply (Kept_trans P _
           (snd (setTimeout cbWheelReset WHEEL_RESET_MS (clearIfSet (wheelResetTimer st) st))));
    [by apply Kept_setTimeout|].
  apply Kept_same. destruct st as [? ? ? ? ? wt ? ? ? ? ?]. by destruct wt.
Qed.

Lemma Owns_accumulate d st :
  Owns cbWheelReset (wheelResetTimer st) st ->
  Owns cbWheelReset (wheelResetTimer (accumulate cbWheelReset d st))
    (accumulate cbWheelReset d st).
Proof.
  intros H.
  rewrite (acc_timer _ _ _ _ (accumulate_Accumulated cbWheelReset d st)).
  apply (Owns_same _ _
           (snd (setTimeout cbWheelReset WHEEL_RESET_MS (clearIfSet (wheelResetTimer st) st)))).
  - destruct st as [? ? ? ? ? wt ? ? ? ? ?]. by destruct wt.
  - by apply Owns_rearmed.
Qed.

End OwnFacts.

(** *** [script.js]: the lock, wheel-reset and stabilisation timers *)

Definition ScriptTimer (cb : Script.Callback) : Prop :=
  cb = Script.CbLockExpire \/ cb = Script.CbWheelReset \/ cb = Script.CbStabilize.

(** The three timer variables of [script.js]. *)
Definition tv (st : Script.St) :=
  (lockTimer st, wheelResetTimer st, Script.themeStabilizeTimer (ext st)).

Definition ScriptOwns (st : Script.St) : Prop :=
  Owns Script.CbLockExpire (lockTimer st) st /\
  Owns Script.CbWheelReset (wheelResetTimer st) st /\
  Owns Script.CbStabilize (Script.themeStabilizeTimer (ext st)) st.

Lemma ScriptOwns_kept (st st' : Script.St) :
  Kept ScriptTimer st st' -> tv st' = tv st -> ScriptOwns st -> ScriptOwns st'.
Proof.
  intros Hk [= Hl Hw Ht] (HL & HW & HS). unfold ScriptOwns. rewrite Hl, Hw, Ht.
  split; [|split].
  - apply (Owns_Kept ScriptTimer _ _ st); [by left|exact Hk|exact HL].
  - apply (Owns_Kept ScriptTimer _ _ st); [right; by left|exact Hk|exact HW].
  - apply (Owns_Kept ScriptTimer _ _ st); [right; by right|exact Hk|exact HS].
Qed.

Lemma ScriptOwns_same (st st' : Script.St) :
  tasks st' = tasks st -> tv st' = tv st -> ScriptOwns st -> ScriptOwns st'.
Proof. intros Ht. apply ScriptOwns_kept. by apply Kept_same. Qed.

Lemma ScriptOwns_emit e (st : Script.St) : ScriptOwns st -> ScriptOwns (emit e st).
Proof. by apply ScriptOwns_same. Qed.

Lemma ScriptOwns_set_wheelAccum v (st : Script.St) :
  ScriptOwns st -> ScriptOwns (set_wheelAccum v st).
Proof. by apply ScriptOwns_same. Qed.

Lemma ScriptOwns_set_currentIndex v (st : Script.St) :
  ScriptOwns st -> ScriptOwns (set_currentIndex v st).
Proof. by apply ScriptOwns_same. Qed.

Lemma ScriptOwns_set_locked v (st : Script.St) : ScriptOwns st -> ScriptOwns (set_locked v st).
Proof. by apply ScriptOwns_same. Qed.

Lemma ScriptOwns_upd f (st : Script.St) :
  Script.themeStabilizeTimer (f (ext st)) = Script.themeStabilizeTimer (ext st) ->
  ScriptOwns st -> ScriptOwns (Script.upd f st).
Proof.
  intros Hf. apply ScriptOwns_same; [reflexivity|].
  unfold tv. cbn [Script.upd ext set_ext lockTimer wheelResetTimer]. by rewrite Hf.
Qed.

Lemma ScriptOwns_syncState env (st : Script.St) : ScriptOwns st -> ScriptOwns (syncState env st).
Proof.
  pose proof (syncState_Synced env st) as HS.
  apply ScriptOwns_same; [apply (syn_tasks _ _ _ HS)|].
  unfold tv. by rewrite (syn_lockTimer _ _ _ HS), (syn_wheelResetTimer _ _ _ HS), (syn_ext _ _ _ HS).
Qed.

Lemma ScriptOwns_attachListeners (st : Script.St) : ScriptOwns st -> ScriptOwns (attachListeners st).
Proof. unfold attachListeners. destruct (listenersAttached st); [done|by apply ScriptOwns_same]. Qed.

Lemma ScriptOwns_detachListeners (st : Script.St) : ScriptOwns st -> ScriptOwns (detachListeners st).
Proof. unfold detachListeners. destruct (listenersAttached st); [by apply ScriptOwns_same|done]. Qed.

Lemma not_ScriptTimer (cb : Script.Callback) :
  cb <> Script.CbLockExpire -> cb <> Script.CbWheelReset -> cb <> Script.CbStabilize ->
  ~ ScriptTimer cb.
Proof. intros H1 H2 H3 [H|[H|H]]; contradiction. Qed.

Lemma ScriptOwns_setTimeout cb ms (st : Script.St) :
  ~ ScriptTimer cb -> ScriptOwns st -> ScriptOwns (snd (setTimeout cb ms st)).
Proof. intros Hcb. apply ScriptOwns_kept; [by apply Kept_setTimeout|reflexivity]. Qed.

Lemma ScriptOwns_requestAnimationFrame cb (st : Script.St) :
  ~ ScriptTimer cb -> ScriptOwns st -> ScriptOwns (snd (requestAnimationFrame cb st)).
Proof. intros Hcb. apply ScriptOwns_kept; [by apply Kept_requestAnimationFrame|reflexivity]. Qed.

Lemma ScriptOwns_clearTimeout id (st : Script.St) :
  ScriptOwns st -> ScriptOwns (clearTimeout id st).
Proof. apply ScriptOwns_kept; [apply Kept_clearTimeout|reflexivity]. Qed.

Lemma ScriptOwns_lockInput (st : Script.St) : ScriptOwns st -> ScriptOwns (Script.lockInput st).
Proof.
  intros (HL & HW & HS). unfold Script.lockInput.
  assert (Hk : Kept (fun c => c <> Script.CbLockExpire) st
                 (lockInput Script.CbLockExpire Script.MAX_LOCK_MS st))
    by (apply Kept_lockInput; intros H; by apply H).
  assert (Hv : wheelResetTimer (lockInput Script.CbLockExpire Script.MAX_LOCK_MS st)
               = wheelResetTimer st /\
               ext (lockInput Script.CbLockExpire Script.MAX_LOCK_MS st) = ext st)
    by (destruct st as [? ? ? lt ? ? ? ? ? ? ?]; by destruct lt).
  destruct Hv as [Hw He]. split; [by apply Owns_lockInput|]. rewrite Hw, He. split.
  - apply (Owns_Kept (fun c => c <> Script.CbLockExpire) _ _ st); [discriminate|exact Hk|exact HW].
  - apply (Owns_Kept (fun c => c <> Script.CbLockExpire) _ _ st); [discriminate|exact Hk|exact HS].
Qed.

Lemma ScriptOwns_unlockInput (st : Script.St) : ScriptOwns st -> ScriptOwns (unlockInput st).
Proof.
  intros (HL & HW & HS). pose proof (unlockInput_Unlocked st) as HU.
  unfold ScriptOwns.
  rewrite (unl_lockTimer _ _ HU), (unl_wheelResetTimer _ _ HU), (unl_ext _ _ HU).
  split; [by apply Owns_unlockInput|]. split.
  - apply (Owns_Kept (fun _ => True) _ _ st); [exact I|apply Kept_unlockInput|exact HW].
  - apply (Owns_Kept (fun _ => True) _ _ st); [exact I|apply Kept_unlockInput|exact HS].
Qed.

Lemma ScriptOwns_clearTimers (st : Script.St) : ScriptOwns st -> ScriptOwns (clearTimers st).
Proof.
  intros (HL & HW & HS).
  assert (Hv : lockTimer (clearTimers st) = None /\ wheelResetTimer (clearTimers st) = None /\
               ext (clearTimers st) = ext st)
    by (destruct st as [? ? ? lt ? wt ? ? ? ? ?]; by destruct lt, wt).
  destruct Hv as (Hl & Hw & He). unfold ScriptOwns. rewrite Hl, Hw, He.
  split; [by apply Owns_clearTimers_lock|]. split; [by apply Owns_clearTimers_wheel|].
  apply (Owns_Kept (fun _ => True) _ _ st); [exact I|apply Kept_clearTimers|exact HS].
Qed.

Lemma ScriptOwns_accumulate d (st : Script.St) :
  ScriptOwns st -> ScriptOwns (accumulate Script.CbWheelReset d st).
Proof.
  intros (HL & HW & HS).
  pose proof (accumulate_Accumulated Script.CbWheelReset d st) as HA.
  assert (Hk : Kept (fun c => c <> Script.CbWheelReset) st (accumulate Script.CbWheelReset d st))
    by (apply Kept_accumulate; intros H; by apply H).
  unfold ScriptOwns. rewrite (acc_lockTimer _ _ _ _ HA), (acc_ext _ _ _ _ HA).
  split; [|split].
  - apply (Owns_Kept (fun c => c <> Script.CbWheelReset) _ _ st); [discriminate|exact Hk|exact HL].
  - by apply Owns_accumulate.
  - apply (Owns_Kept (fun c => c <> Script.CbWheelReset) _ _ st); [discriminate|exact Hk|exact HS].
Qed.

Lemma ScriptOwns_stabilize (st : Script.St) :
  ScriptOwns st -> ScriptOwns (Script.stabilizeAfterThemeSwitch st).
Proof.
  intros (HL & HW & HS). rewrite stabilize_unfold.
  set (v := Script.themeStabilizeTimer (ext st)).
  set (st1 := snd (setTimeout Script.CbStabilize 50 (clearIfSet v st))).
  assert (Hk : Kept (fun c => c <> Script.CbStabilize) st st1).
  { apply (Kept_trans _ st (clearIfSet v st)); [apply Kept_clearIfSet|].
    apply Kept_setTimeout. intros H; by apply H. }
  assert (Hv : lockTimer st1 = lockTimer st /\ wheelResetTimer st1 = wheelResetTimer st)
    by (subst st1; by destruct v).
  destruct Hv as [Hl Hw].
  unfold ScriptOwns.
  cbn [Script.upd ext set_ext lockTimer wheelResetTimer Script.themeStabilizeTimer
       Script.set_themeStabilizeTimer].
  rewrite Hl, Hw. split; [|split].
  - apply (Owns_same _ _ st1); [reflexivity|].
    apply (Owns_Kept (fun c => c <> Script.CbStabilize) _ _ st); [discriminate|exact Hk|exact HL].
  - apply (Owns_same _ _ st1); [reflexivity|].
    apply (Owns_Kept (fun c => c <> Script.CbStabilize) _ _ st); [discriminate|exact Hk|exact HW].
  - apply (Owns_same _ _ st1); [reflexivity|]. subst st1. by apply Owns_rearmed.
Qed.

Lemma ScriptOwns_applyTheme mode (st : Script.St) :
  ScriptOwns st -> ScriptOwns (Script.applyTheme mode st).
Proof.
  intros HG. unfold Script.applyTheme. apply ScriptOwns_stabilize.
  destruct (Script.themeSwitch _); repeat (apply ScriptOwns_upd; [reflexivity|]); exact HG.
Qed.

Lemma ScriptOwns_jumpToIndex env idx beh (st st' : Script.St) :
  Script.jumpToIndex env idx beh st = Some st' -> ScriptOwns st -> ScriptOwns st'.
Proof.
  unfold Script.jumpToIndex. intros H HG.
  destruct (sections st) as [|s l] eqn:Hs; [apply (inj Some) in H; by subst st'|].
  destruct (_ !! _) as [sec|] in H; [|discriminate].
  cbn [mbind option_bind] in H. apply (inj Some) in H. subst st'.
  apply ScriptOwns_setTimeout; [apply not_ScriptTimer; discriminate|].
  apply ScriptOwns_emit, ScriptOwns_lockInput.
  by apply ScriptOwns_set_currentIndex, ScriptOwns_set_currentIndex.
Qed.

Lemma ScriptOwns_stabilize_callback env (st : Script.St) :
  let st1 := unlockInput (set_wheelAccum 0 (clearTimers st)) in
  let st2 := match activeElement env with
             | Some el => if canBlur el then emit Blur st1 else st1
             | None => st1
             end in
  ScriptOwns st -> ScriptOwns (Script.upd (Script.set_scrollBehavior "auto") st2).
Proof.
  intros st1 st2 HG.
  assert (HG1 : ScriptOwns st1)
    by (subst st1; by apply ScriptOwns_unlockInput, ScriptOwns_set_wheelAccum,
                            ScriptOwns_clearTimers).
  apply ScriptOwns_upd; [reflexivity|]. subst st2.
  destruct (activeElement env) as [el|]; [|exact HG1].
  destruct (canBlur el); [by apply ScriptOwns_emit|exact HG1].
Qed.

Lemma ScriptOwns_fire env cb (st st' : Script.St) :
  Script.runCallback env cb st = Some st' -> ScriptOwns st -> ScriptOwns st'.
Proof.
  intros Hrun HG. destruct cb; cbn [Script.runCallback] in Hrun.
  - apply (inj Some) in Hrun. subst st'. by apply ScriptOwns_set_locked.
  - apply (inj Some) in Hrun. subst st'. by apply ScriptOwns_set_wheelAccum.
  - apply (inj Some) in Hrun. subst st'. by apply ScriptOwns_unlockInput, ScriptOwns_syncState.
  - apply (inj Some) in Hrun. subst st'.
    apply ScriptOwns_requestAnimationFrame; [apply not_ScriptTimer; discriminate|].
    by apply (ScriptOwns_stabilize_callback env st).
  - apply (inj Some) in Hrun. subst st'.
    apply ScriptOwns_requestAnimationFrame; [apply not_ScriptTimer; discriminate|exact HG].
  - destruct (Script.jumpToIndex _ _ _ _) as [st2|] eqn:Hj; [|discriminate].
    cbn [mbind option_bind] in Hrun. apply (inj Some) in Hrun. subst st'.
    apply ScriptOwns_setTimeout; [apply not_ScriptTimer; discriminate|].
    eapply ScriptOwns_jumpToIndex; [exact Hj|]. by apply ScriptOwns_syncState.
  - apply (inj Some) in Hrun. subst st'.
    apply ScriptOwns_unlockInput, ScriptOwns_syncState. by apply ScriptOwns_upd.
  - apply (inj Some) in Hrun. subst st'. by apply ScriptOwns_syncState.
Qed.

Lemma ScriptOwns_onWheel env e (st st' : Script.St) :
  Script.onWheel env e st = Some st' -> ScriptOwns st -> ScriptOwns st'.
Proof.
  intros Hstep HG. unfold Script.onWheel in Hstep.
  destruct (onWheel_cases Script.CbWheelReset Script.jump env e st)
    as [H|[H|(_ & [H|(idx & H)])]]; rewrite H in Hstep.
  - apply (inj Some) in Hstep. by subst st'.
  - apply (inj Some) in Hstep. subst st'. by apply ScriptOwns_emit.
  - apply (inj Some) in Hstep. subst st'. by apply ScriptOwns_accumulate.
  - rewrite jump_eq in Hstep. eapply ScriptOwns_jumpToIndex; [exact Hstep|].
    by apply ScriptOwns_set_wheelAccum, ScriptOwns_emit, ScriptOwns_accumulate.
Qed.

Lemma ScriptOwns_onKeyDown env e (st st' : Script.St) :
  Script.onKeyDown env e st = Some st' -> ScriptOwns st -> ScriptOwns st'.
Proof.
  intros Hstep HG. unfold Script.onKeyDown in Hstep.
  destruct (onKeyDown_cases Script.jump env e st)
    as [H|[H|(_ & _ & idx & H)]]; rewrite H in Hstep.
  - apply (inj Some) in Hstep. by subst st'.
  - apply (inj Some) in Hstep. subst st'. by apply ScriptOwns_emit.
  - rewrite jump_eq in Hstep. eapply ScriptOwns_jumpToIndex; [exact Hstep|].
    by apply ScriptOwns_emit.
Qed.

Lemma ScriptOwns_switchChange (hs : list Script.ChangeHandler) : forall st1 : Script.St,
  ScriptOwns st1 -> ScriptOwns (foldl (fun s h => Script.runChangeHandler h s) st1 hs).
Proof.
  induction hs as [|h hs IH]; intros st1 HG1; [exact HG1|].
  cbn [foldl]. apply IH. unfold Script.runChangeHandler. destruct h.
  destruct (Script.themeSwitch (ext st1)); [by apply ScriptOwns_applyTheme|exact HG1].
Qed.

Lemma ScriptOwns_clearStabilize (st : Script.St) :
  ScriptOwns st ->
  ScriptOwns (Script.upd (Script.set_themeStabilizeTimer None)
                (clearIfSet (Script.themeStabilizeTimer (ext st)) st)).
Proof.
  intros (HL & HW & HS).
  set (v := Script.themeStabilizeTimer (ext st)).
  assert (Hv : lockTimer (clearIfSet v st) = lockTimer st /\
               wheelResetTimer (clearIfSet v st) = wheelResetTimer st) by (by destruct v).
  destruct Hv as [Hl Hw]. unfold ScriptOwns.
  cbn [Script.upd ext set_ext lockTimer wheelResetTimer Script.themeStabilizeTimer
       Script.set_themeStabilizeTimer].
  rewrite Hl, Hw. split; [|split].
  - apply (Owns_same _ _ (clearIfSet v st)); [reflexivity|].
    apply (Owns_Kept (fun _ => True) _ _ st); [exact I|apply Kept_clearIfSet|exact HL].
  - apply (Owns_same _ _ (clearIfSet v st)); [reflexivity|].
    apply (Owns_Kept (fun _ => True) _ _ st); [exact I|apply Kept_clearIfSet|exact HW].
  - apply (Owns_same _ _ (clearIfSet v st)); [reflexivity|]. by apply Owns_cleared.
Qed.

Lemma ScriptOwns_destroy (st : Script.St) : ScriptOwns st -> ScriptOwns (Script.destroy st).
Proof.
  intros HG. unfold Script.destroy. apply ScriptOwns_clearStabilize.
  apply ScriptOwns_upd; [reflexivity|].
  by apply ScriptOwns_clearTimers, ScriptOwns_detachListeners.
Qed.

Lemma ScriptOwns_step env ev (st st' : Script.St) :
  Script.step env ev st = Some st' -> ScriptOwns st -> ScriptOwns st'.
Proof.
  intros Hstep HG. destruct ev; cbn [Script.step] in Hstep.
  - destruct (listenersAttached st); [|apply (inj Some) in Hstep; by subst st'].
    by eapply ScriptOwns_onWheel.
  - destruct (listenersAttached st); [|apply (inj Some) in Hstep; by subst st'].
    by eapply ScriptOwns_onKeyDown.
  - destruct (Script.resizeListener (ext st)); apply (inj Some) in Hstep; subst st'; [|done].
    by apply ScriptOwns_syncState.
  - destruct (Script.hashListener (ext st)); apply (inj Some) in Hstep; subst st'; [|done].
    apply ScriptOwns_setTimeout; [apply not_ScriptTimer; discriminate|exact HG].
  - destruct (Script.themeSwitch (ext st)) as [sw|]; apply (inj Some) in Hstep; subst st';
      [|done].
    apply ScriptOwns_switchChange. by apply ScriptOwns_upd.
  - destruct (tasks st !! id) as [[k cb]|] eqn:Hid; [|apply (inj Some) in Hstep; by subst st'].
    eapply ScriptOwns_fire; [exact Hstep|]. by apply ScriptOwns_clearTimeout.
  - apply (inj Some) in Hstep. subst st'. by apply ScriptOwns_destroy.
Qed.

Lemma ScriptOwns_run tr : forall st st' : Script.St,
  Script.run tr st = Some st' -> ScriptOwns st -> ScriptOwns st'.
Proof.
  induction tr as [|[env ev] tr IH]; intros st st' Hrun Hinv; cbn [Script.run] in Hrun.
  - apply (inj Some) in Hrun. by subst st'.
  - destruct (Script.step env ev st) as [st1|] eqn:Hstep; [|discriminate].
    cbn in Hrun. eapply IH; [exact Hrun|]. by eapply ScriptOwns_step.
Qed.

Lemma ScriptOwns_initScroll env (st : Script.St) :
  ScriptOwns st -> ScriptOwns (Script.initScroll env st).
Proof.
  intros HG. unfold Script.initScroll. apply ScriptOwns_upd; [reflexivity|].
  apply ScriptOwns_upd; [reflexivity|]. by apply ScriptOwns_attachListeners, ScriptOwns_syncState.
Qed.

Lemma ScriptOwns_initTheme (st : Script.St) : ScriptOwns st -> ScriptOwns (Script.initTheme st).
Proof.
  intros HG. unfold Script.initTheme. set (m := if bool_decide _ then _ else _).
  pose proof (ScriptOwns_applyTheme m st HG) as H1.
  destruct (Script.themeSwitch (ext (Script.applyTheme m st))); [|exact H1].
  by apply ScriptOwns_upd.
Qed.

Lemma ScriptOwns_init env stor classes sw sb :
  ScriptOwns (Script.init env (Script.initial stor classes sw sb)).
Proof.
  unfold Script.init. apply ScriptOwns_initTheme, ScriptOwns_initScroll.
  split; [|split]; intros id k Hk; cbn in Hk; by rewrite lookup_empty in Hk.
Qed.

(** X15. In every state a run of [script.js] can reach, with or without
    calls of [destroy], each of the three timers the script re-arms has
    at most one pending instance: a pending task that clears the lock is
    the one [lockTimer] names, a pending task that resets the wheel
    accumulator is the one [wheelResetTimer] names, and a pending
    stabilisation is the one [themeStabilizeTimer] names. However often
    [lockInput], [onWheel] and [applyTheme] run, the earlier timer is
    cleared before the next is armed. *)
Theorem script_timers_single env0 stor classes sw sb tr (st : Script.St) :
  Script.run tr (Script.init env0 (Script.initial stor classes sw sb)) = Some st ->
  (forall id k, tasks st !! id = Some (k, Script.CbLockExpire) -> lockTimer st = Some id) /\
  (forall id k, tasks st !! id = Some (k, Script.CbWheelReset) -> wheelResetTimer st = Some id) /\
  (forall id k, tasks st !! id = Some (k, Script.CbStabilize) ->
                Script.themeStabilizeTimer (ext st) = Some id) /\
  (forall cb id1 id2 k1 k2, ScriptTimer cb ->
     tasks st !! id1 = Some (k1, cb) -> tasks st !! id2 = Some (k2, cb) -> id1 = id2).
Proof.
  intros Hrun.
  pose proof (ScriptOwns_run tr _ _ Hrun (ScriptOwns_init env0 stor classes sw sb))
    as (HL & HW & HS).
  split; [exact HL|]. split; [exact HW|]. split; [exact HS|].
  intros cb id1 id2 k1 k2 [-> | [-> | ->]] H1 H2.
  - by eapply Owns_single; [exact HL|exact H1|exact H2].
  - by eapply Owns_single; [exact HW|exact H1|exact H2].
  - by eapply Owns_single; [exact HS|exact H1|exact H2].
Qed.

Lemma script_timers_single_witness :
  Script.run [(Demo.env3, Script.EvKeyDown (mkKey "ArrowDown" false))]
    (Script.init Demo.env3 (Script.initial ∅ ∅ (Some false) "")) = Some Demo.pressed /\
  (forall id k, tasks Demo.pressed !! id = Some (k, Script.CbLockExpire) ->
                lockTimer Demo.pressed = Some id).
Proof.
  assert (Hrun : Script.run [(Demo.env3, Script.EvKeyDown (mkKey "ArrowDown" false))]
                   (Script.init Demo.env3 (Script.initial ∅ ∅ (Some false) ""))
                 = Some Demo.pressed) by (vm_compute; reflexivity).
  split; [exact Hrun|].
  exact (proj1 (script_timers_single _ _ _ _ _ _ _ Hrun)).
Defined.

(** *** The second variant: the lock and wheel-reset timers *)

Definition VariantTimer (cb : Variant.Callback) : Prop :=
  cb = Variant.CbLockExpire \/ cb = Variant.CbWheelReset.

Definition VariantOwns (st : Variant.St) : Prop :=
  Owns Variant.CbLockExpire (lockTimer st) st /\
  Owns Variant.CbWheelReset (wheelResetTimer st) st.

Lemma VariantOwns_kept (st st' : Variant.St) :
  Kept VariantTimer st st' ->
  lockTimer st' = lockTimer st -> wheelResetTimer st' = wheelResetTimer st ->
  VariantOwns st -> VariantOwns st'.
Proof.
  intros Hk Hl Hw (HL & HW). unfold VariantOwns. rewrite Hl, Hw. split.
  - apply (Owns_Kept VariantTimer _ _ st); [by left|exact Hk|exact HL].
  - apply (Owns_Kept VariantTimer _ _ st); [by right|exact Hk|exact HW].
Qed.

Lemma VariantOwns_tm (st st' : Variant.St) : tm st' = tm st -> VariantOwns st -> VariantOwns st'.
Proof.
  unfold tm. intros [= _ Hl Hw Ht _]. apply VariantOwns_kept; [by apply Kept_same|exact Hl|exact Hw].
Qed.

Lemma VariantOwns_emit e (st : Variant.St) : VariantOwns st -> VariantOwns (emit e st).
Proof. by apply VariantOwns_tm. Qed.

Lemma VariantOwns_set_wheelAccum v (st : Variant.St) :
  VariantOwns st -> VariantOwns (set_wheelAccum v st).
Proof. by apply VariantOwns_tm. Qed.

Lemma VariantOwns_set_currentIndex v (st : Variant.St) :
  VariantOwns st -> VariantOwns (set_currentIndex v st).
Proof. by apply VariantOwns_tm. Qed.

Lemma VariantOwns_set_locked v (st : Variant.St) : VariantOwns st -> VariantOwns (set_locked v st).
Proof. apply VariantOwns_kept; [by apply Kept_same|reflexivity|reflexivity]. Qed.

Lemma VariantOwns_upd f (st : Variant.St) : VariantOwns st -> VariantOwns (Variant.upd f st).
Proof. by apply VariantOwns_tm. Qed.

Lemma VariantOwns_syncState env (st : Variant.St) : VariantOwns st -> VariantOwns (syncState env st).
Proof. apply VariantOwns_tm, tm_syncState. Qed.

Lemma VariantOwns_attachListeners (st : Variant.St) :
  VariantOwns st -> VariantOwns (attachListeners st).
Proof. apply VariantOwns_tm, tm_attachListeners. Qed.

Lemma VariantOwns_detachListeners (st : Variant.St) :
  VariantOwns st -> VariantOwns (detachListeners st).
Proof. apply VariantOwns_tm, tm_detachListeners. Qed.

Lemma not_VariantTimer (cb : Variant.Callback) :
  cb <> Variant.CbLockExpire -> cb <> Variant.CbWheelReset -> ~ VariantTimer cb.
Proof. intros H1 H2 [H|H]; contradiction. Qed.

Lemma VariantOwns_setTimeout cb ms (st : Variant.St) :
  ~ VariantTimer cb -> VariantOwns st -> VariantOwns (snd (setTimeout cb ms st)).
Proof. intros Hcb. apply VariantOwns_kept; [by apply Kept_setTimeout|reflexivity|reflexivity]. Qed.

Lemma VariantOwns_requestAnimationFrame cb (st : Variant.St) :
  ~ VariantTimer cb -> VariantOwns st -> VariantOwns (snd (requestAnimationFrame cb st)).
Proof.
  intros Hcb. apply VariantOwns_kept; [by apply Kept_requestAnimationFrame|reflexivity|reflexivity].
Qed.

Lemma VariantOwns_clearTimeout id (st : Variant.St) :
  VariantOwns st -> VariantOwns (clearTimeout id st).
Proof. apply VariantOwns_kept; [apply Kept_clearTimeout|reflexivity|reflexivity]. Qed.

Lemma VariantOwns_lockInput (st : Variant.St) : VariantOwns st -> VariantOwns (Variant.lockInput st).
Proof.
  intros (HL & HW). unfold Variant.lockInput.
  assert (Hw : wheelResetTimer (lockInput Variant.CbLockExpire Variant.MAX_LOCK_MS st)
               = wheelResetTimer st)
    by (destruct st as [? ? ? lt ? ? ? ? ? ? ?]; by destruct lt).
  split; [by apply Owns_lockInput|]. rewrite Hw.
  apply (Owns_Kept (fun c => c <> Variant.CbLockExpire) _ _ st); [discriminate| |exact HW].
  apply Kept_lockInput. intros H; by apply H.
Qed.

Lemma VariantOwns_unlockInput (st : Variant.St) : VariantOwns st -> VariantOwns (unlockInput st).
Proof.
  intros (HL & HW). pose proof (unlockInput_Unlocked st) as HU.
  unfold VariantOwns. rewrite (unl_lockTimer _ _ HU), (unl_wheelResetTimer _ _ HU).
  split; [by apply Owns_unlockInput|].
  apply (Owns_Kept (fun _ => True) _ _ st); [exact I|apply Kept_unlockInput|exact HW].
Qed.

Lemma VariantOwns_clearTimers (st : Variant.St) : VariantOwns st -> VariantOwns (clearTimers st).
Proof.
  intros (HL & HW).
  assert (Hv : lockTimer (clearTimers st) = None /\ wheelResetTimer (clearTimers st) = None)
    by (destruct st as [? ? ? lt ? wt ? ? ? ? ?]; by destruct lt, wt).
  destruct Hv as (Hl & Hw). unfold VariantOwns. rewrite Hl, Hw.
  split; [by apply Owns_clearTimers_lock|by apply Owns_clearTimers_wheel].
Qed.

Lemma VariantOwns_accumulate d (st : Variant.St) :
  VariantOwns st -> VariantOwns (accumulate Variant.CbWheelReset d st).
Proof.
  intros (HL & HW).
  pose proof (accumulate_Accumulated Variant.CbWheelReset d st) as HA.
  unfold VariantOwns. rewrite (acc_lockTimer _ _ _ _ HA).
  split; [|by apply Owns_accumulate].
  apply (Owns_Kept (fun c => c <> Variant.CbWheelReset) _ _ st); [discriminate| |exact HL].
  apply Kept_accumulate. intros H; by apply H.
Qed.

Lemma VariantOwns_clearAllTimers (st : Variant.St) :
  VariantOwns st -> VariantOwns (Variant.clearAllTimers st).
Proof.
  intros HG. unfold Variant.clearAllTimers.
  pose proof (VariantOwns_clearTimers st HG) as H1.
  destruct (Variant.settleStopper (ext (clearTimers st))); [|exact H1].
  unfold Variant.callStopper. by apply VariantOwns_upd, VariantOwns_upd.
Qed.

Lemma VariantOwns_scrollToIndex env idx (st st' : Variant.St) :
  Variant.scrollToIndex env idx st = Some st' -> VariantOwns st -> VariantOwns st'.
Proof.
  unfold Variant.scrollToIndex. intros H HG.
  destruct (sections st) as [|s l] eqn:Hs; [apply (inj Some) in H; by subst st'|].
  destruct (_ !! _) as [sec|] in H; [|discriminate].
  cbn [mbind option_bind] in H. apply (inj Some) in H. subst st'.
  unfold Variant.waitForSettle.
  apply VariantOwns_setTimeout; [apply not_VariantTimer; discriminate|].
  apply VariantOwns_upd, VariantOwns_upd, VariantOwns_emit, VariantOwns_lockInput.
  by apply VariantOwns_set_currentIndex, VariantOwns_set_currentIndex.
Qed.

Lemma VariantOwns_hardReInit (st : Variant.St) :
  VariantOwns st -> VariantOwns (Variant.hardReInit st).
Proof.
  intros HG. unfold Variant.hardReInit.
  apply VariantOwns_requestAnimationFrame; [apply not_VariantTimer; discriminate|].
  apply VariantOwns_set_wheelAccum, VariantOwns_set_locked, VariantOwns_clearAllTimers.
  by apply VariantOwns_detachListeners.
Qed.

Lemma VariantOwns_check env sid (st : Variant.St) :
  VariantOwns st -> VariantOwns (Variant.check env sid st).
Proof.
  intros HG. unfold Variant.check.
  destruct (Variant.settles (ext st) !! sid) as [s|]; [|exact HG].
  destruct (Variant.cancelled s); [exact HG|].
  destruct (Variant.SETTLE_REQUIRED_STEPS <=? _).
  - apply VariantOwns_upd, VariantOwns_unlockInput, VariantOwns_set_currentIndex.
    by apply VariantOwns_upd.
  - apply VariantOwns_setTimeout; [apply not_VariantTimer; discriminate|].
    by apply VariantOwns_upd.
Qed.

Lemma VariantOwns_fire env cb (st : Variant.St) :
  VariantOwns st -> VariantOwns (Variant.runCallback env cb st).
Proof.
  intros HG. destruct cb; cbn [Variant.runCallback].
  - by apply VariantOwns_set_locked.
  - by apply VariantOwns_set_wheelAccum.
  - by apply VariantOwns_check.
  - by apply VariantOwns_syncState.
  - apply VariantOwns_requestAnimationFrame; [apply not_VariantTimer; discriminate|exact HG].
  - by apply VariantOwns_attachListeners, VariantOwns_syncState.
Qed.

Lemma VariantOwns_step env ev (st st' : Variant.St) :
  Variant.step env ev st = Some st' -> VariantOwns st -> VariantOwns st'.
Proof.
  intros Hstep HG. destruct ev; cbn [Variant.step] in Hstep.
  - destruct (listenersAttached st); [|apply (inj Some) in Hstep; by subst st'].
    unfold Variant.onWheel in Hstep.
    destruct (onWheel_cases Variant.CbWheelReset Variant.scrollToIndex env e st)
      as [H|[H|(_ & [H|(idx & H)])]]; rewrite H in Hstep.
    + apply (inj Some) in Hstep. by subst st'.
    + apply (inj Some) in Hstep. subst st'. by apply VariantOwns_emit.
    + apply (inj Some) in Hstep. subst st'. by apply VariantOwns_accumulate.
    + eapply VariantOwns_scrollToIndex; [exact Hstep|].
      by apply VariantOwns_set_wheelAccum, VariantOwns_emit, VariantOwns_accumulate.
  - destruct (listenersAttached st); [|apply (inj Some) in Hstep; by subst st'].
    unfold Variant.onKeyDown in Hstep.
    destruct (onKeyDown_cases Variant.scrollToIndex env e st)
      as [H|[H|(_ & _ & idx & H)]]; rewrite H in Hstep.
    + apply (inj Some) in Hstep. by subst st'.
    + apply (inj Some) in Hstep. subst st'. by apply VariantOwns_emit.
    + eapply VariantOwns_scrollToIndex; [exact Hstep|]. by apply VariantOwns_emit.
  - destruct (Variant.resizeListener (ext st)); apply (inj Some) in Hstep; subst st'; [|done].
    by apply VariantOwns_syncState.
  - destruct (Variant.hashListener (ext st)); apply (inj Some) in Hstep; subst st'; [|done].
    apply VariantOwns_setTimeout; [apply not_VariantTimer; discriminate|exact HG].
  - destruct (Variant.observer (ext st)); apply (inj Some) in Hstep; subst st'; [|done].
    induction ms as [|m ms IH]; [exact HG|]. cbn [Variant.onMutations].
    destruct (_ && _)%bool; [by apply VariantOwns_hardReInit|exact IH].
  - destruct (Variant.themeSwitch (ext st)) as [sw|]; apply (inj Some) in Hstep; subst st';
      [|done].
    pose proof (VariantOwns_upd
                  (Variant.set_themeSwitch (Some (mkCheckbox (negb (checked sw)) (onChange sw))))
                  st HG) as HG1.
    revert HG1. generalize (Variant.upd
      (Variant.set_themeSwitch (Some (mkCheckbox (negb (checked sw)) (onChange sw)))) st).
    induction (onChange sw) as [|h hs IH]; intros st1 HG1; [exact HG1|].
    cbn [foldl]. apply IH. destruct h. by apply VariantOwns_hardReInit.
  - destruct (tasks st !! id) as [[k cb]|] eqn:Hid; apply (inj Some) in Hstep; subst st';
      [|done].
    by apply VariantOwns_fire, VariantOwns_clearTimeout.
Qed.

Lemma VariantOwns_run tr : forall st st' : Variant.St,
  Variant.run tr st = Some st' -> VariantOwns st -> VariantOwns st'.
Proof.
  induction tr as [|[env ev] tr IH]; intros st st' Hrun Hinv; cbn [Variant.run] in Hrun.
  - apply (inj Some) in Hrun. by subst st'.
  - destruct (Variant.step env ev st) as [st1|] eqn:Hstep; [|discriminate].
    cbn in Hrun. eapply IH; [exact Hrun|]. by eapply VariantOwns_step.
Qed.

Lemma VariantOwns_init env sw : VariantOwns (Variant.init env (Variant.initial sw)).
Proof.
  unfold Variant.init.
  assert (H0 : VariantOwns (Variant.initial sw))
    by (split; intros id k Hk; cbn in Hk; by rewrite lookup_empty in Hk).
  pose proof (VariantOwns_upd (Variant.set_observer true) _
                (VariantOwns_upd (Variant.set_resizeListener true) _
                   (VariantOwns_upd (Variant.set_hashListener true) _
                      (VariantOwns_attachListeners _
                         (VariantOwns_syncState env _ H0))))) as H1.
  destruct (Variant.themeSwitch _); [by apply VariantOwns_upd|exact H1].
Qed.

(** X16. In every state a run of the second variant can reach, through
    scrolls, settle checks and re-initialisations, at most one lock
    timer and at most one wheel-reset timer are pending, and each is the
    one its variable names. *)
Theorem variant_timers_single env0 sw tr (st : Variant.St) :
  Variant.run tr (Variant.init env0 (Variant.initial sw)) = Some st ->
  (forall id k, tasks st !! id = Some (k, Variant.CbLockExpire) -> lockTimer st = Some id) /\
  (forall id k, tasks st !! id = Some (k, Variant.CbWheelReset) -> wheelResetTimer st = Some id) /\
  (forall cb id1 id2 k1 k2, VariantTimer cb ->
     tasks st !! id1 = Some (k1, cb) -> tasks st !! id2 = Some (k2, cb) -> id1 = id2).
Proof.
  intros Hrun.
  pose proof (VariantOwns_run tr _ _ Hrun (VariantOwns_init env0 sw)) as (HL & HW).
  split; [exact HL|]. split; [exact HW|].
  intros cb id1 id2 k1 k2 [-> | ->] H1 H2.
  - by eapply Owns_single; [exact HL|exact H1|exact H2].
  - by eapply Owns_single; [exact HW|exact H1|exact H2].
Qed.

Lemma variant_timers_single_witness :
  exists st : Variant.St,
    Variant.run [(Demo.env3, Variant.EvKeyDown (mkKey "ArrowDown" false))]
      (Variant.init Demo.env3 (Variant.initial (Some false))) = Some st /\
    (forall id k, tasks st !! id = Some (k, Variant.CbLockExpire) -> lockTimer st = Some id).
Proof.
  assert (Hrun : exists st : Variant.St,
             Variant.run [(Demo.env3, Variant.EvKeyDown (mkKey "ArrowDown" false))]
               (Variant.init Demo.env3 (Variant.initial (Some false))) = Some st)
    by (vm_compute; eexists; reflexivity).
  destruct Hrun as [st Hrun]. exists st. split; [exact Hrun|].
  exact (proj1 (variant_timers_single _ _ _ _ Hrun)).
Defined.
